(** * BatmanSecurer: the anchor patcher, the opcode shuffler and the key deriver

    A shallow embedding of the three text and byte transformations of the
    repository:
    - [patchers/gum_quick_patcher.py]: three anchored insertions into
      [gumquickcore.c];
    - [patchers/shuffler.py]: grouped shuffling and relocation of the lines of
      [quickjs-opcode.h], followed by a comment fix-up pass;
    - [frida_builder.py], [generate_stuff_h]: derivation of a secret blob and
      of a 256-entry substitution box from a passphrase, and the header that
      holds them;
    - [frida_builder.py], [validate_config], [build], [patch_meson_build] and
      [setup_quickjs]: the validation of the configuration, the flags of the
      build, the replacement of the QuickJS dependency in [meson.build] and
      the filter of the extraction.

    Python [str] values are lists of code points (the keys of a JSON object,
    which are only compared, are held as their bytes), [bytes] values are
    lists of integers below 256, list indices are [nat] and Python [int] results that may
    be [-1] are [Z].  The two random sources ([random], [secrets]) are an
    oracle read through a cursor; [hashlib] is embedded from FIPS 180-4. *)

From Stdlib Require Import ZArith NArith String Ascii List Lia QArith SpecFloat.
From stdpp Require Import base list sorting strings gmap gmultiset.

Local Open Scope Z_scope.

(** ** Python strings *)

Module Py.

(** A [str] is a sequence of Unicode code points. *)
Abbreviation char := N (only parsing).
Abbreviation str := (list N) (only parsing).

(** A literal of the source, which are all ASCII. *)
Definition lit (s : string) : str :=
  map N_of_ascii (list_ascii_of_string s).

Definition dq : string := String "034"%char EmptyString.
Definition nl : string := String "010"%char EmptyString.

(** The text of a triple-quoted literal given line by line: every line is
    followed by a newline. *)
Definition unlines (ls : list string) : string :=
  foldr (fun l acc => l +:+ nl +:+ acc) EmptyString ls.

(** [s.startswith(p)] *)
Fixpoint starts_with (p s : str) : bool :=
  match p, s with
  | [], _ => true
  | _ :: _, [] => false
  | a :: p', b :: s' => (a =? b)%N && starts_with p' s'
  end.

(** First index [>= k] at which [sub] occurs, [s] being the text from
    index [k] on. *)
Fixpoint find_from (sub s : str) (k : nat) : option nat :=
  if starts_with sub s then Some k
  else match s with
       | [] => None
       | _ :: s' => find_from sub s' (S k)
       end.

(** A slice bound, as Python normalises it: negative bounds count from the
    end, and every bound is clamped to [0, len]. *)
Definition bound (n : nat) (p : Z) : nat :=
  Z.to_nat (Z.min (Z.of_nat n) (if p <? 0 then Z.max 0 (Z.of_nat n + p) else p)).

(** [text.find(sub, start)]: the lowest index from [start] on where [sub]
    occurs, [-1] when there is none. *)
Definition find (sub text : str) (start : Z) : Z :=
  if Z.of_nat (length text) <? start then -1
  else
    let k := bound (length text) start in
    match find_from sub (drop k text) k with
    | Some i => Z.of_nat i
    | None => -1
    end.

(** [sub in text] *)
Definition contains (sub text : str) : bool :=
  match find_from sub text 0 with Some _ => true | None => false end.

(** What a file opened in text mode gives for its decoded content: each
    CR LF and each other CR is turned into LF. *)
Fixpoint universal_newlines (s : str) : str :=
  match s with
  | [] => []
  | c :: s' =>
      if (c =? 13)%N then
        10%N :: match s' with
                | c' :: s'' =>
                    if (c' =? 10)%N then universal_newlines s''
                    else universal_newlines s'
                | [] => []
                end
      else c :: universal_newlines s'
  end.

(** The UTF-8 bytes of a code point.  A surrogate (U+D800 to U+DFFF), which
    a [str] can hold on its own, has none; nor has a number above U+10FFFF,
    which is no code point. *)
Definition encode_char (c : char) : option (list Z) :=
  let c := Z.of_N c in
  if c <? 128 then Some [c]
  else if c <? 2048 then Some [192 + c / 64; 128 + c mod 64]
  else if (55296 <=? c) && (c <=? 57343) then None
  else if c <? 65536 then
    Some [224 + c / 4096; 128 + (c / 64) mod 64; 128 + c mod 64]
  else if c <? 1114112 then
    Some [240 + c / 262144; 128 + (c / 4096) mod 64; 128 + (c / 64) mod 64;
          128 + c mod 64]
  else None.

(** [s.encode("utf-8")]: [None] stands for the [UnicodeEncodeError] that a
    lone surrogate raises. *)
Fixpoint encode (s : str) : option (list Z) :=
  match s with
  | [] => Some []
  | c :: s' =>
      match encode_char c, encode s' with
      | Some bs, Some rest => Some (bs ++ rest)
      | _, _ => None
      end
  end.

(** [text[:p]] and [text[p:]] *)
Definition slice_to {A} (text : list A) (p : Z) : list A :=
  take (bound (length text) p) text.
Definition slice_from {A} (text : list A) (p : Z) : list A :=
  drop (bound (length text) p) text.

End Py.
Export Py.

(** ** patchers/gum_quick_patcher.py *)

Module Patcher.

Definition ENTRY_TO_ADD : str :=
  lit ("  JS_CFUNC_DEF (" +:+ dq +:+ "loadBytecode" +:+ dq
       +:+ ", 0, gumjs_script_load_bytecode)," +:+ nl).
Definition DECLARE_LINE : str :=
  lit ("GUMJS_DECLARE_FUNCTION (gumjs_script_load_bytecode)" +:+ nl).

Definition FUNC_BODY_VARIANT_1_lines : list string :=
  [ EmptyString;
    "    name_copy = g_strdup(name);";
    "    g_hash_table_insert(";
    "            es_assets,";
    "            name_copy,";
    "            gum_es_asset_new(name_copy, NULL, 0, NULL)";
    "    );" ].

Definition FUNC_BODY_VARIANT_2_lines : list string :=
  [ EmptyString;
    "    name_copy = g_strdup(name);";
    "    g_hash_table_insert(";
    "        es_assets,";
    "        name_copy,";
    "        gum_es_asset_new_take(name_copy, NULL, 0)";
    "    );" ].

Definition FUNC_BODY_VARIANT_1 : string := unlines FUNC_BODY_VARIANT_1_lines.
Definition FUNC_BODY_VARIANT_2 : string := unlines FUNC_BODY_VARIANT_2_lines.

(** The two raw literals of [build_function], around the variant body. *)
Definition function_head_lines : list string :=
  [ EmptyString;
    "GUMJS_DEFINE_FUNCTION (gumjs_script_load_bytecode)";
    "{";
    "    GHashTable * es_assets = core->program->es_assets;";
    "    const gchar * name;";
    "    JSValue byte_val, perform_init, module;";
    "    gchar * name_copy;";
    "    GumQuickModuleInitOperation * op;";
    "    GSource * gsource;";
    EmptyString;
    ("    if (!_gum_quick_args_parse(args, " +:+ dq +:+ "sOF" +:+ dq +:+ ", &name, &byte_val, &perform_init))");
    "        return JS_EXCEPTION;";
    EmptyString;
    "    if (g_hash_table_contains(es_assets, name))";
    ("        return _gum_quick_throw(ctx, " +:+ dq +:+ "module '%s' already exists" +:+ dq +:+ ", name);");
    EmptyString;
    "    uint8_t *buf = NULL;";
    "    size_t buf_len = 0;";
    EmptyString;
    "    buf = JS_GetArrayBuffer(ctx, &buf_len, byte_val);";
    EmptyString;
    "    if (buf == NULL) {";
    "        size_t byte_offset = 0;";
    "        size_t byte_length = 0;";
    "        size_t bytes_per_elem = 0;";
    EmptyString;
    "        JSValue ab = JS_GetTypedArrayBuffer(";
    "                ctx,";
    "                byte_val,";
    "                &byte_offset,";
    "                &byte_length,";
    "                &bytes_per_elem";
    "        );";
    EmptyString;
    "        if (JS_IsException(ab)) {";
    "            return _gum_quick_throw(ctx,";
    ("                " +:+ dq +:+ "expected ArrayBuffer or TypedArray containing QuickJS bytecode" +:+ dq +:+ ");");
    "        }";
    EmptyString;
    "        size_t abuf_len = 0;";
    "        uint8_t *abuf = JS_GetArrayBuffer(ctx, &abuf_len, ab);";
    "        JS_FreeValue(ctx, ab);";
    EmptyString;
    "        if (abuf == NULL) {";
    "            return _gum_quick_throw(ctx,";
    ("                " +:+ dq +:+ "invalid TypedArray: could not get underlying ArrayBuffer" +:+ dq +:+ ");");
    "        }";
    EmptyString;
    "        buf = abuf + byte_offset;";
    "        buf_len = byte_length;";
    "    }";
    EmptyString;
    "    module = JS_ReadObject(";
    "            ctx,";
    "            buf,";
    "            buf_len,";
    "            JS_READ_OBJ_BYTECODE | JS_READ_OBJ_REFERENCE | JS_READ_OBJ_SAB";
    "    );";
    EmptyString;
    "    if (JS_IsException(module)) {";
    "        return _gum_quick_script_rethrow_parse_error_with_decorations(";
    "                core->script, ctx, name);";
    "    }" ].

Definition function_tail_lines : list string :=
  [ EmptyString;
    "    op = g_slice_new(GumQuickModuleInitOperation);";
    "    op->module = module;";
    "    op->perform_init = JS_DupValue(ctx, perform_init);";
    "    op->core = core;";
    EmptyString;
    "    gsource = g_idle_source_new();";
    "    g_source_set_callback(";
    "            gsource,";
    "            (GSourceFunc) gum_quick_core_init_module,";
    "            op,";
    "            NULL";
    "    );";
    "    g_source_attach(";
    "            gsource,";
    "            gum_script_scheduler_get_js_context(core->scheduler)";
    "    );";
    "    g_source_unref(gsource);";
    EmptyString;
    "    _gum_quick_core_pin(core);";
    EmptyString;
    "    return JS_UNDEFINED;";
    "}" ].


(** [s.lstrip("\n")] *)
Fixpoint lstrip_nl (s : str) : str :=
  match s with
  | c :: s' => if (c =? 10)%N then lstrip_nl s' else s
  | [] => []
  end.

(** [r'''...''' + variant_body + r'''...'''.lstrip("\n")]: the method is
    applied to the last literal alone, so the text keeps the newline that
    opens the first. *)
Definition build_function (variant_body : string) : str :=
  lit (unlines function_head_lines) ++ lit variant_body
  ++ lstrip_nl (lit (unlines function_tail_lines)).

(** The [while] loop of [find_matching_brace]: [s] is the text from index
    [i] on. *)
Fixpoint scan_braces (s : str) (i depth : Z) : Z :=
  match s with
  | [] => -1
  | c :: s' =>
      if (c =? 123)%N then scan_braces s' (i + 1) (depth + 1)
      else if (c =? 125)%N then
        if depth - 1 =? 0 then i else scan_braces s' (i + 1) (depth - 1)
      else scan_braces s' (i + 1) depth
  end.

(** [open_pos] is the result of a [find], so [open_pos + 1] is never
    negative and [text[i]] never indexes from the end. *)
Definition find_matching_brace (text : str) (open_pos : Z) : Z :=
  scan_braces (drop (Z.to_nat (open_pos + 1)) text) (open_pos + 1) 1.

(** The script's effects: it reads the target file, may stop in [die] (which
    prints a message and exits with status 1) and writes the target file as
    its last action.  The file is held as the text that [Path.read_text]
    gives and [Path.write_text] takes: the decoded content with its line ends
    turned into LF. *)
Record fs := { target_file : option str }.

(** The state in which the target file has the content [raw]. *)
Definition file_of (raw : str) : fs :=
  {| target_file := Some (universal_newlines raw) |}.

Definition prog (A : Type) : Type := fs -> (string + A) * fs.

Definition ret {A} (a : A) : prog A := fun w => (inr a, w).
Definition die {A} (msg : string) : prog A := fun w => (inl msg, w).
Definition bind {A B} (m : prog A) (k : A -> prog B) : prog B :=
  fun w => match m w with
           | (inl msg, w') => (inl msg, w')
           | (inr a, w') => k a w'
           end.
Definition exists_file : prog bool :=
  fun w => (inr (match target_file w with Some _ => true | None => false end), w).
Definition read_text : prog str :=
  fun w => (inr (default [] (target_file w)), w).
Definition write_text (text : str) : prog unit :=
  fun _ => (inr tt, {| target_file := Some text |}).

Notation "'let*' x := m 'in' k" := (bind m (fun x => k))
  (at level 10, x name, m at level 100, k at level 200).

Inductive variant := Variant1 | Variant2.

Definition detect_variant (text : str) : prog variant :=
  if contains (lit "gum_es_asset_new_take") text then ret Variant2
  else if contains (lit "gum_es_asset_new") text then ret Variant1
  else die "Cannot detect allocator variant in gumquickcore.c".

(** PATCH 1: JS function entry *)
Definition patch_entry (text : str) : prog str :=
  if negb (contains ENTRY_TO_ADD text) then
    let marker := lit "static const JSCFunctionListEntry gumjs_script_entries[] =" in
    let mpos := find marker text 0 in
    if mpos =? -1 then die "gumjs_script_entries not found" else
    let open_brace := find (lit "{") text mpos in
    if open_brace =? -1 then die "Opening brace for gumjs_script_entries not found" else
    let close_brace := find_matching_brace text open_brace in
    if close_brace =? -1 then die "Closing brace for gumjs_script_entries not found" else
    let insert_pos := close_brace in
    ret (slice_to text insert_pos ++ ENTRY_TO_ADD ++ slice_from text insert_pos)
  else ret text.

(** PATCH 2: Declaration *)
Definition patch_declaration (text : str) : prog str :=
  if negb (contains DECLARE_LINE text) then
    let anchor := lit "GUMJS_DECLARE_FUNCTION (gumjs_script_unbind_weak)" in
    let idx := find anchor text 0 in
    if idx =? -1 then die "Declaration anchor not found" else
    let insert_pos := find (lit nl) text idx + 1 in
    ret (slice_to text insert_pos ++ DECLARE_LINE ++ slice_from text insert_pos)
  else ret text.

(** PATCH 3: Implementation *)
Definition patch_implementation (function_impl text : str) : prog str :=
  if negb (contains (lit "GUMJS_DEFINE_FUNCTION (gumjs_script_load_bytecode)") text) then
    let anchor := lit "GUMJS_DEFINE_FUNCTION (gumjs_script_unbind_weak)" in
    let idx := find anchor text 0 in
    if idx =? -1 then die "Function anchor not found" else
    let open_brace := find (lit "{") text idx in
    let close_brace := find_matching_brace text open_brace in
    if close_brace =? -1 then die "Failed to locate end of anchor function" else
    let insert_pos := close_brace + 1 in
    ret (slice_to text insert_pos ++ lit (nl +:+ nl) ++ function_impl ++ lit nl
         ++ slice_from text insert_pos)
  else ret text.

(** The three patches in sequence and the final write: lines 180-232 of
    [main]. *)
Definition apply_patches (function_impl text : str) : prog unit :=
  let* text := patch_entry text in
  let* text := patch_declaration text in
  let* text := patch_implementation function_impl text in
  write_text text.

(** [main], with [sys.argv] as its argument; the path arithmetic that leads
    to the target file is left out, the file is the one of [fs]. *)
Definition main (argv : list str) : prog unit :=
  if negb (length argv =? 2)%nat then die "Usage: script.py <frida_root_dir>" else
  let* present := exists_file in
  if negb present then die "Target file not found" else
  let* text := read_text in
  let* variant := detect_variant text in
  let function_impl :=
    match variant with
    | Variant1 => build_function FUNC_BODY_VARIANT_1
    | Variant2 => build_function FUNC_BODY_VARIANT_2
    end in
  apply_patches function_impl text.

(** The literals of the three patches, for the statements about them. *)
Inductive patch_id := EntryPatch | DeclarationPatch | ImplementationPatch.

(** The literal whose presence makes a patch a no-op. *)
Definition detection_literal (p : patch_id) : str :=
  match p with
  | EntryPatch => ENTRY_TO_ADD
  | DeclarationPatch => DECLARE_LINE
  | ImplementationPatch => lit "GUMJS_DEFINE_FUNCTION (gumjs_script_load_bytecode)"
  end.

(** The literal a patch searches for to place its insertion. *)
Definition anchor_literal (p : patch_id) : str :=
  match p with
  | EntryPatch => lit "static const JSCFunctionListEntry gumjs_script_entries[] ="
  | DeclarationPatch => lit "GUMJS_DECLARE_FUNCTION (gumjs_script_unbind_weak)"
  | ImplementationPatch => lit "GUMJS_DEFINE_FUNCTION (gumjs_script_unbind_weak)"
  end.

(** The message of [die] when that anchor is missing. *)
Definition anchor_error (p : patch_id) : string :=
  match p with
  | EntryPatch => "gumjs_script_entries not found"
  | DeclarationPatch => "Declaration anchor not found"
  | ImplementationPatch => "Function anchor not found"
  end.

(** The buffer a patch receives: the text as the patches before it left
    it. *)
Definition buffer_before (p : patch_id) (text : str) : prog str :=
  match p with
  | EntryPatch => ret text
  | DeclarationPatch => patch_entry text
  | ImplementationPatch => let* text := patch_entry text in patch_declaration text
  end.

(** Two small target files for the statements below: one without the
    declaration anchor, and the buffer the first patch makes of it. *)
Definition sample_no_declaration : str :=
  lit (unlines
    [ "static const JSCFunctionListEntry gumjs_script_entries[] =";
      "{";
      "  JS_CFUNC_DEF (" +:+ dq +:+ "unbindWeak" +:+ dq +:+ ", 0, gumjs_script_unbind_weak),";
      "};";
      "asset = gum_es_asset_new (name, NULL, 0, NULL);" ]).

Definition sample_no_declaration_entry : str :=
  lit (unlines
    [ "static const JSCFunctionListEntry gumjs_script_entries[] =";
      "{";
      "  JS_CFUNC_DEF (" +:+ dq +:+ "unbindWeak" +:+ dq +:+ ", 0, gumjs_script_unbind_weak),";
      "  JS_CFUNC_DEF (" +:+ dq +:+ "loadBytecode" +:+ dq +:+ ", 0, gumjs_script_load_bytecode),";
      "};";
      "asset = gum_es_asset_new (name, NULL, 0, NULL);" ]).

(** A target file on which the three patches apply. *)
Definition sample_unpatched : str :=
  lit (unlines
    [ "GUMJS_DECLARE_FUNCTION (gumjs_script_unbind_weak)";
      "static const JSCFunctionListEntry gumjs_script_entries[] =";
      "{";
      "  JS_CFUNC_DEF (" +:+ dq +:+ "unbindWeak" +:+ dq +:+ ", 0, gumjs_script_unbind_weak),";
      "};";
      "GUMJS_DEFINE_FUNCTION (gumjs_script_unbind_weak)";
      "{";
      "  if (x) { asset = gum_es_asset_new (name, NULL, 0, NULL); }";
      "}" ]).

End Patcher.

(** ** The random sources *)

Module Rand.

(** [random] and [secrets] are read as an oracle: an endless tape of
    integers, of which every draw consumes the first.  A computation may also
    raise, which is [None]. *)
Definition tape := nat -> Z.
Definition rand (A : Type) : Type := tape -> option (A * tape).

Definition ret {A} (a : A) : rand A := fun t => Some (a, t).
Definition raise {A} : rand A := fun _ => None.
Definition bind {A B} (m : rand A) (k : A -> rand B) : rand B :=
  fun t => match m t with
           | Some (a, t') => k a t'
           | None => None
           end.
Definition lift {A} (o : option A) : rand A :=
  match o with Some a => ret a | None => raise end.

Notation "'let*' x := m 'in' k" := (bind m (fun x => k))
  (at level 10, x name, m at level 100, k at level 200).
Notation "'let*' ' p := m 'in' k" := (bind m (fun x => let 'p := x in k))
  (at level 10, p strict pattern, m at level 100, k at level 200).

Definition draw : rand Z := fun t => Some (t 0%nat, fun n => t (S n)).

(** [randbelow(n)]: some integer of [0, n); a [ValueError] unless [n] is
    positive. *)
Definition randbelow (n : Z) : rand Z :=
  if 0 <? n then let* x := draw in ret (x mod n) else raise.

(** [secrets.token_bytes(n)] *)
Fixpoint token_bytes (n : nat) : rand (list Z) :=
  match n with
  | O => ret []
  | S n' => let* b := randbelow 256 in
            let* bs := token_bytes n' in
            ret (b :: bs)
  end.

(** [random.random()]: a multiple of [2^-53] in [0, 1). *)
Definition random : rand Q :=
  let* k := randbelow (2 ^ 53) in ret (Qmake k (2 ^ 53)).

(** [random.randint(a, b)] *)
Definition randint (a b : Z) : rand Z :=
  let* k := randbelow (b - a + 1) in ret (a + k).

(** [random.choice(seq)] *)
Definition choice {A} (seq : list A) : rand A :=
  let* i := randbelow (Z.of_nat (length seq)) in lift (seq !! Z.to_nat i).

(** [x[i], x[j] = x[j], x[i]]: both reads come first, and an index out of
    range raises. *)
Definition swap {A} (x : list A) (i j : nat) : option (list A) :=
  match x !! j, x !! i with
  | Some xj, Some xi => Some (<[j := xi]> (<[i := xj]> x))
  | _, _ => None
  end.

(** The loop of [random.shuffle(x)]:
    [for i in reversed(range(1, len(x))): j = randbelow(i + 1); swap],
    entered with [i = len(x) - 1]. *)
Fixpoint shuffle_loop {A} (i : nat) (x : list A) : rand (list A) :=
  match i with
  | O => ret x
  | S i' => let* j := randbelow (Z.of_nat i + 1) in
            let* x := lift (swap x i (Z.to_nat j)) in
            shuffle_loop i' x
  end.

Definition shuffle {A} (x : list A) : rand (list A) :=
  shuffle_loop (length x - 1) x.

End Rand.

(** ** patchers/shuffler.py *)

Module Shuffler.
Import Rand.

(** [\s] of a [str] pattern: the code points for which [str.isspace]
    holds. *)
Definition is_space (c : char) : bool :=
  ((9 <=? c) && (c <=? 13) || (28 <=? c) && (c <=? 32)
   || (c =? 133) || (c =? 160) || (c =? 5760)
   || (8192 <=? c) && (c <=? 8202) || (c =? 8232) || (c =? 8233)
   || (c =? 8239) || (c =? 8287) || (c =? 12288))%N.

(** [[A-Za-z0-9_]] *)
Definition is_word (c : char) : bool :=
  ((65 <=? c) && (c <=? 90) || (97 <=? c) && (c <=? 122)
   || (48 <=? c) && (c <=? 57) || (c =? 95))%N.

Fixpoint skip_spaces (s : str) : str :=
  match s with
  | c :: s' => if is_space c then skip_spaces s' else s
  | [] => []
  end.

Fixpoint take_word (s : str) : str :=
  match s with
  | c :: s' => if is_word c then c :: take_word s' else []
  | [] => []
  end.

(** [re.match(r"^\s*DEF\(", l)], as a test; on success the text after the
    parenthesis is returned. *)
Definition match_DEF (l : str) : option str :=
  let s := skip_spaces l in
  if starts_with (lit "DEF(") s then Some (drop 4 s) else None.

(** [re.match(r"^\s*#", l)] *)
Definition match_directive (l : str) : bool :=
  starts_with (lit "#") (skip_spaces l).

(** [DEF_RE = ^\s*DEF\(\s*([A-Za-z0-9_]+)]: the two classes of a repetition
    and of what follows it are disjoint, so the greedy match never
    backtracks. *)
Definition extract_opcode (line : str) : option str :=
  match match_DEF line with
  | Some rest =>
      match take_word (skip_spaces rest) with
      | [] => None
      | name => Some name
      end
  | None => None
  end.

(** [enumerate(lines)], counting from [k]. *)
Fixpoint enumerate_from {A} (k : nat) (l : list A) : list (nat * A) :=
  match l with
  | [] => []
  | x :: l' => (k, x) :: enumerate_from (S k) l'
  end.
Definition enumerate {A} (l : list A) : list (nat * A) := enumerate_from 0 l.

(** The dict comprehension of [opcode_index]: a later line of the same name
    replaces the earlier one. *)
Definition opcode_index (lines : list str) : gmap (list N) nat :=
  foldl (fun m p => match extract_opcode p.2 with
                    | Some op => <[op := p.1]> m
                    | None => m
                    end) ∅ (enumerate lines).

(** An entry of a group's ["targets"]: a name to shuffle or a block of names
    to relocate together. *)
Inductive target := Op (op : str) | Block (ops : list str).

(** A group.  The sets ["ccb"] and ["cca"] are listed in the order of the
    source, their iteration order being unspecified; a group without them
    has them empty, as [group.get("cca", set())] gives. *)
Record group := {
  name : string;
  targets : list target;
  reorder_list : list str;
  ccb : list str;
  cca : list str;
  reorder_prob : Q
}.

Definition GROUP_GENERAL : group :=
  {| name := "GENERAL";
     targets :=
    [
      Op (lit "push_i32"); Op (lit "push_atom_value");
      Op (lit "private_symbol"); Op (lit "undefined"); Op (lit "null");
      Op (lit "push_this"); Op (lit "push_false"); Op (lit "push_true");
      Op (lit "object"); Op (lit "special_object"); Op (lit "rest");
      Op (lit "sub"); Op (lit "mod"); Op (lit "nip1"); Op (lit "dup");
      Op (lit "dup1"); Op (lit "dup2"); Op (lit "dup3"); Op (lit "insert2");
      Op (lit "insert3"); Op (lit "insert4"); Op (lit "perm3");
      Op (lit "perm4"); Op (lit "perm5"); Op (lit "swap"); Op (lit "swap2");
      Op (lit "rot3l"); Op (lit "rot3r"); Op (lit "rot4l"); Op (lit "rot5l");
      Op (lit "apply"); Op (lit "return"); Op (lit "return_undef");
      Op (lit "check_ctor_return"); Op (lit "check_ctor");
      Op (lit "check_brand"); Op (lit "add_brand"); Op (lit "return_async");
      Op (lit "throw"); Op (lit "throw_error"); Op (lit "eval");
      Op (lit "apply_eval"); Op (lit "regexp"); Op (lit "get_super");
      Op (lit "import"); Op (lit "get_ref_value"); Op (lit "put_ref_value");
      Op (lit "define_var");
      Block [lit "check_define_var"; lit "define_func"; lit "get_field"; lit "get_field2"; lit "put_field"; lit "get_private_field"];
      Block [lit "put_private_field"; lit "define_private_field"; lit "get_array_el"; lit "get_array_el2"; lit "put_array_el"; lit "get_super_value"];
      Block [lit "put_super_value"; lit "define_field"; lit "set_name"; lit "set_name_computed"; lit "set_proto"; lit "set_home_object"];
      Block [lit "define_array_el"; lit "append"; lit "copy_data_properties"; lit "define_class_computed"; lit "to_object"; lit "to_propkey"];
      Block [lit "post_dec"; lit "post_inc"]; Op (lit "dec_loc");
      Op (lit "inc_loc"); Op (lit "add_loc"); Op (lit "not");
      Op (lit "lnot"); Op (lit "typeof"); Op (lit "delete");
      Op (lit "delete_var"); Op (lit "drop"); Op (lit "nip"); Op (lit "add");
      Op (lit "div"); Op (lit "mul"); Op (lit "pow"); Op (lit "shl");
      Op (lit "sar"); Op (lit "shr"); Op (lit "lt"); Op (lit "lte");
      Op (lit "gt"); Op (lit "gte"); Op (lit "instanceof"); Op (lit "in");
      Op (lit "eq"); Op (lit "neq"); Op (lit "strict_eq");
      Op (lit "strict_neq"); Op (lit "and"); Op (lit "xor"); Op (lit "or");
      Op (lit "is_undefined_or_null"); Op (lit "private_in")
    ];
     reorder_list := [];
     ccb := [lit "push_const"; lit "call_constructor"; lit "check_var"; lit "get_loc"; lit "if_false"; lit "with_get_var"];
     cca := [lit "fclosure"; lit "array_from"; lit "put_var_strict"; lit "set_var_ref"; lit "nip_catch"; lit "put_var_ref_check_init"; lit "with_get_ref_undef"];
     reorder_prob := 6034823500676465 # 9007199254740992 (* 0.67 *) |}.

Definition GROUP_CONFIG_BIGNUM : group :=
  {| name := "CONFIG_BIGNUM";
     targets :=
    [
      Op (lit "mul_pow10"); Op (lit "math_mod")
    ];
     reorder_list := [];
     ccb := [];
     cca := [];
     reorder_prob := 0 # 1 (* 0.0 *) |}.

Definition GROUP_SHORT_OPCODES : group :=
  {| name := "SHORT_OPCODES";
     targets :=
    [
      Block [lit "push_minus1"; lit "push_0"; lit "push_1"; lit "push_2"; lit "push_3"; lit "push_4"; lit "push_5"; lit "push_6"; lit "push_7"];
      Block [lit "get_loc8"; lit "put_loc8"; lit "set_loc8"];
      Block [lit "get_loc0"; lit "get_loc1"; lit "get_loc2"; lit "get_loc3"];
      Block [lit "put_loc0"; lit "put_loc1"; lit "put_loc2"; lit "put_loc3"];
      Block [lit "set_loc0"; lit "set_loc1"; lit "set_loc2"; lit "set_loc3"];
      Block [lit "get_arg0"; lit "get_arg1"; lit "get_arg2"; lit "get_arg3"];
      Block [lit "put_arg0"; lit "put_arg1"; lit "put_arg2"; lit "put_arg3"];
      Block [lit "set_arg0"; lit "set_arg1"; lit "set_arg2"; lit "set_arg3"];
      Block [lit "get_var_ref0"; lit "get_var_ref1"; lit "get_var_ref2"; lit "get_var_ref3"];
      Block [lit "put_var_ref0"; lit "put_var_ref1"; lit "put_var_ref2"; lit "put_var_ref3"];
      Block [lit "set_var_ref0"; lit "set_var_ref1"; lit "set_var_ref2"; lit "set_var_ref3"];
      Op (lit "get_length"); Op (lit "goto16");
      Block [lit "call0"; lit "call1"; lit "call2"; lit "call3"];
      Op (lit "is_undefined"); Op (lit "is_null");
      Op (lit "typeof_is_undefined"); Op (lit "typeof_is_function")
    ];
     reorder_list := [];
     ccb := [lit "if_false8"; lit "push_const8"];
     cca := [lit "goto8"; lit "fclosure8"];
     reorder_prob := 3602879701896397 # 9007199254740992 (* 0.4 *) |}.

Definition GROUPS : list group := [GROUP_GENERAL; GROUP_CONFIG_BIGNUM; GROUP_SHORT_OPCODES].

Definition normal_targets (g : group) : list str :=
  omap (fun t => match t with Op op => Some op | Block _ => None end) (targets g).
Definition relocate_blocks (g : group) : list (list str) :=
  omap (fun t => match t with Block ops => Some ops | Op _ => None end) (targets g).

(** [extract_opcode(line) in names] *)
Definition opcode_in (names : list str) (line : str) : bool :=
  match extract_opcode line with
  | Some op => bool_decide (op ∈ names)
  | None => false
  end.

(** [lines[idx] = new_line] *)
Definition store {A} (idx : nat) (x : A) (l : list A) : option (list A) :=
  if decide (idx < length l)%nat then Some (<[idx := x]> l) else None.

(** [for idx, new_line in zip(positions, bucket): lines[idx] = new_line] *)
Fixpoint store_each {A} (ws : list (nat * A)) (lines : list A) : option (list A) :=
  match ws with
  | [] => Some lines
  | (idx, x) :: ws' =>
      match store idx x lines with
      | Some lines' => store_each ws' lines'
      | None => None
      end
  end.

(** The shuffle of the targets that are plain names: the lines of these
    names keep their positions and exchange their contents. *)
Definition flat_shuffle (names : list str) (lines : list str) : rand (list str) :=
  let targets := filter (fun p => opcode_in names p.2) (enumerate lines) in
  let bucket := targets.*2 in
  let* bucket := shuffle bucket in
  lift (store_each (zip (targets.*1) bucket) lines).

(** [lines.pop(i)] for an index that is not negative. *)
Definition pop {A} (i : nat) (l : list A) : option (A * list A) :=
  match l !! i with
  | Some x => Some (x, delete i l)
  | None => None
  end.

(** [lines.insert(i, x)] for an index that is not negative. *)
Definition insert_at {A} (i : nat) (x : A) (l : list A) : list A :=
  take i l ++ x :: drop i l.

(** The indices of the anchors that are in the table, each moved by
    [shift]. *)
Definition anchors_of (idx_map : gmap (list N) nat) (shift : Z) (ops : list str)
  : list Z :=
  omap (fun a => (fun i => Z.of_nat i + shift) <$> idx_map !! a) ops.

(** One turn of the loop over ["reorder_list"]; [fallback] is
    [fallback_shuffle_ops]. *)
Definition reorder_step (g : group) (st : list str * list str) (op : str)
  : rand (list str * list str) :=
  let '(lines, fallback) := st in
  let* r := random in
  if Qle_bool r (reorder_prob g) then
    let idx_map := opcode_index lines in
    match idx_map !! op with
    | None => ret (lines, fallback)
    | Some cur_idx =>
        let* '(line, lines) := lift (pop cur_idx lines) in
        let anchors := anchors_of idx_map 0 (cca g) ++ anchors_of idx_map (-1) (ccb g) in
        let* insert_at_ :=
          match anchors with
          | [] => ret (Z.of_nat cur_idx)
          | _ => choice anchors
          end in
        let insert_at_ := Z.max 0 (Z.min insert_at_ (Z.of_nat (length lines))) in
        ret (insert_at (Z.to_nat insert_at_) line lines, fallback)
    end
  else ret (lines, fallback ++ [op]).

(** [for x in xs: st = f(st, x)] *)
Fixpoint for_each {S X} (f : S -> X -> rand S) (st : S) (xs : list X) : rand S :=
  match xs with
  | [] => ret st
  | x :: xs' => let* st := f st x in for_each f st xs'
  end.

(** The fallback shuffle, written in the source with positions in place of
    pairs. *)
Definition fallback_shuffle (names : list str) (lines : list str) : rand (list str) :=
  let fallback_positions :=
    (filter (fun p => opcode_in names p.2) (enumerate lines)).*1 in
  let* fallback_bucket := lift (mapM (fun i => lines !! i) fallback_positions) in
  let* fallback_bucket := shuffle fallback_bucket in
  lift (store_each (zip fallback_positions fallback_bucket) lines).

(** [for i in sorted(block_indices, reverse=True): lines.pop(i)] *)
Fixpoint pop_each {A} (idxs : list nat) (lines : list A) : option (list A) :=
  match idxs with
  | [] => Some lines
  | i :: idxs' =>
      match pop i lines with
      | Some (_, lines') => pop_each idxs' lines'
      | None => None
      end
  end.

(** The order of [sorted(..., reverse=True)]. *)
Definition descending (x y : nat) : Prop := (y <= x)%nat.
#[global] Instance descending_dec : RelDecision descending :=
  fun x y => decide (y <= x)%nat.

(** One turn of the loop over the blocks to relocate. *)
Definition relocate_step (g : group) (lines : list str) (block : list str)
  : rand (list str) :=
  let idx_map := opcode_index lines in
  let block_indices := omap (fun op => idx_map !! op) block in
  let* block_lines := lift (mapM (fun i => lines !! i) block_indices) in
  let* lines := lift (pop_each (merge_sort descending block_indices) lines) in
  let idx_map := opcode_index lines in
  let anchors := anchors_of idx_map 1 (cca g) ++ anchors_of idx_map 0 (ccb g) in
  let* insert_at_ :=
    match anchors with
    | [] => randint 0 (Z.of_nat (length lines))
    | _ => choice anchors
    end in
  ret (slice_to lines insert_at_ ++ block_lines ++ slice_from lines insert_at_).

(** The body of [for group in GROUPS]. *)
Definition process_group (lines : list str) (g : group) : rand (list str) :=
  let* lines := flat_shuffle (normal_targets g) lines in
  let* '(lines, fallback_shuffle_ops) :=
    for_each (reorder_step g) (lines, []) (reorder_list g) in
  let* lines := fallback_shuffle fallback_shuffle_ops lines in
  for_each (relocate_step g) lines (relocate_blocks g).

(** [l.rstrip("\n")] *)
Fixpoint rstrip_nl (l : str) : str :=
  match l with
  | [] => []
  | c :: l' =>
      match rstrip_nl l' with
      | [] => if (c =? 10)%N then [] else [c]
      | r => c :: r
      end
  end.

(** One turn of the loop of [fix_multiline_trailing_comments]: the lines
    appended to [fixed] and the new [inside_comment]. *)
Definition fix_step (inside_comment : bool) (line : str) : list str * bool :=
  let l := rstrip_nl line in
  let l := if contains (lit "*/") l && negb (contains (lit "/*") l)
              && negb inside_comment
           then lit "/* " ++ l else l in
  let closes := inside_comment && (bool_decide (is_Some (match_DEF l))
                                   || match_directive l) in
  let inside_comment := if closes then false else inside_comment in
  let inside_comment :=
    if contains (lit "/*") l && negb (contains (lit "*/") l) then true
    else inside_comment in
  let inside_comment := if contains (lit "*/") l then false else inside_comment in
  ((if closes then [lit (" */" +:+ nl)] else []) ++ [l ++ lit nl], inside_comment).

Fixpoint fix_loop (inside_comment : bool) (lines : list str) : list str * bool :=
  match lines with
  | [] => ([], inside_comment)
  | line :: lines' =>
      let '(out, inside_comment) := fix_step inside_comment line in
      let '(fixed, inside_comment) := fix_loop inside_comment lines' in
      (out ++ fixed, inside_comment)
  end.

Definition fix_multiline_trailing_comments (lines : list str) : list str :=
  let '(fixed, inside_comment) := fix_loop false lines in
  if inside_comment then fixed ++ [lit (" */" +:+ nl)] else fixed.

(** [f.readlines()] on the decoded content of the file, opened in text mode:
    the line ends are turned into LF and a line ends at each of them.
    [f.writelines(lines)] writes the lines one after the other. *)
Fixpoint readlines_from (cur text : str) : list str :=
  match text with
  | [] => match cur with [] => [] | _ => [cur] end
  | c :: text' =>
      if (c =? 10)%N then (cur ++ [c]) :: readlines_from [] text'
      else readlines_from (cur ++ [c]) text'
  end.
Definition readlines (text : str) : list str :=
  readlines_from [] (universal_newlines text).
Definition writelines (lines : list str) : str := concat lines.

(** The script from the lines read to the lines written. *)
Definition run (lines : list str) : rand (list str) :=
  let* lines := for_each process_group lines GROUPS in
  ret (fix_multiline_trailing_comments lines).

End Shuffler.

(** ** hashlib: SHA-256 and SHA-512 (FIPS 180-4) *)

Module Hashlib.

(** The two functions differ in their word size, their constants and their
    rotation amounts only. *)
Record sha2 := {
  word_bits : Z;
  initial_hash : list Z;
  round_constants : list Z;
  Sigma0 : Z * Z * Z;
  Sigma1 : Z * Z * Z;
  sigma0 : Z * Z * Z;
  sigma1 : Z * Z * Z
}.

(** The constants are the first bits of the fractional parts of the square
    roots (initial hash) and of the cube roots (round constants) of the
    first primes. *)
Definition is_prime (n : Z) : bool :=
  forallb (fun d => negb (n mod d =? 0)) (Z.of_nat <$> seq 2 (Z.to_nat n - 2)).

Definition primes : list Z :=
  Eval vm_compute in List.filter is_prime (Z.of_nat <$> seq 2 408).

(** The integer cube root of [n], built from bit [k - 1] down. *)
Fixpoint cube_root_bits (k : nat) (n r : Z) : Z :=
  match k with
  | O => r
  | S k' =>
      let c := r + 2 ^ Z.of_nat k' in
      cube_root_bits k' n (if c * c * c <=? n then c else r)
  end.

Definition frac_sqrt (bits p : Z) : Z :=
  Z.sqrt (Z.shiftl p (2 * bits)) mod 2 ^ bits.
Definition frac_cbrt (bits p : Z) : Z :=
  cube_root_bits (Z.to_nat (bits + 3)) (Z.shiftl p (3 * bits)) 0 mod 2 ^ bits.

Definition H256 : list Z := Eval vm_compute in frac_sqrt 32 <$> take 8 primes.
Definition K256 : list Z := Eval vm_compute in frac_cbrt 32 <$> take 64 primes.
Definition H512 : list Z := Eval vm_compute in frac_sqrt 64 <$> take 8 primes.
Definition K512 : list Z := Eval vm_compute in frac_cbrt 64 <$> take 80 primes.

Definition SHA256 : sha2 :=
  {| word_bits := 32; initial_hash := H256; round_constants := K256;
     Sigma0 := (2, 13, 22); Sigma1 := (6, 11, 25);
     sigma0 := (7, 18, 3); sigma1 := (17, 19, 10) |}.

Definition SHA512 : sha2 :=
  {| word_bits := 64; initial_hash := H512; round_constants := K512;
     Sigma0 := (28, 34, 39); Sigma1 := (14, 18, 41);
     sigma0 := (1, 8, 7); sigma1 := (19, 61, 6) |}.

Section SHA2.

Variable alg : sha2.

(** Reduction to a word. *)
Definition wrap (x : Z) : Z := Z.land x (Z.ones (word_bits alg)).

Definition rotr (n x : Z) : Z :=
  Z.lor (Z.shiftr x n) (wrap (Z.shiftl x (word_bits alg - n))).

Definition rot3 (r : Z * Z * Z) (x : Z) : Z :=
  let '(a, b, c) := r in Z.lxor (rotr a x) (Z.lxor (rotr b x) (rotr c x)).

Definition rot2_shift (r : Z * Z * Z) (x : Z) : Z :=
  let '(a, b, c) := r in Z.lxor (rotr a x) (Z.lxor (rotr b x) (Z.shiftr x c)).

Definition Ch (x y z : Z) : Z :=
  Z.lxor (Z.land x y) (Z.land (wrap (Z.lnot x)) z).

Definition Maj (x y z : Z) : Z :=
  Z.lxor (Z.land x y) (Z.lxor (Z.land x z) (Z.land y z)).

(** Big-endian bytes of a word, and back. *)
Fixpoint be_bytes (n : nat) (x : Z) : list Z :=
  match n with
  | O => []
  | S n' => be_bytes n' (x / 256) ++ [x mod 256]
  end.

Definition be_word (bs : list Z) : Z := foldl (fun acc b => acc * 256 + b) 0 bs.

Definition word_bytes : nat := Z.to_nat (word_bits alg / 8).
Definition block_bytes : nat := (16 * word_bytes)%nat.

(** The message, a byte [0x80], zeros up to a whole number of blocks, and
    the length in bits on two words. *)
Definition pad (msg : list Z) : list Z :=
  let used := (length msg + 1 + 2 * word_bytes)%nat in
  let zeros := ((block_bytes - used mod block_bytes) mod block_bytes)%nat in
  msg ++ [128] ++ replicate zeros 0
      ++ be_bytes (2 * word_bytes) (8 * Z.of_nat (length msg)).

Fixpoint chunks {A} (fuel n : nat) (l : list A) : list (list A) :=
  match fuel, l with
  | O, _ | _, [] => []
  | S fuel', _ => take n l :: chunks fuel' n (drop n l)
  end.

(** The message schedule, newest word first. *)
Fixpoint extend_schedule (k : nat) (ws : list Z) : list Z :=
  match k with
  | O => ws
  | S k' =>
      let w := wrap (rot2_shift (sigma1 alg) (nth 1 ws 0) + nth 6 ws 0
                     + rot2_shift (sigma0 alg) (nth 14 ws 0) + nth 15 ws 0) in
      extend_schedule k' (w :: ws)
  end.

Definition schedule (block : list Z) : list Z :=
  let w16 := be_word <$> chunks 16 word_bytes block in
  reverse (extend_schedule (length (round_constants alg) - 16) (reverse w16)).

Definition registers : Type := Z * Z * Z * Z * Z * Z * Z * Z.

Definition round (st : registers) (kw : Z * Z) : registers :=
  let '(a, b, c, d, e, f, g, h) := st in
  let t1 := wrap (h + rot3 (Sigma1 alg) e + Ch e f g + kw.1 + kw.2) in
  let t2 := wrap (rot3 (Sigma0 alg) a + Maj a b c) in
  (wrap (t1 + t2), a, b, c, wrap (d + t1), e, f, g).

Definition compress (st : registers) (block : list Z) : registers :=
  let '(a, b, c, d, e, f, g, h) := st in
  let '(a', b', c', d', e', f', g', h') :=
    foldl round st (zip (round_constants alg) (schedule block)) in
  (wrap (a + a'), wrap (b + b'), wrap (c + c'), wrap (d + d'),
   wrap (e + e'), wrap (f + f'), wrap (g + g'), wrap (h + h')).

Definition initial_registers : registers :=
  let h i := nth i (initial_hash alg) 0 in
  (h 0%nat, h 1%nat, h 2%nat, h 3%nat, h 4%nat, h 5%nat, h 6%nat, h 7%nat).

(** [hashlib.<alg>(msg).digest()] *)
Definition digest (msg : list Z) : list Z :=
  let padded := pad msg in
  let '(a, b, c, d, e, f, g, h) :=
    foldl compress initial_registers
      (chunks (length padded) block_bytes padded) in
  concat (be_bytes word_bytes <$> [a; b; c; d; e; f; g; h]).

End SHA2.

Definition sha256 : list Z -> list Z := digest SHA256.
Definition sha512 : list Z -> list Z := digest SHA512.

(** [bytes.fromhex(s)] and the bytes of an ASCII literal, for the test
    vectors. *)
Definition ascii_bytes (s : string) : list Z :=
  (fun a => Z.of_N (N_of_ascii a)) <$> list_ascii_of_string s.

Definition hex_digit (a : ascii) : Z :=
  let n := Z.of_N (N_of_ascii a) in
  if n <? 58 then n - 48 else n - 87.

Fixpoint fromhex_list (l : list ascii) : list Z :=
  match l with
  | a :: b :: l' => (16 * hex_digit a + hex_digit b) :: fromhex_list l'
  | _ => []
  end.
Definition fromhex (s : string) : list Z := fromhex_list (list_ascii_of_string s).

End Hashlib.

(** ** frida_builder.py: generate_stuff_h *)

Module Deriver.
Import Rand Hashlib.

(** [i % n] on indices: a [ZeroDivisionError] when [n] is zero. *)
Definition py_mod (i n : nat) : option nat :=
  match n with
  | O => None
  | _ => Some (i mod n)%nat
  end.

(** The comprehension of the mixing round [r]: every byte of the state is
    combined with a byte of the noise, a byte of the key and the round. *)
Fixpoint mix_bytes (rnd_noise key_bytes : list Z) (r : Z) (i : nat) (state : list Z)
  : option (list Z) :=
  match state with
  | [] => Some []
  | b :: state' =>
      match py_mod i (length rnd_noise), py_mod i (length key_bytes) with
      | Some in_, Some ik =>
          match rnd_noise !! in_, key_bytes !! ik, mix_bytes rnd_noise key_bytes r (S i) state' with
          | Some n, Some k, Some mix =>
              Some (Z.land (Z.lxor (Z.lxor (Z.lxor b n) k) r) 255 :: mix)
          | _, _, _ => None
          end
      | _, _ => None
      end
  end.

(** [for r in range(rounds)], entered with [r = 0] and [todo = rounds]. *)
Fixpoint mix_rounds (key_bytes : list Z) (todo : nat) (r : Z) (state : list Z)
  : rand (list Z) :=
  match todo with
  | O => ret state
  | S todo' =>
      let* rnd_noise := token_bytes 32 in
      let* mix := lift (mix_bytes rnd_noise key_bytes r 0 state) in
      let* t16 := token_bytes 16 in
      let state := sha512 (mix ++ t16) in
      let* t8 := token_bytes 8 in
      let state := state ++ sha256 (state ++ t8) in
      mix_rounds key_bytes todo' (r + 1) state
  end.

(** [for _ in range(len(state)//2)]: the length of the state is fixed before
    the loop. *)
Fixpoint scramble (todo : nat) (state : list Z) : rand (list Z) :=
  match todo with
  | O => ret state
  | S todo' =>
      let* i := randbelow (Z.of_nat (length state)) in
      let* j := randbelow (Z.of_nat (length state)) in
      let* state := lift (swap state (Z.to_nat i) (Z.to_nat j)) in
      scramble todo' state
  end.

(** [while len(final) < out_len]; the loop running out of [fuel] stands for
    one that does not end. *)
Fixpoint stretch (fuel : nat) (state final : list Z) (out_len : Z) : rand (list Z) :=
  if Z.of_nat (length final) <? out_len then
    match fuel with
    | O => raise
    | S fuel' =>
        let* t32 := token_bytes 32 in
        stretch fuel' state (final ++ sha512 (state ++ t32)) out_len
    end
  else ret final.

(** The closure [prng_byte] over [prng_state] and [prng_idx]. *)
Definition prng := (list Z * nat)%type.

Definition prng_byte (p : prng) : rand (Z * prng) :=
  let '(prng_state, prng_idx) := p in
  let* '(prng_state, prng_idx) :=
    if (length prng_state <=? prng_idx)%nat then
      let* t32 := token_bytes 32 in ret (sha512 (prng_state ++ t32), 0%nat)
    else ret (prng_state, prng_idx) in
  let* b := lift (prng_state !! prng_idx) in
  ret (b, (prng_state, S prng_idx)).

(** [for i in range(255, 0, -1)], entered with [i = 255]. *)
Fixpoint fisher_yates_pass (i : nat) (p : prng) (sbox : list Z) : rand (prng * list Z) :=
  match i with
  | O => ret (p, sbox)
  | S i' =>
      let* '(b, p) := prng_byte p in
      let j := b mod (Z.of_nat i + 1) in
      let* sbox := lift (swap sbox i (Z.to_nat j)) in
      fisher_yates_pass i' p sbox
  end.

(** [bytes(l)]: a [ValueError] unless every element is in [range(256)]. *)
Definition bytes_of (l : list Z) : option (list Z) :=
  if forallb (fun b => (0 <=? b) && (b <? 256)) l then Some l else None.

(** [r.to_bytes(1, "little")]: an [OverflowError] unless [r] fits a byte. *)
Definition to_byte (r : Z) : option (list Z) :=
  if (0 <=? r) && (r <? 256) then Some [r] else None.

(** [for r in range(rounds)] of the substitution box, entered with [r = 0]
    and [todo = rounds]. *)
Fixpoint sbox_rounds (todo : nat) (r : Z) (p : prng) (sbox : list Z)
  : rand (prng * list Z) :=
  match todo with
  | O => ret (p, sbox)
  | S todo' =>
      let* '(p, sbox) := fisher_yates_pass 255 p sbox in
      let* head := lift (bytes_of (take 64 sbox)) in
      let* rb := lift (to_byte r) in
      let prng_state := sha512 (p.1 ++ head ++ rb) in
      sbox_rounds todo' (r + 1) (prng_state, 0%nat) sbox
  end.

(** What a derivation yields: [final] and [sbox], which go into the header,
    and the value of the second [rounds], the number of Fisher-Yates
    passes. *)
Record derivation := {
  final : list Z;
  sbox : list Z;
  rounds : Z
}.

(** The body of [generate_stuff_h] from [key_bytes] on, without the
    formatting of the header. *)
Definition derive (key_bytes : list Z) : rand derivation :=
  let* n := randbelow 96 in
  let out_len := n + 64 in
  let* n := randbelow 32 in
  let* salt := token_bytes (Z.to_nat (n + 64)) in
  let* n := randbelow 48 in
  let* noise := token_bytes (Z.to_nat (n + 86)) in
  let state := sha256 (key_bytes ++ salt) ++ sha512 (reverse key_bytes ++ noise) in
  let* n := randbelow 7 in
  let rounds := n + 6 in
  let* state := mix_rounds key_bytes (Z.to_nat rounds) 0 state in
  let* state := scramble (length state / 2) state in
  let* final := stretch (Z.to_nat out_len) state [] out_len in
  let final := slice_to final out_len in
  let sbox := Z.of_nat <$> seq 0 256 in
  let* t64 := token_bytes 64 in
  let sbox_entropy := state ++ t64 ++ sha256 final ++ sha512 key_bytes in
  let prng_state := sha512 sbox_entropy in
  let prng_idx := 0%nat in
  let* b0 := lift (prng_state !! 0%nat) in
  let rounds := 5 + Z.land b0 7 in
  let* '(_, sbox) := sbox_rounds (Z.to_nat rounds) 0 (prng_state, prng_idx) sbox in
  ret {| final := final; sbox := sbox; rounds := rounds |}.

(** How a call of [generate_stuff_h] ends. *)
Inductive outcome :=
| Skipped
| Died (msg : string)
| Written (d : derivation).

(** [generate_stuff_h] from the encoded passphrase to the derivation: [key]
    is [atoms.get("custom_encryption_key")], held as the bytes that
    [key.encode("utf-8")] gives; [quickjs_dir_exists] and [confirmed] are the
    answers of the file system and of the user.  The call on the
    configuration, in which the encoding can fail and the header is
    formatted and written, is [Stuff.generate_stuff_h]. *)
Definition generate_stuff_h (key : option string)
    (quickjs_dir_exists confirmed : bool) : rand outcome :=
  match key with
  | None | Some EmptyString => ret Skipped
  | Some key =>
      if negb quickjs_dir_exists then ret (Died "QuickJS directory not found")
      else if negb confirmed then ret Skipped
      else
        let key_bytes := ascii_bytes key in
        let* d := derive key_bytes in
        ret (Written d)
  end.

End Deriver.

(** ** frida_builder.py: the QuickJS dependency of meson.build *)

Module Setup.
Import Patcher.

Definition QUICKJS_REPLACEMENT : str :=
  lit (unlines
    [ "  # _PATCHED_";
      "  cdata.set('HAVE_QUICKJS', 1)";
      "  quickjs_sp = subproject('quickjs',";
      "      default_options: quickjs_options";
      "  )";
      "  quickjs_dep = quickjs_sp.get_variable('quickjs_dep')";
      EmptyString;
      "  quickjs_native_sp = subproject('quickjs',";
      "      native: true,";
      "      default_options: quickjs_options";
      "  )";
      "  quickjs_dep_native = quickjs_native_sp.get_variable('quickjs_dep')";
      EmptyString;
      "  gumjs_extra_requires += 'quickjs'";
      "  # _PATCHED_" ]).

(** The line boundaries of [str.splitlines]. *)
Definition is_linebreak (c : char) : bool :=
  ((c =? 10) || (c =? 11) || (c =? 12) || (c =? 13) || (c =? 28) || (c =? 29)
   || (c =? 30) || (c =? 133) || (c =? 8232) || (c =? 8233))%N.

(** [text.splitlines()]: the lines without their boundaries, a carriage
    return followed by a newline being one boundary; [cur] is the line read
    so far. *)
Fixpoint splitlines_from (cur text : str) : list str :=
  match text with
  | [] => match cur with [] => [] | _ => [cur] end
  | c :: text' =>
      if is_linebreak c then
        cur :: match text' with
               | d :: text'' =>
                   if ((c =? 13) && (d =? 10))%N then splitlines_from [] text''
                   else splitlines_from [] text'
               | [] => []
               end
      else splitlines_from (cur ++ [c]) text'
  end.
Definition splitlines (text : str) : list str := splitlines_from [] text.

(** [line.strip()]: without the white space at both ends. *)
Definition lstrip (s : str) : str := Shuffler.skip_spaces s.
Definition rstrip (s : str) : str := reverse (Shuffler.skip_spaces (reverse s)).
Definition strip (s : str) : str := rstrip (lstrip s).

(** [sep.join(parts)] *)
Fixpoint join (sep : str) (parts : list str) : str :=
  match parts with
  | [] => []
  | [p] => p
  | p :: rest => p ++ sep ++ join sep rest
  end.

(** The file of [fs] is [subprojects/frida-gum/meson.build]. *)
Definition is_meson_already_patched : prog bool :=
  let* text := read_text in
  ret (contains (lit "# _PATCHED_") text).

(** The loop of [patch_meson_build] over the lines. *)
Fixpoint replace_block (lines : list str) (skip found : bool)
    (new_lines : list str) : list str * bool :=
  match lines with
  | [] => (new_lines, found)
  | line :: lines' =>
      if contains (lit "quickjs_dep = dependency('quickjs'") line then
        replace_block lines' true true new_lines
      else if skip && bool_decide (strip line = lit "endif") then
        replace_block lines' false found (new_lines ++ [QUICKJS_REPLACEMENT])
      else if negb skip then
        replace_block lines' skip found (new_lines ++ [line])
      else replace_block lines' skip found new_lines
  end.

Definition patch_meson_build : prog unit :=
  let* present := exists_file in
  if negb present then die "Meson build file not found" else
  let* patched := is_meson_already_patched in
  if patched then ret tt else
  let* text := read_text in
  let lines := splitlines text in
  let '(new_lines, found) := replace_block lines false false [] in
  if negb found then die "Failed to find QuickJS dependency block" else
  write_text (join (lit nl) new_lines ++ lit nl).

(** [safe_filter] of [setup_quickjs], on the name of the member: [None]
    leaves the member out of the extraction. *)
Definition safe_filter (name : str) : option str :=
  if starts_with (lit "/") name || contains (lit "..") name then None
  else Some name.

End Setup.

(** ** frida_builder.py: the configuration *)

Module Config.

(** A value that [json.load] returns.  A string is a [str], which may hold
    lone surrogates (the escape [\ud800] is read as one); an object is held
    as its members in some order, the keys as their bytes; a number with a
    fraction or an exponent is a floating-point number. *)
#[warnings="-register-all"]
Inductive json :=
| JNull
| JBool (b : bool)
| JInt (n : Z)
| JFloat (x : spec_float)
| JStr (s : str)
| JList (l : list json)
| JDict (d : list (string * json)).

(** How a function of the builder ends: it returns, it stops in [die] with a
    message, or it raises an exception. *)
Inductive result (A : Type) :=
| Done (a : A)
| Died (msg : string)
| Raised (exc : string).
Arguments Done {A} a.
Arguments Died {A} msg.
Arguments Raised {A} exc.

Definition bind {A B} (m : result A) (k : A -> result B) : result B :=
  match m with
  | Done a => k a
  | Died msg => Died msg
  | Raised exc => Raised exc
  end.

Notation "'let*' x := m 'in' k" := (bind m (fun x => k))
  (at level 10, x name, m at level 100, k at level 200).

(** The member of an object for a key. *)
Fixpoint member (k : string) (d : list (string * json)) : option json :=
  match d with
  | [] => None
  | (k', v) :: d' => if String.eqb k' k then Some v else member k d'
  end.

(** [k in v], for a string [k]: a key of an object, an element of an array,
    a stretch of a string. *)
Definition py_in (k : string) (v : json) : result bool :=
  match v with
  | JDict d => Done (bool_decide (is_Some (member k d)))
  | JList l =>
      Done (existsb (fun e => match e with
                              | JStr s => bool_decide (s = lit k)
                              | _ => false
                              end) l)
  | JStr s => Done (contains (lit k) s)
  | _ => Raised "TypeError"
  end.

(** [v[k]], for a string [k]. *)
Definition py_item (v : json) (k : string) : result json :=
  match v with
  | JDict d =>
      match member k d with
      | Some x => Done x
      | None => Raised "KeyError"
      end
  | _ => Raised "TypeError"
  end.

(** [v.get(k, default)] *)
Definition py_get (v : json) (k : string) (default : json) : result json :=
  match v with
  | JDict d => Done (match member k d with Some x => x | None => default end)
  | _ => Raised "AttributeError"
  end.

(** The truth value of a value, as [if] and [not] take it. *)
Definition truthy (v : json) : bool :=
  match v with
  | JNull => false
  | JBool b => b
  | JInt n => negb (n =? 0)
  | JFloat (S754_zero _) => false
  | JFloat _ => true
  | JStr s => match s with [] => false | _ => true end
  | JList l => match l with [] => false | _ => true end
  | JDict d => match d with [] => false | _ => true end
  end.

(** The types of the tables of keys and [isinstance]. *)
Inductive pytype := Tstr | Tdict | Tbool.

Definition isinstance (v : json) (t : pytype) : bool :=
  match t, v with
  | Tstr, JStr _ => true
  | Tdict, JDict _ => true
  | Tbool, JBool _ => true
  | _, _ => false
  end.

Definition REQUIRED_KEYS : list (string * pytype) :=
  [("frida_version", Tstr); ("compile", Tdict); ("output_dir", Tstr);
   ("options", Tdict)].
Definition COMPILE_KEYS : list (string * pytype) :=
  [("server", Tbool); ("gadget", Tbool); ("tools", Tbool); ("python", Tbool);
   ("portal", Tbool)].
Definition OPTION_KEYS : list (string * pytype) := [("disable_v8", Tbool)].
Definition ATOM_KEYS : list (string * pytype) := [("custom_encryption_key", Tstr)].

(** [for k, t in keys.items(): if k not in c or not isinstance(c[k], t):
    die(prefix + k)], the expression [c] being evaluated at each use. *)
Fixpoint require_keys (prefix : string) (keys : list (string * pytype))
    (c : result json) : result unit :=
  match keys with
  | [] => Done tt
  | (k, t) :: keys' =>
      let* v := c in
      let* present := py_in k v in
      let* bad :=
        if negb present then Done true
        else
          let* v := c in
          let* x := py_item v k in
          Done (negb (isinstance x t)) in
      if bad then Died (prefix +:+ k) else require_keys prefix keys' c
  end.

(** [for k, t in keys.items(): if k in c and not isinstance(c[k], t):
    die(prefix + k)] *)
Fixpoint allow_keys (prefix : string) (keys : list (string * pytype))
    (c : result json) : result unit :=
  match keys with
  | [] => Done tt
  | (k, t) :: keys' =>
      let* v := c in
      let* present := py_in k v in
      let* bad :=
        if present then
          let* v := c in
          let* x := py_item v k in
          Done (negb (isinstance x t))
        else Done false in
      if bad then Died (prefix +:+ k) else allow_keys prefix keys' c
  end.

Definition validate_config (cfg : json) : result unit :=
  let* _ := require_keys "Missing or invalid config key: " REQUIRED_KEYS (Done cfg) in
  let* _ := require_keys "Missing or invalid compile." COMPILE_KEYS
              (py_item cfg "compile") in
  let* _ := require_keys "Missing or invalid options." OPTION_KEYS
              (py_item cfg "options") in
  let* has_atoms := py_in "atoms" cfg in
  if has_atoms then
    let* atoms := py_item cfg "atoms" in
    if negb (isinstance atoms Tdict) then Died "atoms must be a dictionary"
    else allow_keys "Invalid atoms." ATOM_KEYS (py_item cfg "atoms")
  else Done tt.

(** The flags of [build] that the configuration selects. *)
Definition ENABLE_FLAGS : list (string * string) :=
  [("server", "--enable-server"); ("gadget", "--enable-gadget");
   ("tools", "--enable-frida-tools"); ("python", "--enable-frida-python");
   ("portal", "--enable-portal")].

(** [for key, opt in ...: if cfg["compile"].get(key, False):
    configure_flags.append(opt)] *)
Fixpoint add_enabled (cfg : json) (opts : list (string * string))
    (configure_flags : list string) : result (list string) :=
  match opts with
  | [] => Done configure_flags
  | (key, opt) :: opts' =>
      let* compile := py_item cfg "compile" in
      let* v := py_get compile key (JBool false) in
      add_enabled cfg opts'
        (if truthy v then configure_flags ++ [opt] else configure_flags)
  end.

(** The value of [configure_flags] that [build] makes: lines 308 to 334. *)
Definition configure_flags (cfg : json) : result (list string) :=
  let* flags := add_enabled cfg ENABLE_FLAGS ["./configure"; "--host=android-arm64"] in
  let flags :=
    flags ++ ["--"; "-Dfrida-gum:devkits=gum,gumjs"; "-Dfrida-core:devkits=core";
              "-Dfrida-gumjs:quickjs=enabled"; "-Dfrida-gum:quickjs=enabled"] in
  let* options := py_item cfg "options" in
  let* v := py_get options "disable_v8" (JBool false) in
  Done (flags ++ if truthy v
                 then ["-Dfrida-gum:v8=disabled"; "-Dfrida-gumjs:v8=disabled"]
                 else ["-Dfrida-gum:v8=enabled"; "-Dfrida-gumjs:v8=enabled"]).

End Config.

(** ** frida_builder.py: generate_stuff_h, from the configuration to the
    header *)

Module Stuff.
Import Rand.

(** A digit of [format(n, "x")]. *)
Definition hex_char (d : Z) : ascii :=
  ascii_of_N (Z.to_N (if d <? 10 then 48 + d else 87 + d)).

(** [format(n, "x")] for an [n] that is not negative, from the last digit
    to the first. *)
Fixpoint hex_digits (fuel : nat) (n : Z) (acc : string) : string :=
  match fuel with
  | O => acc
  | S fuel' =>
      let acc := String (hex_char (n mod 16)) acc in
      if n / 16 =? 0 then acc else hex_digits fuel' (n / 16) acc
  end.
Definition format_x (n : Z) : string :=
  hex_digits (S (Z.to_nat (Z.log2 n))) n EmptyString.

(** [f"0x{b:02x}"]: at least two digits; [b] is an element of a
    [bytearray] or of a list made from [range(256)], never negative. *)
Definition format_byte (b : Z) : string :=
  let digits := format_x b in
  "0x" +:+ (if (String.length digits <? 2)%nat then "0" +:+ digits else digits).

(** [", ".join(f"0x{b:02x}" for b in l)] *)
Definition bytes_list (l : list Z) : string :=
  String.concat ", " (format_byte <$> l).

(** [s.replace(old, new)] for two strings of one character. *)
Definition replace_char (old new : char) (s : str) : str :=
  (fun c => if (c =? old)%N then new else c) <$> s.

(** [version_macro] and [header_guard], lines 433 and 434. *)
Definition header_guard (frida_version : str) : str :=
  lit "FRIDA_" ++ replace_char 46 95 frida_version ++ lit "_STUFF_H".

(** The text of [stuff.h]. *)
Definition content (header_guard bytes_list sbox_list : str) : str :=
  lit "#ifndef " ++ header_guard ++ lit nl
  ++ lit "#define " ++ header_guard ++ lit nl
  ++ lit nl
  ++ lit "#include <stdint.h>" ++ lit nl
  ++ lit "#include <stddef.h>" ++ lit nl
  ++ lit nl
  ++ lit "#define STUFF_KEY_RAW {" ++ bytes_list ++ lit "}" ++ lit nl
  ++ lit nl
  ++ lit "const uint8_t qjs_sbox[256] = {" ++ lit nl
  ++ lit "    " ++ sbox_list ++ lit nl
  ++ lit "};" ++ lit nl
  ++ lit nl
  ++ lit "#endif // " ++ header_guard ++ lit nl.

(** The header for a version and a derivation. *)
Definition header (frida_version : str) (d : Deriver.derivation) : str :=
  content (header_guard frida_version) (lit (bytes_list (Deriver.final d)))
    (lit (bytes_list (Deriver.sbox d))).

(** How a call ends: nothing is written, the call stops in [die], or the
    header is written with this text. *)
Inductive outcome :=
| Skipped
| Died (msg : string)
| Written (text : str).

(** An expression on the configuration: an exception it raises ends the
    call. *)
Definition eval {A} (r : Config.result A) : rand A :=
  match r with
  | Config.Done a => ret a
  | _ => raise
  end.

(** [generate_stuff_h(cfg, out_dir)]; [quickjs_dir_exists] and [confirmed]
    are the answers of the file system and of the user.  [key.encode] and
    [.replace] raise [AttributeError] on a value that is not a string, and
    [key.encode] raises [UnicodeEncodeError] on a passphrase that holds a
    lone surrogate.  The source reads [cfg["frida_version"]] between the
    making of [final] and that of the substitution box: an exception raised
    there or after the box ends the call the same way.  [write_text] encodes
    the text with the encoding of the locale, which is taken to be UTF-8: it
    raises [UnicodeEncodeError] on a version that holds a lone surrogate. *)
Definition generate_stuff_h (cfg : Config.json)
    (quickjs_dir_exists confirmed : bool) : rand outcome :=
  let* atoms := eval (Config.py_get cfg "atoms" (Config.JDict [])) in
  let* key := eval (Config.py_get atoms "custom_encryption_key" Config.JNull) in
  if negb (Config.truthy key) then ret Skipped else
  if negb quickjs_dir_exists then ret (Died "QuickJS directory not found") else
  if negb confirmed then ret Skipped else
  let* key_bytes :=
    match key with
    | Config.JStr s => lift (encode s)
    | _ => raise
    end in
  let* d := Deriver.derive key_bytes in
  let* version := eval (Config.py_item cfg "frida_version") in
  let* version :=
    match version with
    | Config.JStr s => ret s
    | _ => raise
    end in
  let text := header version d in
  let* _ := lift (encode text) in
  ret (Written text).

End Stuff.

(** ** Vocabulary of the statements *)

(** [sub] occurs in [s]. *)
Definition occurs (sub s : str) : Prop := ∃ a b, s = a ++ sub ++ b.

(** [t'] is [t] with a text [x] inserted at the front, right before a closing
    brace, or right after a closing brace or a newline: the three kinds of
    insertion the patcher makes. *)
Definition anchored_insertion (t t' : str) : Prop :=
  t' = t
  ∨ (∃ x, t' = x ++ t)
  ∨ (∃ pre post x, t = pre ++ 125%N :: post ∧ t' = pre ++ x ++ 125%N :: post)
  ∨ (∃ pre post x c, (c = 125%N ∨ c = 10%N)
       ∧ t = pre ++ c :: post ∧ t' = pre ++ [c] ++ x ++ post).

(** A string with no closing brace and no newline except as its last
    character: no anchored insertion can fall inside one of its
    occurrences. *)
Definition unsplittable (sub : str) : Prop :=
  (125%N ∉ sub) ∧ (10%N ∉ removelast sub).


(** A computation over the random sources returns on every tape, with a
    result that satisfies [P]. *)
Definition returns {A} (m : Rand.rand A) (P : A → Prop) : Prop :=
  ∀ t, ∃ a t', m t = Some (a, t') ∧ P a.

(** The set of the names the lines of a table define. *)
Definition set_of_names (lines : list str) : gset (list N) :=
  list_to_set (omap Shuffler.extract_opcode lines).

(** A table whose second comment is closed on a definition line, and the
    tape of the draws that are all zero. *)
Definition stray_closer_table : list str :=
  Shuffler.readlines
    (lit (unlines ["/* n"; "#if 1"; "DEF(x,1) */"])).
Definition zero_tape : Rand.tape := fun _ => 0.

(** The tape of the draws that are all one. *)
Definition ones_tape : Rand.tape := fun _ => 1.

(** [list(range(256))] and Python's [sorted] on integers. *)
Definition range256 : list Z := Z.of_nat <$> seq 0 256.
Definition sorted (l : list Z) : list Z := merge_sort Z.le l.

(** The opening braces of a text minus its closing braces. *)
Fixpoint excess (s : str) : Z :=
  match s with
  | [] => 0
  | c :: s' =>
      (if (c =? 123)%N then 1 else if (c =? 125)%N then -1 else 0) + excess s'
  end.

(** [body] is a stretch of text whose braces are matched: they are as many
    closing as opening, and no closing brace comes before its opening one. *)
Definition matched (body : str) : Prop :=
  excess body = 0 ∧ ∀ p q, body = p ++ q → 0 ≤ excess p.

(** [a] is the text before the first occurrence of [sub] in [a ++ sub ++ b]. *)
Definition first_at (sub a text : str) : Prop :=
  ∀ a' b', text = a' ++ sub ++ b' → (length a ≤ length a')%nat.

(** [t'] is [t] itself, or [t] with the text [x] inserted somewhere. *)
Definition inserted (x t t' : str) : Prop :=
  t' = t ∨ ∃ pre post, t = pre ++ post ∧ t' = pre ++ x ++ post.

(** The text patch 3 inserts for a variant: the function between two
    newlines and one. *)
Definition inserted_function (v : Patcher.variant) : str :=
  lit (nl +:+ nl)
  ++ match v with
     | Patcher.Variant1 => Patcher.build_function Patcher.FUNC_BODY_VARIANT_1
     | Patcher.Variant2 => Patcher.build_function Patcher.FUNC_BODY_VARIANT_2
     end
  ++ lit nl.

(** A text with CR LF for each of its newlines. *)
Definition crlf (s : str) : str :=
  flat_map (fun c => if (c =? 10)%N then [13%N; 10%N] else [c]) s.

(** A line whose comment tokens come together: it holds an opening token
    exactly when it holds a closing one. *)
Definition closed_on_line (line : str) : Prop :=
  contains (lit "/*") (Shuffler.rstrip_nl line)
  = contains (lit "*/") (Shuffler.rstrip_nl line).

(** A line with its trailing newlines replaced by one. *)
Definition normalised (line : str) : str := Shuffler.rstrip_nl line ++ lit nl.

(** The names a group works on. *)
Definition names_of (g : Shuffler.group) : list str :=
  Shuffler.normal_targets g ++ Shuffler.reorder_list g
  ++ concat (Shuffler.relocate_blocks g).

(** The lines of the names of a block that the table defines, in the order
    of the block. *)
Definition block_lines_of (lines block : list str) : list str :=
  omap (λ op, Shuffler.opcode_index lines !! op ≫= λ i, lines !! i) block.

(** The insertion points the anchors of a group give for a block: right
    after a line of ["cca"], right before a line of ["ccb"]. *)
Definition relocation_anchors (g : Shuffler.group) (rest : list str) : list Z :=
  Shuffler.anchors_of (Shuffler.opcode_index rest) 1 (Shuffler.cca g)
  ++ Shuffler.anchors_of (Shuffler.opcode_index rest) 0 (Shuffler.ccb g).

(** The literals of [patch_meson_build]: the marker of a patched file, and
    what a line holds when it opens the dependency block. *)
Definition patched_marker : str := lit "# _PATCHED_".
Definition dependency_opening : str := lit "quickjs_dep = dependency('quickjs'".

(** A line that closes the dependency block: [endif] between white space. *)
Definition closes_block (line : str) : Prop := Setup.strip line = lit "endif".

(** The components of a path: the stretches between slashes. *)
Fixpoint components_from (cur name : str) : list str :=
  match name with
  | [] => [cur]
  | c :: name' =>
      if (c =? 47)%N then cur :: components_from [] name'
      else components_from (cur ++ [c]) name'
  end.
Definition components (name : str) : list str := components_from [] name.

(** A small [meson.build] with a dependency block, and one whose block is
    not closed. *)
Definition sample_meson : str :=
  lit (unlines
    [ "a = 1";
      "  quickjs_dep = dependency('quickjs', required: false)";
      "  x = 2";
      "  endif";
      "b = 3" ]).
Definition sample_meson_unclosed : str :=
  lit (unlines
    [ "a = 1";
      "  quickjs_dep = dependency('quickjs', required: false)";
      "  x = 2";
      "b = 3" ]).

(** An object holds a string, a truth value or an object for a key. *)
Definition holds_str (d : list (string * Config.json)) (k : string) : Prop :=
  ∃ s, Config.member k d = Some (Config.JStr s).
Definition holds_bool (d : list (string * Config.json)) (k : string) : Prop :=
  ∃ b, Config.member k d = Some (Config.JBool b).

(** A configuration as the builder wants it: an object with the version and
    the output directory as strings, the five components to compile and the
    option on V8 as truth values, and, when it has atoms, an object whose
    passphrase, when it has one, is a string. *)
Definition well_formed (cfg : Config.json) : Prop :=
  ∃ d c o,
    cfg = Config.JDict d
    ∧ holds_str d "frida_version" ∧ holds_str d "output_dir"
    ∧ Config.member "compile" d = Some (Config.JDict c)
    ∧ holds_bool c "server" ∧ holds_bool c "gadget" ∧ holds_bool c "tools"
    ∧ holds_bool c "python" ∧ holds_bool c "portal"
    ∧ Config.member "options" d = Some (Config.JDict o)
    ∧ holds_bool o "disable_v8"
    ∧ (Config.member "atoms" d = None
       ∨ ∃ a, Config.member "atoms" d = Some (Config.JDict a)
           ∧ (Config.member "custom_encryption_key" a = None
              ∨ holds_str a "custom_encryption_key")).

(** The keys of the configuration that the validation reads. *)
Definition validated_keys : list string :=
  ["frida_version"; "compile"; "output_dir"; "options"; "atoms"].

(** A component or an option is set to true. *)
Definition is_on (d : list (string * Config.json)) (k : string) : bool :=
  match Config.member k d with
  | Some (Config.JBool true) => true
  | _ => false
  end.

(** The members of a configuration that passes the validation, for a
    passphrase. *)
Definition members_with (key : str) : list (string * Config.json) :=
  [ ("frida_version", Config.JStr (lit "16.5.9"));
    ("output_dir", Config.JStr (lit "out"));
    ("compile", Config.JDict
       [ ("server", Config.JBool true); ("gadget", Config.JBool false);
         ("tools", Config.JBool false); ("python", Config.JBool false);
         ("portal", Config.JBool true) ]);
    ("options", Config.JDict [ ("disable_v8", Config.JBool true) ]);
    ("shuffle_opcodes", Config.JStr (lit "no"));
    ("atoms", Config.JDict [ ("custom_encryption_key", Config.JStr key) ]) ].
Definition sample_members : list (string * Config.json) :=
  members_with (lit "hunter2").
Definition sample_config : Config.json := Config.JDict sample_members.

(** An object without its members for a key. *)
Definition without (k : string) (d : list (string * Config.json))
  : list (string * Config.json) :=
  filter (fun p => negb (String.eqb p.1 k)) d.

(** A configuration with a version and a passphrase, and nothing else. *)
Definition config_of (version key : str) : Config.json :=
  Config.JDict
    [ ("frida_version", Config.JStr version);
      ("atoms", Config.JDict [ ("custom_encryption_key", Config.JStr key) ]) ].

(** The passphrase of a configuration: the string of its atoms, when there
    is one. *)
Definition passphrase (cfg : Config.json) : option str :=
  match cfg with
  | Config.JDict d =>
      match Config.member "atoms" d with
      | Some (Config.JDict a) =>
          match Config.member "custom_encryption_key" a with
          | Some (Config.JStr s) => Some s
          | _ => None
          end
      | _ => None
      end
  | _ => None
  end.

(** A string that UTF-8 encodes: its code points are none a surrogate. *)
Definition encodable (s : str) : Prop :=
  Forall (fun c => (c < 55296 ∨ 57343 < c < 1114112)%N) s.

(** A list of entries [0x..] read back: two digits each, a comma and a
    space between two of them. *)
Definition is_hex (a : ascii) : bool :=
  let n := N_of_ascii a in
  ((48 <=? n) && (n <=? 57) || (97 <=? n) && (n <=? 102))%N.

Fixpoint read_entries (s : string) : option (list Z) :=
  match s with
  | EmptyString => Some []
  | String "0" (String "x" (String a (String b rest))) =>
      if is_hex a && is_hex b then
        let v := 16 * Hashlib.hex_digit a + Hashlib.hex_digit b in
        match rest with
        | EmptyString => Some [v]
        | String "," (String " " rest') =>
            match rest' with
            | EmptyString => None
            | _ => cons v <$> read_entries rest'
            end
        | _ => None
        end
      else None
  | _ => None
  end.

(** A name of the C preprocessor: letters, digits and underscores. *)
Definition is_name_char (c : char) : bool := Shuffler.is_word c.

Definition all_chars (p : char -> bool) (s : str) : bool := forallb p s.

(** A computation over the random sources gives, on every tape on which it
    returns, a result that satisfies [P]. *)
Definition ensures {A} (m : Rand.rand A) (P : A → Prop) : Prop :=
  ∀ t a t', m t = Some (a, t') → P a.

(** A byte. *)
Definition is_byte (b : Z) : Prop := 0 ≤ b < 256.

(** * Properties *)

(** ** The embedding evaluated *)

Section PatcherEvaluations.

Import Patcher.

Example find_first : find (lit "lo") (lit "hello lolo") 0 = 3.
Proof. reflexivity. Qed.

Example find_from_start : find (lit "lo") (lit "hello lolo") 4 = 6.
Proof. reflexivity. Qed.

Example find_absent : find (lit "z") (lit "hello") 0 = -1.
Proof. reflexivity. Qed.

Example find_matching_brace_nested :
  find_matching_brace (lit "a{b{c}d}e") 1 = 7.
Proof. reflexivity. Qed.

Example find_matching_brace_unbalanced :
  find_matching_brace (lit "a{b{c}d") 1 = -1.
Proof. reflexivity. Qed.

(** Without an opening brace the scan starts at the first character. *)
Example find_matching_brace_from_start :
  find_matching_brace (lit "ab}c") (-1) = 2.
Proof. reflexivity. Qed.

End PatcherEvaluations.

Section ShufflerEvaluations.

Import Rand Shuffler.

Example extract_opcode_definition :
  extract_opcode (lit "  DEF(  push_i32, 5, 0, 1, i32)") = Some (lit "push_i32").
Proof. reflexivity. Qed.

Example extract_opcode_directive : extract_opcode (lit "#define X DEF(a)") = None.
Proof. reflexivity. Qed.

Example extract_opcode_no_name : extract_opcode (lit "DEF( , 1)") = None.
Proof. reflexivity. Qed.

(** Of two lines of one name the index keeps the later. *)
Example opcode_index_last :
  opcode_index [lit "DEF(a, 1)"; lit "/* c */"; lit "DEF(b, 1)"; lit "DEF(a, 2)"]
  !! lit "a" = Some 3%nat.
Proof. vm_compute. reflexivity. Qed.

Example rstrip_nl_all : rstrip_nl (lit ("ab" +:+ nl +:+ nl)) = lit "ab".
Proof. reflexivity. Qed.

Example readlines_keeps_ends :
  readlines (lit ("a" +:+ nl +:+ nl +:+ "b"))
  = [lit ("a" +:+ nl); lit nl; lit "b"].
Proof. reflexivity. Qed.

Example swap_two : swap [10; 20; 30] 0 2 = Some [30; 20; 10].
Proof. reflexivity. Qed.

Example swap_out_of_range : swap [10; 20; 30] 0 3 = None.
Proof. reflexivity. Qed.

Example shuffle_on_ones :
  fst <$> shuffle [10; 20; 30; 40] ones_tape = Some [10; 30; 40; 20].
Proof. reflexivity. Qed.

Example randbelow_zero : randbelow 0 ones_tape = None.
Proof. reflexivity. Qed.

End ShufflerEvaluations.

(** ** Occurrences of a substring *)

Section Occurrences.

Lemma starts_with_spec (p s : str) :
  starts_with p s = true ↔ ∃ b, s = p ++ b.
Proof.
  revert s. induction p as [|c p IH]; intros s; simpl.
  - split; eauto.
  - destruct s as [|d s]; [split; [done | intros [b Hb]; done] |].
    rewrite andb_true_iff, N.eqb_eq, IH. split.
    + intros [-> [b ->]]. eauto.
    + intros [b Hb]. injection Hb as -> ->. eauto.
Qed.

Lemma find_from_Some (sub s : str) (k i : nat) :
  find_from sub s k = Some i →
  (k ≤ i ≤ k + length s)%nat ∧ ∃ b, drop (i - k) s = sub ++ b.
Proof.
  revert k. induction s as [|c s IH]; intros k; simpl.
  - destruct (starts_with sub []) eqn:E; [|done].
    intros [= <-]. split; [lia|]. rewrite Nat.sub_diag. simpl.
    by apply starts_with_spec.
  - destruct (starts_with sub (c :: s)) eqn:E.
    + intros [= <-]. split; [lia|]. rewrite Nat.sub_diag. simpl.
      by apply starts_with_spec.
    + intros H. apply IH in H as [Hk [b Hb]]. split; [lia|].
      exists b. replace (i - k)%nat with (S (i - S k)) by lia. done.
Qed.

Lemma find_from_None (sub s : str) (k : nat) :
  find_from sub s k = None → ¬ occurs sub s.
Proof.
  revert k. induction s as [|c s IH]; intros k; simpl.
  - destruct (starts_with sub []) eqn:E; [done|]. intros _ (a & b & H).
    symmetry in H. apply app_eq_nil in H as [-> H]. simpl in H.
    assert (starts_with sub [] = true) by (apply starts_with_spec; eauto).
    congruence.
  - destruct (starts_with sub (c :: s)) eqn:E; [done|].
    intros H (a & b & Hab). destruct a as [|a0 a]; simpl in Hab.
    + assert (starts_with sub (c :: s) = true) by (apply starts_with_spec; eauto).
      congruence.
    + injection Hab as -> ->. eapply IH; [done|]. by exists a, b.
Qed.

Lemma drop_occurs (sub s b : str) (n : nat) :
  drop n s = sub ++ b → occurs sub s.
Proof.
  intros H. exists (take n s), b. by rewrite <- H, take_drop.
Qed.

Lemma contains_spec (sub s : str) : contains sub s = true ↔ occurs sub s.
Proof.
  unfold contains. destruct (find_from sub s 0) eqn:E.
  - split; [|done]. intros _. apply find_from_Some in E as [_ [b Hb]].
    by eapply drop_occurs.
  - split; [done|]. intros H. by apply find_from_None in E.
Qed.

Lemma contains_false (sub s : str) : contains sub s = false ↔ ¬ occurs sub s.
Proof. rewrite <- contains_spec. by destruct (contains sub s). Qed.

Lemma occurs_trans (a b c : str) : occurs a b → occurs b c → occurs a c.
Proof.
  intros (x & y & ->) (u & v & ->). exists (u ++ x), (y ++ v).
  by rewrite <- !app_assoc.
Qed.

Lemma occurs_app_l (sub s x : str) : occurs sub s → occurs sub (x ++ s).
Proof. intros (a & b & ->). exists (x ++ a), b. by rewrite <- app_assoc. Qed.

Lemma occurs_app_r (sub s x : str) : occurs sub s → occurs sub (s ++ x).
Proof. intros (a & b & ->). exists a, (b ++ x). by rewrite <- !app_assoc. Qed.

Lemma occurs_middle (sub x y : str) : occurs sub (x ++ sub ++ y).
Proof. by exists x, y. Qed.

End Occurrences.

(** ** The patcher: variant detection *)

Section DetectVariant.

Import Patcher.

Lemma new_in_new_take :
  occurs (lit "gum_es_asset_new") (lit "gum_es_asset_new_take").
Proof. by apply contains_spec. Qed.

(** C9. Variant detection tests the longer marker first: a buffer that holds
    "gum_es_asset_new_take" selects variant 2 although it then also holds
    "gum_es_asset_new"; variant 1 is selected exactly when
    "gum_es_asset_new" occurs and "gum_es_asset_new_take" does not; in every
    other case the script dies. *)
Theorem detect_variant_order (text : str) (w : fs) :
  (occurs (lit "gum_es_asset_new_take") text →
     detect_variant text w = (inr Variant2, w)
     ∧ occurs (lit "gum_es_asset_new") text)
  ∧ (detect_variant text w = (inr Variant1, w) ↔
       occurs (lit "gum_es_asset_new") text
       ∧ ¬ occurs (lit "gum_es_asset_new_take") text)
  ∧ (¬ occurs (lit "gum_es_asset_new_take") text →
     ¬ (occurs (lit "gum_es_asset_new") text
        ∧ ¬ occurs (lit "gum_es_asset_new_take") text) →
     detect_variant text w
     = (inl "Cannot detect allocator variant in gumquickcore.c"%string, w)).
Proof.
  unfold detect_variant.
  destruct (contains (lit "gum_es_asset_new_take") text) eqn:Etake;
    destruct (contains (lit "gum_es_asset_new") text) eqn:Enew;
    first [apply contains_spec in Etake | apply contains_false in Etake];
    first [apply contains_spec in Enew | apply contains_false in Enew].
  - split_and!; [done | | done]. split; [done | tauto].
  - destruct Enew. eapply occurs_trans; [apply new_in_new_take | done].
  - split_and!; [done | | tauto]. split; [done | done].
  - split_and!; [done | | done]. split; [done | tauto].
Qed.

(** The theorem at a buffer that calls the newer allocator. *)
Lemma detect_variant_order_witness :
  detect_variant (lit "es = gum_es_asset_new_take (name, NULL, 0);")
    {| target_file := None |}
  = (inr Variant2, {| target_file := None |})
  ∧ occurs (lit "gum_es_asset_new")
      (lit "es = gum_es_asset_new_take (name, NULL, 0);").
Proof.
  apply (proj1 (detect_variant_order _ _)).
  exists (lit "es = "), (lit " (name, NULL, 0);"). reflexivity.
Defined.

End DetectVariant.

(** ** The patcher: searches and slices *)

Section Searching.

Import Patcher.

Lemma bound_in_range (n : nat) (p : Z) :
  0 ≤ p ≤ Z.of_nat n → bound n p = Z.to_nat p.
Proof.
  intros H. unfold bound. destruct (Z.ltb_spec p 0); [lia|].
  f_equal. lia.
Qed.

Lemma bound_le (n : nat) (p : Z) : (bound n p ≤ n)%nat.
Proof. unfold bound. destruct (p <? 0); lia. Qed.

Lemma slice_to_app (pre post : str) :
  slice_to (pre ++ post) (Z.of_nat (length pre)) = pre.
Proof.
  unfold slice_to. rewrite bound_in_range, Nat2Z.id.
  - apply take_app_length.
  - rewrite length_app. lia.
Qed.

Lemma slice_from_app (pre post : str) :
  slice_from (pre ++ post) (Z.of_nat (length pre)) = post.
Proof.
  unfold slice_from. rewrite bound_in_range, Nat2Z.id.
  - apply drop_app_length.
  - rewrite length_app. lia.
Qed.

Lemma slice_to_0 (text : str) : slice_to text 0 = [].
Proof. unfold slice_to. rewrite bound_in_range by lia. done. Qed.

Lemma slice_from_0 (text : str) : slice_from text 0 = text.
Proof. unfold slice_from. rewrite bound_in_range by lia. done. Qed.

(** A successful [find] returns the offset of an occurrence. *)
Lemma find_found (sub text : str) (start r : Z) :
  find sub text start = r → r ≠ -1 →
  ∃ pre post, text = pre ++ sub ++ post ∧ Z.of_nat (length pre) = r.
Proof.
  unfold find. destruct (Z.ltb_spec (Z.of_nat (length text)) start); [congruence|].
  set (k := bound (length text) start).
  destruct (find_from sub (drop k text) k) as [i|] eqn:E; [|congruence].
  intros <- _. apply find_from_Some in E as [Hk [b Hb]].
  rewrite drop_drop in Hb. replace (k + (i - k))%nat with i in Hb by lia.
  assert (i ≤ length text)%nat as Hi.
  { pose proof (bound_le (length text) start). fold k in H0.
    rewrite length_drop in Hk. lia. }
  exists (take i text), b. split.
  - by rewrite <- Hb, take_drop.
  - rewrite length_take. lia.
Qed.

Lemma find_lower_bound (sub text : str) (start : Z) : -1 ≤ find sub text start.
Proof.
  unfold find. destruct (_ <? _); [lia|].
  destruct (find_from _ _ _); lia.
Qed.

(** From the start of the text, [find] fails exactly when there is no
    occurrence. *)
Lemma find_0_absent (sub text : str) :
  find sub text 0 = -1 ↔ ¬ occurs sub text.
Proof.
  unfold find. destruct (Z.ltb_spec (Z.of_nat (length text)) 0); [lia|].
  rewrite bound_in_range by lia. change (Z.to_nat 0) with 0%nat.
  rewrite drop_0.
  destruct (find_from sub text 0) as [i|] eqn:E.
  - split; [intros; lia|]. intros Hn. destruct Hn.
    apply find_from_Some in E as [_ [b Hb]]. by eapply drop_occurs.
  - split; [|done]. intros _. by eapply find_from_None.
Qed.

Lemma scan_braces_found (s : str) (i depth r : Z) :
  scan_braces s i depth = r → r ≠ -1 → 0 ≤ i →
  ∃ pre post, s = pre ++ 125%N :: post ∧ Z.of_nat (length pre) = r - i.
Proof.
  revert i depth. induction s as [|c s IH]; intros i depth; simpl; [congruence|].
  intros Hr Hne Hi.
  destruct (N.eqb_spec c 123).
  { destruct (IH _ _ Hr Hne) as (pre & post & -> & Hl); [lia|].
    exists (c :: pre), post. split; [done|]. simpl. lia. }
  destruct (N.eqb_spec c 125) as [->|].
  { destruct (Z.eqb_spec (depth - 1) 0).
    - exists [], s. split; [done|]. simpl. lia.
    - destruct (IH _ _ Hr Hne) as (pre & post & -> & Hl); [lia|].
      exists (125%N :: pre), post. split; [done|]. simpl. lia. }
  destruct (IH _ _ Hr Hne) as (pre & post & -> & Hl); [lia|].
  exists (c :: pre), post. split; [done|]. simpl. lia.
Qed.

(** A successful [find_matching_brace] returns the offset of a closing
    brace. *)
Lemma find_matching_brace_found (text : str) (open_pos r : Z) :
  -1 ≤ open_pos → find_matching_brace text open_pos = r → r ≠ -1 →
  ∃ pre post, text = pre ++ 125%N :: post ∧ Z.of_nat (length pre) = r.
Proof.
  intros Ho Hr Hne. unfold find_matching_brace in Hr.
  set (n := Z.to_nat (open_pos + 1)) in *.
  destruct (decide (n ≤ length text)%nat) as [Hn|Hn].
  - apply scan_braces_found in Hr as (pre & post & Hs & Hl); [|done|lia].
    exists (take n text ++ pre), post. split.
    + rewrite <- (take_drop n text) at 1. rewrite Hs. by rewrite app_assoc.
    + rewrite length_app, length_take. unfold n in *.
      lia.
  - rewrite drop_ge in Hr by lia. simpl in Hr. congruence.
Qed.

End Searching.

(** ** Insertions that keep an occurrence *)

Section Insertions.

Local Ltac occurs_at a b :=
  exists a, b; rewrite <- ?app_assoc; simpl; rewrite <- ?app_assoc; done.

(** An insertion made right before a character [c] cannot split an occurrence
    of a string that does not hold [c]. *)
Lemma occurs_insert_before (sub x pre post : str) (c : char) :
  c ∉ sub → occurs sub (pre ++ c :: post) → occurs sub (pre ++ x ++ c :: post).
Proof.
  intros Hc (a & b & Hab). symmetry in Hab.
  apply app_eq_inv in Hab as [(k & -> & Hk)|(k & -> & Hk)].
  - (* the occurrence starts at or after the insertion point *)
    rewrite Hk. occurs_at (pre ++ x ++ k) b.
  - (* the occurrence starts before the insertion point *)
    apply app_eq_inv in Hk as [(k' & -> & Hk')|(k' & -> & ->)].
    + destruct k' as [|c' k']; simpl in Hk'.
      * subst b. rewrite app_nil_r. occurs_at a (x ++ c :: post).
      * injection Hk' as -> _. destruct Hc. apply elem_of_app. right. left.
    + occurs_at a (k' ++ x ++ c :: post).
Qed.

(** An insertion made right after a character [c] cannot split an occurrence
    of a string that holds [c] at most as its last character. *)
Lemma occurs_insert_after (sub x pre post : str) (c : char) :
  (∀ u v, sub = u ++ c :: v → v = []) →
  occurs sub (pre ++ c :: post) → occurs sub (pre ++ [c] ++ x ++ post).
Proof.
  intros Hc (a & b & Hab).
  replace (pre ++ c :: post) with ((pre ++ [c]) ++ post) in Hab
    by (by rewrite <- app_assoc).
  symmetry in Hab.
  apply app_eq_inv in Hab as [(k & -> & ->)|(k & Hpre & Hk)].
  - occurs_at (pre ++ [c] ++ x ++ k) b.
  - apply app_eq_inv in Hk as [(k' & Hsub & ->)|(k' & -> & ->)].
    + destruct k as [|k0 k _] using rev_ind.
      * rewrite app_nil_r in Hpre. simpl in Hsub. subst.
        occurs_at (pre ++ [c] ++ x) b.
      * rewrite app_assoc in Hpre. apply app_inj_tail in Hpre as [-> ->].
        rewrite <- app_assoc in Hsub. simpl in Hsub.
        pose proof (Hc _ _ Hsub) as ->. subst sub.
        occurs_at a (x ++ b).
    + rewrite app_assoc, Hpre. occurs_at a (k' ++ x ++ post).
Qed.

Lemma occurs_insert_after_absent (sub x pre post : str) (c : char) :
  c ∉ sub → occurs sub (pre ++ c :: post) → occurs sub (pre ++ [c] ++ x ++ post).
Proof.
  intros Hc. apply occurs_insert_after. intros u v ->.
  destruct Hc. apply elem_of_app. right. left.
Qed.

End Insertions.

(** ** The patcher: what each patch does to the buffer *)

Section Patches.

Import Patcher.

Lemma ret_inv {A} (a b : A) (w w' : fs) :
  ret a w = (inr b, w') → a = b ∧ w' = w.
Proof. by intros [= <- <-]. Qed.

Lemma die_fs {A} (msg : string) (w w' : fs) (r : string + A) :
  die msg w = (r, w') → w' = w.
Proof. by intros [= _ <-]. Qed.

Lemma unsplittable_newline (sub u v : str) :
  10%N ∉ removelast sub → sub = u ++ 10%N :: v → v = [].
Proof.
  intros Hn ->. destruct v as [|v0 v]; [done|]. destruct Hn.
  rewrite removelast_app by done. apply elem_of_app. right.
  simpl. left.
Qed.

Lemma anchored_insertion_occurs (sub t t' : str) :
  unsplittable sub → anchored_insertion t t' → occurs sub t → occurs sub t'.
Proof.
  intros [Hb Hn] [->|[(x & ->)|[(pre & post & x & -> & ->)
    |(pre & post & x & c & Hc & -> & ->)]]] Ho; [done| | |].
  - by apply occurs_app_l.
  - by apply occurs_insert_before.
  - destruct Hc as [->| ->].
    + by apply occurs_insert_after_absent.
    + apply occurs_insert_after; [|done].
      intros u v. by apply unsplittable_newline.
Qed.

(** Patch 1 either dies or returns a buffer that holds the entry. *)
Lemma patch_entry_ok (text t' : str) (w w' : fs) :
  patch_entry text w = (inr t', w') →
  w' = w ∧ anchored_insertion text t' ∧ occurs ENTRY_TO_ADD t'.
Proof.
  unfold patch_entry. destruct (contains ENTRY_TO_ADD text) eqn:E; cbn [negb].
  { intros [<- <-]%ret_inv. split_and!; [done|by left|by apply contains_spec]. }
  destruct (_ =? -1); [done|].
  set (open_brace := find (lit "{") text _).
  destruct (_ =? -1); [done|].
  destruct (Z.eqb_spec (find_matching_brace text open_brace) (-1)) as [|Hne]; [done|].
  destruct (find_matching_brace_found text open_brace _
              (find_lower_bound _ _ _) eq_refl Hne) as (pre & post & Ht & <-).
  rewrite Ht, slice_to_app, slice_from_app.
  intros [<- <-]%ret_inv. split_and!; [done| |apply occurs_middle].
  right. right. left. by exists pre, post, ENTRY_TO_ADD.
Qed.

(** Patch 2 either dies or returns a buffer that holds the declaration. *)
Lemma patch_declaration_ok (text t' : str) (w w' : fs) :
  patch_declaration text w = (inr t', w') →
  w' = w ∧ anchored_insertion text t' ∧ occurs DECLARE_LINE t'.
Proof.
  unfold patch_declaration. destruct (contains DECLARE_LINE text) eqn:E; cbn [negb].
  { intros [<- <-]%ret_inv. split_and!; [done|by left|by apply contains_spec]. }
  destruct (_ =? -1); [done|].
  set (r := find (lit nl) text _).
  destruct (Z.eq_dec r (-1)) as [->|Hne].
  - change (-1 + 1) with 0. rewrite slice_to_0, slice_from_0.
    intros [<- <-]%ret_inv. split_and!; [done| |apply (occurs_middle DECLARE_LINE [] text)].
    right. left. by exists DECLARE_LINE.
  - destruct (find_found _ _ _ r eq_refl Hne) as (pre & post & Ht & Hl).
    change (lit nl) with [10%N] in Ht. rewrite <- Hl.
    replace (Z.of_nat (length pre) + 1) with (Z.of_nat (length (pre ++ [10%N])))
      by (rewrite length_app; simpl; lia).
    rewrite Ht, (app_assoc pre), slice_to_app, slice_from_app.
    intros [<- <-]%ret_inv. split_and!; [done| |].
    + right. right. right. exists pre, post, DECLARE_LINE, 10%N.
      split_and!; [by right|by rewrite <- app_assoc|by rewrite <- !app_assoc].
    + apply occurs_middle.
Qed.

(** Patch 3 either dies or returns a buffer that holds the implementation's
    marker, whenever the implementation to insert holds it. *)
Lemma patch_implementation_ok (function_impl text t' : str) (w w' : fs) :
  occurs (lit "GUMJS_DEFINE_FUNCTION (gumjs_script_load_bytecode)") function_impl →
  patch_implementation function_impl text w = (inr t', w') →
  w' = w ∧ anchored_insertion text t'
  ∧ occurs (lit "GUMJS_DEFINE_FUNCTION (gumjs_script_load_bytecode)") t'.
Proof.
  intros Himpl. unfold patch_implementation.
  destruct (contains _ text) eqn:E; cbn [negb].
  { intros [<- <-]%ret_inv. split_and!; [done|by left|by apply contains_spec]. }
  destruct (_ =? -1); [done|].
  set (open_brace := find (lit "{") text _).
  destruct (Z.eqb_spec (find_matching_brace text open_brace) (-1)) as [|Hne]; [done|].
  destruct (find_matching_brace_found text open_brace _
              (find_lower_bound _ _ _) eq_refl Hne) as (pre & post & Ht & <-).
  replace (Z.of_nat (length pre) + 1) with (Z.of_nat (length (pre ++ [125%N])))
    by (rewrite length_app; simpl; lia).
  rewrite Ht. change (pre ++ 125%N :: post) with (pre ++ [125%N] ++ post).
  rewrite (app_assoc pre), slice_to_app, slice_from_app.
  intros [<- <-]%ret_inv. split_and!; [done| |].
  - right. right. right.
    exists pre, post, (lit (nl +:+ nl) ++ function_impl ++ lit nl), 125%N.
    split_and!; [by left|by rewrite <- app_assoc|by rewrite <- !app_assoc].
  - do 2 apply occurs_app_l. by apply occurs_app_r.
Qed.

(** A patch never touches the file system. *)
Lemma patch_entry_fs (text : str) (w : fs) : (patch_entry text w).2 = w.
Proof.
  unfold patch_entry. repeat (destruct (_ : bool); simpl; try done).
Qed.

Lemma patch_declaration_fs (text : str) (w : fs) : (patch_declaration text w).2 = w.
Proof.
  unfold patch_declaration. repeat (destruct (_ : bool); simpl; try done).
Qed.

Lemma patch_implementation_fs (impl text : str) (w : fs) :
  (patch_implementation impl text w).2 = w.
Proof.
  unfold patch_implementation. repeat (destruct (_ : bool); simpl; try done).
Qed.

End Patches.

(** ** The patcher: a missing anchor *)

Section MissingAnchor.

Import Patcher.

Lemma patch_entry_missing (text : str) (w : fs) :
  ¬ occurs (anchor_literal EntryPatch) text →
  ¬ occurs (detection_literal EntryPatch) text →
  patch_entry text w = (inl (anchor_error EntryPatch), w).
Proof.
  intros Ha Hd. unfold patch_entry.
  apply contains_false in Hd. apply find_0_absent in Ha.
  simpl detection_literal in Hd. simpl anchor_literal in Ha.
  rewrite Hd. cbn [negb]. cbv zeta. by rewrite Ha.
Qed.

Lemma patch_declaration_missing (text : str) (w : fs) :
  ¬ occurs (anchor_literal DeclarationPatch) text →
  ¬ occurs (detection_literal DeclarationPatch) text →
  patch_declaration text w = (inl (anchor_error DeclarationPatch), w).
Proof.
  intros Ha Hd. unfold patch_declaration.
  apply contains_false in Hd. apply find_0_absent in Ha.
  simpl detection_literal in Hd. simpl anchor_literal in Ha.
  rewrite Hd. cbn [negb]. cbv zeta. by rewrite Ha.
Qed.

Lemma patch_implementation_missing (impl text : str) (w : fs) :
  ¬ occurs (anchor_literal ImplementationPatch) text →
  ¬ occurs (detection_literal ImplementationPatch) text →
  patch_implementation impl text w = (inl (anchor_error ImplementationPatch), w).
Proof.
  intros Ha Hd. unfold patch_implementation.
  apply contains_false in Hd. apply find_0_absent in Ha.
  simpl detection_literal in Hd. simpl anchor_literal in Ha.
  rewrite Hd. cbn [negb]. cbv zeta. by rewrite Ha.
Qed.

(** The patches die with the anchor's message at the first patch that finds
    neither its detection literal nor its anchor. *)
Lemma apply_patches_missing (p : patch_id) (impl text t : str) (w : fs) :
  buffer_before p text w = (inr t, w) →
  ¬ occurs (anchor_literal p) t →
  ¬ occurs (detection_literal p) t →
  apply_patches impl text w = (inl (anchor_error p), w).
Proof.
  intros Hb Ha Hd. unfold apply_patches. destruct p; simpl in Hb.
  - apply ret_inv in Hb as [-> _]. unfold bind at 1.
    by rewrite patch_entry_missing.
  - unfold bind at 1. rewrite Hb. unfold bind at 1.
    by rewrite patch_declaration_missing.
  - unfold bind in Hb.
    destruct (patch_entry text w) as [[msg|t1] w1] eqn:E1; [done|].
    pose proof (patch_entry_fs text w) as Hw. rewrite E1 in Hw. simpl in Hw.
    subst w1. unfold bind at 1. rewrite E1. unfold bind at 1. rewrite Hb.
    unfold bind at 1. by rewrite patch_implementation_missing.
Qed.

Lemma detect_variant_fs (text : str) (w : fs) : (detect_variant text w).2 = w.
Proof. unfold detect_variant. by repeat (destruct (contains _ _)). Qed.

(** [main] on a present target file and a well-formed command line. *)
Lemma main_run (argv : list str) (w : fs) (text : str) :
  length argv = 2%nat → target_file w = Some text →
  main argv w
  = (let* variant := detect_variant text in
     apply_patches
       match variant with
       | Variant1 => build_function FUNC_BODY_VARIANT_1
       | Variant2 => build_function FUNC_BODY_VARIANT_2
       end text) w.
Proof.
  intros Hargv Ht. unfold main. rewrite Hargv. cbn [Nat.eqb negb].
  unfold bind at 1, exists_file. rewrite Ht. cbn [negb].
  unfold bind at 1, read_text. rewrite Ht. done.
Qed.

Lemma apply_patches_dies_fs (impl text : str) (w w' : fs) (msg : string) :
  apply_patches impl text w = (inl msg, w') → w' = w.
Proof.
  unfold apply_patches. unfold bind at 1.
  pose proof (patch_entry_fs text w) as H1.
  destruct (patch_entry _ w) as [[m1|t1] w1]; simpl in H1; subst w1;
    [intros H; by inversion H|].
  unfold bind at 1. pose proof (patch_declaration_fs t1 w) as H2.
  destruct (patch_declaration _ w) as [[m2|t2] w2]; simpl in H2; subst w2;
    [intros H; by inversion H|].
  unfold bind at 1. pose proof (patch_implementation_fs impl t2 w) as H3.
  destruct (patch_implementation _ _ w) as [[m3|t3] w3]; simpl in H3; subst w3;
    [intros H; by inversion H|].
  done.
Qed.

(** Whatever makes [main] die, the target file is as it was: the only write
    is the last action. *)
Lemma main_dies_fs (argv : list str) (w w' : fs) (msg : string) :
  main argv w = (inl msg, w') → w' = w.
Proof.
  destruct (decide (length argv = 2%nat)) as [Hargv|Hargv].
  - destruct (target_file w) as [text|] eqn:Ht.
    + rewrite (main_run _ _ text) by done. unfold bind at 1.
      pose proof (detect_variant_fs text w) as H0.
      destruct (detect_variant text w) as [[m|v] w0]; simpl in H0; subst w0.
      * intros H; by inversion H.
      * apply apply_patches_dies_fs.
    + unfold main. rewrite Hargv. cbn [Nat.eqb negb].
      unfold bind at 1, exists_file. rewrite Ht. cbn [negb].
      by intros ?%die_fs.
  - unfold main. apply Nat.eqb_neq in Hargv as ->. cbn [negb].
    by intros ?%die_fs.
Qed.

(** C6. A patch that finds neither its detection literal nor its anchor in
    the buffer it receives makes the run die with that anchor's "not found"
    message, and the target file is left as it was: the insertions the
    earlier patches made in memory are not written.  This holds of the three
    patches run on their own and of [main], whose message is the anchor's
    whenever the command line and the variant detection let the patches
    run; and whatever makes [main] die, the file is as it was. *)
Theorem missing_anchor_not_committed
    (p : patch_id) (impl text t : str) (w : fs) :
  buffer_before p text w = (inr t, w) →
  ¬ occurs (anchor_literal p) t →
  ¬ occurs (detection_literal p) t →
  apply_patches impl text w = (inl (anchor_error p), w)
  ∧ (∀ argv, target_file w = Some text →
      ∃ msg, main argv w = (inl msg, w)
        ∧ (length argv = 2%nat →
           occurs (lit "gum_es_asset_new") text → msg = anchor_error p))
  ∧ (∀ argv w0 w' msg, main argv w0 = (inl msg, w') → w' = w0).
Proof.
  intros Hb Ha Hd.
  pose proof (λ impl, apply_patches_missing p impl text t w Hb Ha Hd) as Hdie.
  split_and!; [done| |intros argv w0 w' msg; apply main_dies_fs].
  intros argv Ht.
  destruct (decide (length argv = 2%nat)) as [Hargv|Hargv].
  - rewrite (main_run _ _ text) by done. unfold bind at 1.
    unfold detect_variant.
    destruct (contains (lit "gum_es_asset_new_take") text) eqn:Etake.
    { eexists. split; [apply Hdie | done]. }
    destruct (contains (lit "gum_es_asset_new") text) eqn:Enew.
    { eexists. split; [apply Hdie | done]. }
    eexists. split; [done|]. intros _ Ho. apply contains_spec in Ho. congruence.
  - exists "Usage: script.py <frida_root_dir>"%string. split; [|done].
    unfold main. by apply Nat.eqb_neq in Hargv as ->.
Qed.

(** The theorem at a file that has the entry list but no declaration anchor:
    the entry is inserted in memory, the second patch dies, nothing is
    written. *)
Lemma missing_anchor_not_committed_witness :
  let w := {| target_file := Some sample_no_declaration |} in
  apply_patches [] sample_no_declaration w
  = (inl "Declaration anchor not found"%string, w)
  ∧ main [lit "gum_quick_patcher.py"; lit "frida"] w
    = (inl "Declaration anchor not found"%string, w).
Proof.
  intros w.
  destruct (missing_anchor_not_committed DeclarationPatch []
              sample_no_declaration sample_no_declaration_entry w)
    as (Hpatches & Hmain & _).
  - vm_compute. reflexivity.
  - apply contains_false. vm_compute. reflexivity.
  - apply contains_false. vm_compute. reflexivity.
  - split; [exact Hpatches|].
    destruct (Hmain [lit "gum_quick_patcher.py"; lit "frida"] eq_refl)
      as (msg & Hrun & Hmsg).
    rewrite Hrun. f_equal. f_equal. apply Hmsg; [reflexivity|].
    apply contains_spec. vm_compute. reflexivity.
Defined.

End MissingAnchor.

(** ** The patcher: idempotence *)

Section Idempotence.

Import Patcher.

Lemma unsplittable_entry : unsplittable ENTRY_TO_ADD.
Proof. split; compute_done. Qed.

Lemma unsplittable_declaration : unsplittable DECLARE_LINE.
Proof. split; compute_done. Qed.

Lemma unsplittable_marker : unsplittable (lit "gum_es_asset_new").
Proof. split; compute_done. Qed.

Lemma build_function_marker (variant_body : variant) :
  occurs (lit "GUMJS_DEFINE_FUNCTION (gumjs_script_load_bytecode)")
    match variant_body with
    | Variant1 => build_function FUNC_BODY_VARIANT_1
    | Variant2 => build_function FUNC_BODY_VARIANT_2
    end.
Proof. apply contains_spec. by destruct variant_body; vm_compute. Qed.

Lemma detect_variant_ok (text : str) (w w' : fs) (v : variant) :
  detect_variant text w = (inr v, w') →
  w' = w ∧ occurs (lit "gum_es_asset_new") text.
Proof.
  unfold detect_variant.
  destruct (contains (lit "gum_es_asset_new_take") text) eqn:Etake.
  { intros [_ <-]%ret_inv. split; [done|].
    apply contains_spec in Etake.
    eapply occurs_trans; [apply new_in_new_take | done]. }
  destruct (contains (lit "gum_es_asset_new") text) eqn:Enew; [|done].
  intros [_ <-]%ret_inv. split; [done|]. by apply contains_spec.
Qed.

Lemma detect_variant_total (text : str) (w : fs) :
  occurs (lit "gum_es_asset_new") text →
  ∃ v, detect_variant text w = (inr v, w).
Proof.
  intros Ho%contains_spec. unfold detect_variant. rewrite Ho.
  destruct (contains (lit "gum_es_asset_new_take") text); by eexists.
Qed.

(** A patch whose detection literal is present returns the buffer as it
    is. *)
Lemma patch_entry_noop (text : str) (w : fs) :
  occurs ENTRY_TO_ADD text → patch_entry text w = (inr text, w).
Proof. intros Ho%contains_spec. unfold patch_entry. by rewrite Ho. Qed.

Lemma patch_declaration_noop (text : str) (w : fs) :
  occurs DECLARE_LINE text → patch_declaration text w = (inr text, w).
Proof. intros Ho%contains_spec. unfold patch_declaration. by rewrite Ho. Qed.

Lemma patch_implementation_noop (impl text : str) (w : fs) :
  occurs (lit "GUMJS_DEFINE_FUNCTION (gumjs_script_load_bytecode)") text →
  patch_implementation impl text w = (inr text, w).
Proof. intros Ho%contains_spec. unfold patch_implementation. by rewrite Ho. Qed.

(** What a successful run has done. *)
Lemma main_success (argv : list str) (w w' : fs) (u : unit) :
  main argv w = (inr u, w') →
  ∃ text t1 t2 t3 v,
    length argv = 2%nat ∧ target_file w = Some text
    ∧ detect_variant text w = (inr v, w)
    ∧ patch_entry text w = (inr t1, w)
    ∧ patch_declaration t1 w = (inr t2, w)
    ∧ patch_implementation
        match v with
        | Variant1 => build_function FUNC_BODY_VARIANT_1
        | Variant2 => build_function FUNC_BODY_VARIANT_2
        end t2 w = (inr t3, w)
    ∧ w' = {| target_file := Some t3 |}.
Proof.
  destruct (decide (length argv = 2%nat)) as [Hargv|Hargv]; cycle 1.
  { unfold main. by apply Nat.eqb_neq in Hargv as ->. }
  destruct (target_file w) as [text|] eqn:Ht; cycle 1.
  { unfold main. rewrite Hargv. cbn [Nat.eqb negb].
    unfold bind at 1, exists_file. by rewrite Ht. }
  rewrite (main_run _ _ text) by done. unfold bind at 1.
  pose proof (detect_variant_fs text w) as H0.
  destruct (detect_variant text w) as [[m|v] w0] eqn:E0; simpl in H0; subst w0;
    [done|].
  unfold apply_patches. unfold bind at 1.
  pose proof (patch_entry_fs text w) as H1.
  destruct (patch_entry _ w) as [[m1|t1] w1] eqn:E1; simpl in H1; subst w1;
    [done|].
  unfold bind at 1. pose proof (patch_declaration_fs t1 w) as H2.
  destruct (patch_declaration _ w) as [[m2|t2] w2] eqn:E2; simpl in H2; subst w2;
    [done|].
  unfold bind at 1.
  match goal with |- context [patch_implementation ?i _ _] =>
    pose proof (patch_implementation_fs i t2 w) as H3;
    destruct (patch_implementation i t2 w) as [[m3|t3] w3] eqn:E3
  end; simpl in H3; subst w3; [done|].
  unfold write_text. intros H. inversion H; subst.
  by exists text, t1, t2, t3, v.
Qed.

(** C2. The patcher is idempotent: running it on the file a first run left
    gives that same file.  When the first run died, the file is the original
    one and the second run dies alike; when it succeeded, the second run
    finds the entry literal, the declaration line and the marker of the
    defined function, so that each of the three patches returns its buffer
    unchanged, and writes the same text back. *)
Theorem patcher_idempotent (argv : list str) (w : fs) :
  (main argv (main argv w).2).2 = (main argv w).2
  ∧ ∀ w1, main argv w = (inr tt, w1) →
      ∃ t, target_file w1 = Some t
        ∧ occurs ENTRY_TO_ADD t ∧ occurs DECLARE_LINE t
        ∧ occurs (lit "GUMJS_DEFINE_FUNCTION (gumjs_script_load_bytecode)") t
        ∧ patch_entry t w1 = (inr t, w1)
        ∧ patch_declaration t w1 = (inr t, w1)
        ∧ (∀ impl, patch_implementation impl t w1 = (inr t, w1))
        ∧ main argv w1 = (inr tt, w1).
Proof.
  assert (∀ w1, main argv w = (inr tt, w1) →
      ∃ t, target_file w1 = Some t
        ∧ occurs ENTRY_TO_ADD t ∧ occurs DECLARE_LINE t
        ∧ occurs (lit "GUMJS_DEFINE_FUNCTION (gumjs_script_load_bytecode)") t
        ∧ patch_entry t w1 = (inr t, w1)
        ∧ patch_declaration t w1 = (inr t, w1)
        ∧ (∀ impl, patch_implementation impl t w1 = (inr t, w1))
        ∧ main argv w1 = (inr tt, w1)) as Hsecond.
  { intros w1 Hrun.
    apply main_success in Hrun
      as (text & t1 & t2 & t3 & v & Hargv & Ht & Hv & H1 & H2 & H3 & ->).
    apply detect_variant_ok in Hv as [_ Hm].
    apply patch_entry_ok in H1 as (_ & I1 & O1).
    apply patch_declaration_ok in H2 as (_ & I2 & O2).
    apply patch_implementation_ok in H3 as (_ & I3 & O3);
      [|apply build_function_marker].
    assert (occurs ENTRY_TO_ADD t3) as OE.
    { do 2 (eapply anchored_insertion_occurs;
              [apply unsplittable_entry | eassumption |]). done. }
    assert (occurs DECLARE_LINE t3) as OD.
    { eapply anchored_insertion_occurs;
        [apply unsplittable_declaration | eassumption | done]. }
    assert (occurs (lit "gum_es_asset_new") t3) as OM.
    { do 3 (eapply anchored_insertion_occurs;
              [apply unsplittable_marker | eassumption |]). done. }
    exists t3. split_and!; try done.
    - by apply patch_entry_noop.
    - by apply patch_declaration_noop.
    - intros impl. by apply patch_implementation_noop.
    - rewrite (main_run _ _ t3) by done. unfold bind at 1.
      destruct (detect_variant_total t3 {| target_file := Some t3 |} OM)
        as [v' ->].
      unfold apply_patches. unfold bind at 1. rewrite patch_entry_noop by done.
      unfold bind at 1. rewrite patch_declaration_noop by done.
      unfold bind at 1. by rewrite patch_implementation_noop by done. }
  split; [|done].
  destruct (main argv w) as [[msg|[]] w1] eqn:Hrun; simpl.
  - pose proof (main_dies_fs _ _ _ _ Hrun) as ->. by rewrite Hrun.
  - destruct (Hsecond w1 eq_refl) as (t & _ & _ & _ & _ & _ & _ & _ & ->). done.
Qed.

(** The theorem at a file on which the three patches apply. *)
Lemma patcher_idempotent_witness :
  let argv := [lit "gum_quick_patcher.py"; lit "frida"] in
  let w := {| target_file := Some sample_unpatched |} in
  ∃ t, target_file (main argv w).2 = Some t
    ∧ occurs ENTRY_TO_ADD t ∧ occurs DECLARE_LINE t
    ∧ occurs (lit "GUMJS_DEFINE_FUNCTION (gumjs_script_load_bytecode)") t
    ∧ patch_entry t (main argv w).2 = (inr t, (main argv w).2)
    ∧ patch_declaration t (main argv w).2 = (inr t, (main argv w).2)
    ∧ (∀ impl, patch_implementation impl t (main argv w).2
               = (inr t, (main argv w).2))
    ∧ main argv (main argv w).2 = (inr tt, (main argv w).2).
Proof.
  intros argv w.
  apply (proj2 (patcher_idempotent argv w)).
  vm_compute. reflexivity.
Defined.

End Idempotence.

(** ** The shuffler: the comment fix-up pass *)

Section CommentFixup.

Import Shuffler.

(** C8. On the two lines "/* note" and "DEF(x,1)" the pass closes the
    comment on a line of its own, between the comment line and the definition
    line: the output has three lines, "/* note", " */" and "DEF(x,1)". *)
Theorem fixup_scenario_c :
  writelines (fix_multiline_trailing_comments
                (readlines (lit ("/* note" +:+ nl +:+ "DEF(x,1)" +:+ nl))))
  = lit ("/* note" +:+ nl +:+ " */" +:+ nl +:+ "DEF(x,1)" +:+ nl)
  ∧ length (fix_multiline_trailing_comments
              (readlines (lit ("/* note" +:+ nl +:+ "DEF(x,1)" +:+ nl)))) = 3%nat.
Proof. split; vm_compute; reflexivity. Qed.

(** The output is not the two lines "/* note */" and "DEF(x,1)". *)
Lemma fixup_scenario_c_differs :
  writelines (fix_multiline_trailing_comments
                (readlines (lit ("/* note" +:+ nl +:+ "DEF(x,1)" +:+ nl))))
  ≠ lit ("/* note */" +:+ nl +:+ "DEF(x,1)" +:+ nl).
Proof. vm_compute. discriminate. Qed.








(** [fix_step] by cases: what it emits and the flag it leaves. *)
Lemma fix_step_out (b : bool) (line : str) :
  (fix_step b line).1
  = let l := rstrip_nl line in
    if contains (lit "*/") l && negb (contains (lit "/*") l) && negb b
    then [(lit "/* " ++ l) ++ lit nl]
    else (if b && (bool_decide (is_Some (match_DEF l)) || match_directive l)
          then [lit (" */" +:+ nl)] else []) ++ [l ++ lit nl].
Proof.
  unfold fix_step. cbv zeta.
  destruct (contains (lit "*/") (rstrip_nl line)),
    (contains (lit "/*") (rstrip_nl line)), b; reflexivity.
Qed.












End CommentFixup.

(** ** Computations over the random sources *)

Section Returns.

Import Rand.

Lemma returns_ret {A} (a : A) (P : A → Prop) : P a → returns (ret a) P.
Proof. intros Ha t. by exists a, t. Qed.

Lemma returns_bind {A B} (m : rand A) (k : A → rand B)
    (P : A → Prop) (Q : B → Prop) :
  returns m P → (∀ a, P a → returns (k a) Q) → returns (bind m k) Q.
Proof.
  intros Hm Hk t. destruct (Hm t) as (a & t' & Hrun & Ha).
  unfold bind. rewrite Hrun. by apply Hk.
Qed.

Lemma returns_lift {A} (o : option A) (a : A) (P : A → Prop) :
  o = Some a → P a → returns (lift o) P.
Proof. intros -> Ha. by apply returns_ret. Qed.

Lemma returns_lift_eq {A} (o : option A) (a : A) :
  o = Some a → returns (lift o) (λ x, x = a).
Proof. intros ->. by apply returns_ret. Qed.

Lemma returns_weaken {A} (m : rand A) (P Q : A → Prop) :
  returns m P → (∀ a, P a → Q a) → returns m Q.
Proof.
  intros Hm HPQ t. destruct (Hm t) as (a & t' & Hrun & Ha). eauto.
Qed.

Lemma returns_randbelow (n : Z) :
  0 < n → returns (randbelow n) (λ x, 0 ≤ x < n).
Proof.
  intros Hn t. unfold randbelow. apply Z.ltb_lt in Hn as Hn'. rewrite Hn'.
  eexists _, _. split; [reflexivity|]. by apply Z.mod_pos_bound.
Qed.

Lemma returns_token_bytes (n : nat) :
  returns (token_bytes n)
    (λ bs, length bs = n ∧ Forall (λ b, 0 ≤ b < 256) bs).
Proof.
  induction n as [|n IH]; simpl.
  - by apply returns_ret.
  - eapply returns_bind; [by apply returns_randbelow|]. intros b Hb.
    eapply returns_bind; [apply IH|]. intros bs [Hlen Hbs].
    apply returns_ret. split; [simpl; lia | by constructor].
Qed.

Lemma returns_choice {A} (seq : list A) :
  seq ≠ [] → returns (choice seq) (λ x, x ∈ seq).
Proof.
  intros Hne. unfold choice.
  eapply returns_bind.
  { apply returns_randbelow. destruct seq; [done|]. simpl. lia. }
  intros i Hi. cbv beta in Hi.
  destruct (lookup_lt_is_Some_2 seq (Z.to_nat i)) as [x Hx]; [lia|].
  eapply returns_lift; [done|]. by eapply list_elem_of_lookup_2.
Qed.

Lemma returns_for_each {S X} (f : S → X → rand S) (I : S → Prop)
    (st : S) (xs : list X) :
  (∀ st x, I st → x ∈ xs → returns (f st x) I) →
  I st → returns (Shuffler.for_each f st xs) I.
Proof.
  revert st. induction xs as [|x xs IH]; intros st Hf Hst; simpl.
  - by apply returns_ret.
  - eapply returns_bind; [apply Hf; [done | left]|].
    intros st' Hst'. apply IH; [|done].
    intros st0 x0 H0 Hx0. apply Hf; [done | by right].
Qed.

End Returns.

(** ** Lists as multisets *)

Lemma Forall2_impl_elem {X Y} (P Q : X → Y → Prop) (xs : list X) (ys : list Y) :
  Forall2 P xs ys → (∀ x y, x ∈ xs → P x y → Q x y) → Forall2 Q xs ys.
Proof.
  induction 1 as [|x y xs ys Hxy Hrest IH]; intros Himp; constructor.
  - apply Himp; [left | done].
  - apply IH. intros x' y' Hin. apply Himp. by right.
Qed.

Section Multisets.

Context `{Countable A}.

Implicit Types l k : list A.

Local Abbreviation bag l := (list_to_set_disj l : gmultiset A).

Lemma bag_Permutation l k : bag l = bag k → l ≡ₚ k.
Proof.
  revert k. induction l as [|x l IH]; intros k Hk.
  - destruct k as [|y k]; [done|]. 
    rewrite list_to_set_disj_nil, list_to_set_disj_cons in Hk. multiset_solver.
  - assert (x ∈ k) as Hx.
    { apply (elem_of_list_to_set_disj (A:=A)). rewrite <- Hk.
      rewrite list_to_set_disj_cons. multiset_solver. }
    apply elem_of_Permutation in Hx as [k' Hk'].
    rewrite Hk'. constructor. apply IH.
    rewrite Hk', !list_to_set_disj_cons in Hk. multiset_solver.
Qed.

Lemma bag_delete l i y :
  l !! i = Some y → bag l = {[+ y +]} ⊎ bag (delete i l).
Proof.
  intros Hi. rewrite <- list_to_set_disj_cons.
  by rewrite (delete_Permutation l i y) at 1.
Qed.

Lemma bag_insert l i x y :
  l !! i = Some y → bag (<[i:=x]> l) ⊎ {[+ y +]} = bag l ⊎ {[+ x +]}.
Proof.
  intros Hi. pose proof (lookup_lt_Some _ _ _ Hi) as Hlt.
  rewrite (bag_delete l i y Hi).
  rewrite (bag_delete (<[i:=x]> l) i x) by (by apply list_lookup_insert_eq).
  replace (delete i (<[i:=x]> l)) with (delete i l); [multiset_solver|].
  rewrite !delete_take_drop, take_insert_ge, drop_insert_lt by lia. done.
Qed.

(** A swap of two positions in range goes through and permutes the
    list. *)
Lemma swap_in_range l i j :
  (i < length l)%nat → (j < length l)%nat →
  ∃ l', Rand.swap l i j = Some l' ∧ l' ≡ₚ l ∧ length l' = length l.
Proof.
  intros Hi Hj. unfold Rand.swap.
  destruct (lookup_lt_is_Some_2 l i Hi) as [xi Hxi].
  destruct (lookup_lt_is_Some_2 l j Hj) as [xj Hxj].
  rewrite Hxi, Hxj. eexists. split; [done|]. split; [|by rewrite !length_insert].
  apply bag_Permutation.
  destruct (decide (i = j)) as [->|Hij].
  - assert (xi = xj) as -> by congruence.
    by rewrite list_insert_insert_eq, list_insert_id.
  - pose proof (bag_insert l i xj xi Hxi) as H1.
    pose proof (bag_insert (<[i:=xj]> l) j xi xj) as H2.
    rewrite list_lookup_insert_ne in H2 by done. specialize (H2 Hxj).
    multiset_solver.
Qed.

Lemma returns_shuffle_loop (i : nat) l :
  (i < length l)%nat ∨ l = [] ∧ i = 0%nat →
  returns (Rand.shuffle_loop i l) (λ l', l' ≡ₚ l).
Proof.
  revert l. induction i as [|i IH]; intros l Hi.
  - by apply returns_ret.
  - destruct Hi as [Hi|[_ ?]]; [|done]. cbn [Rand.shuffle_loop].
    eapply returns_bind; [apply returns_randbelow; lia|].
    intros j Hj. cbv beta in Hj.
    destruct (swap_in_range l (S i) (Z.to_nat j)) as (l' & Hsw & Hp & Hlen);
      [done | lia |].
    eapply returns_bind; [by apply returns_lift_eq|].
    intros ? ->. eapply returns_weaken; [apply IH; left; lia|].
    intros l'' Hl''. by rewrite Hl''.
Qed.

Lemma returns_shuffle l : returns (Rand.shuffle l) (λ l', l' ≡ₚ l).
Proof.
  apply returns_shuffle_loop. destruct l; [by right | left; simpl; lia].
Qed.

(** Writing values over the values held at distinct positions. *)
Lemma store_each_bag (ps : list nat) (vs olds : list A) l :
  NoDup ps → Forall2 (λ p o, l !! p = Some o) ps olds →
  length vs = length ps →
  ∃ l', Shuffler.store_each (zip ps vs) l = Some l'
        ∧ bag l' ⊎ bag olds = bag l ⊎ bag vs.
Proof.
  intros Hnd Hold. revert vs l Hold.
  induction olds as [|o olds IH] in ps, Hnd |- *; intros vs l Hold Hlen.
  - apply Forall2_nil_inv_r in Hold as ->. destruct vs; [|done].
    exists l. split; [done|]. multiset_solver.
  - apply Forall2_cons_inv_r in Hold as (p & ps' & Hp & Hold & ->).
    destruct vs as [|v vs]; [done|]. apply list.NoDup_cons in Hnd as [Hnp Hnd].
    cbn [zip zip_with Shuffler.store_each]. unfold Shuffler.store.
    pose proof (lookup_lt_Some _ _ _ Hp) as Hlt.
    rewrite decide_True by done.
    destruct (IH ps' Hnd vs (<[p:=v]> l)) as (l' & Hrun & Hbag).
    + eapply Forall2_impl_elem; [done|].
      intros p' o' Hin Ho'. rewrite list_lookup_insert_ne; [done|].
      intros ->. done.
    + simpl in Hlen. lia.
    + exists l'. split; [done|].
      pose proof (bag_insert l p v o Hp).
      rewrite !list_to_set_disj_cons. multiset_solver.
Qed.

(** Popping distinct positions from the highest down. *)
Lemma pop_each_bag (idxs : list nat) (olds : list A) l :
  StronglySorted (λ i j, (j < i)%nat) idxs →
  Forall2 (λ i o, l !! i = Some o) idxs olds →
  ∃ l', Shuffler.pop_each idxs l = Some l' ∧ bag l = bag olds ⊎ bag l'.
Proof.
  intros Hs. revert l olds. induction Hs as [|i idxs Hs IH Hlt]; intros l olds Hold.
  - apply Forall2_nil_inv_l in Hold as ->. exists l. split; [done|].
    multiset_solver.
  - apply Forall2_cons_inv_l in Hold as (o & olds' & Hi & Hold & ->).
    cbn [Shuffler.pop_each]. unfold Shuffler.pop. rewrite Hi.
    destruct (IH (delete i l) olds') as (l' & Hrun & Hbag).
    + eapply Forall2_impl_elem; [done|].
      intros j o' Hin Ho'. rewrite list_lookup_delete_lt; [done|].
      exact (proj1 (list.Forall_forall _ _) Hlt j Hin).
    + exists l'. split; [done|]. rewrite (bag_delete l i o Hi), Hbag.
      rewrite list_to_set_disj_cons. multiset_solver.
Qed.

End Multisets.

(** ** The shuffler: positions and the index of opcodes *)

Section Positions.

Import Shuffler.

Lemma enumerate_from_fst {A} (k : nat) (l : list A) :
  (enumerate_from k l).*1 = seq k (length l).
Proof.
  revert k. induction l as [|x l IH]; intros k; [done|].
  simpl. by rewrite IH.
Qed.

Lemma enumerate_from_elem {A} (k : nat) (l : list A) (p : nat * A) :
  p ∈ enumerate_from k l → (k ≤ p.1)%nat ∧ l !! (p.1 - k)%nat = Some p.2.
Proof.
  revert k. induction l as [|x l IH]; intros k; simpl.
  - by intros ?%elem_of_nil.
  - intros [->|Hin]%elem_of_cons.
    + simpl. by rewrite Nat.sub_diag.
    + apply IH in Hin as [Hk Hl]. split; [lia|].
      by replace (p.1 - k)%nat with (S (p.1 - S k)) by lia.
Qed.

(** The positions a filter of [enumerate] selects are distinct and hold the
    lines selected with them. *)
Lemma selected_positions {A} (P : nat * A → Prop) `{!∀ p, Decision (P p)}
    (l : list A) :
  NoDup (filter P (enumerate l)).*1
  ∧ Forall2 (λ i x, l !! i = Some x)
      (filter P (enumerate l)).*1 (filter P (enumerate l)).*2.
Proof.
  split.
  - eapply sublist_NoDup; [|apply fmap_sublist, sublist_filter].
    unfold enumerate. rewrite enumerate_from_fst. apply NoDup_seq.
  - assert (Forall (λ p, l !! p.1 = Some p.2) (filter P (enumerate l))) as Hall.
    { apply list.Forall_forall. intros p [_ Hp]%list_elem_of_filter.
      apply enumerate_from_elem in Hp as [_ Hp]. by rewrite Nat.sub_0_r in Hp. }
    induction Hall as [|p ps Hp _ IH]; [constructor|].
    by constructor.
Qed.

Lemma opcode_index_lookup (lines : list str) (op : list N) (i : nat) :
  opcode_index lines !! op = Some i →
  ∃ line, lines !! i = Some line ∧ extract_opcode line = Some op.
Proof.
  unfold opcode_index.
  assert (∀ (L : list (nat * list N)) (m0 : gmap (list N) nat),
    foldl (λ m p, match extract_opcode p.2 with
                  | Some op => <[op := p.1]> m
                  | None => m
                  end) m0 L !! op = Some i →
    m0 !! op = Some i
    ∨ ∃ line, (i, line) ∈ L ∧ extract_opcode line = Some op) as Hfold.
  { induction L as [|[j line] L IH]; intros m0; simpl; [by left|].
    intros [Hm|(line' & Hin & Hex)]%IH.
    - destruct (extract_opcode line) as [op'|] eqn:E; [|by left].
      destruct (decide (op' = op)) as [->|Hne].
      + rewrite lookup_insert_eq in Hm. injection Hm as ->.
        right. exists line. split; [left | done].
      + rewrite lookup_insert_ne in Hm by done. by left.
    - right. exists line'. split; [by right | done]. }
  intros [Hm|(line & Hin & Hex)]%Hfold.
  - by rewrite lookup_empty in Hm.
  - exists line. split; [|done].
    apply enumerate_from_elem in Hin as [_ Hl]. simpl in Hl.
    by rewrite Nat.sub_0_r in Hl.
Qed.

(** The indices of the names of a block: in range, and distinct when the
    names are. *)
Lemma block_indices_valid (lines : list str) (block : list str) :
  Forall (λ i, is_Some (lines !! i))
    (omap (λ op, opcode_index lines !! op) block).
Proof.
  apply list.Forall_forall. intros i (op & _ & Hi)%list_elem_of_omap.
  apply opcode_index_lookup in Hi as (line & Hl & _). eauto.
Qed.

Lemma block_indices_NoDup (lines : list str) (block : list str) :
  NoDup block → NoDup (omap (λ op, opcode_index lines !! op) block).
Proof.
  induction 1 as [|op block Hnotin Hnd IH]; simpl; [constructor|].
  destruct (opcode_index lines !! op) as [i|] eqn:E; [|done].
  constructor; [|done].
  intros (op' & Hin & Hi)%list_elem_of_omap.
  apply opcode_index_lookup in E as (l1 & Hl1 & Hop).
  apply opcode_index_lookup in Hi as (l2 & Hl2 & Hop').
  assert (op' = op) as -> by congruence. done.
Qed.

Lemma mapM_lookup_total {A} (l : list A) (idxs : list nat) :
  Forall (λ i, is_Some (l !! i)) idxs →
  ∃ k, mapM (λ i, l !! i) idxs = Some k ∧ k = omap (λ i, l !! i) idxs
       ∧ Forall2 (λ i x, l !! i = Some x) idxs k.
Proof.
  induction 1 as [|i idxs [x Hx] _ (k & Hk & Hk' & HF)].
  - by exists [].
  - exists (x :: k). split_and!.
    + apply mapM_Some. constructor; [done|]. by apply mapM_Some.
    + simpl. by rewrite Hx, Hk'.
    + by constructor.
Qed.

Lemma descending_strict (idxs : list nat) :
  NoDup idxs → StronglySorted descending idxs →
  StronglySorted (λ i j, (j < i)%nat) idxs.
Proof.
  intros Hnd Hs. induction Hs as [|i idxs Hs IH Hall]; [constructor|].
  apply list.NoDup_cons in Hnd as [Hni Hnd].
  constructor; [by apply IH|].
  apply list.Forall_forall. intros j Hj.
  pose proof (proj1 (list.Forall_forall _ _) Hall j Hj) as Hle.
  unfold descending in Hle.
  destruct (decide (j = i)) as [->|]; [done | lia].
Qed.

End Positions.

(** ** The shuffler: every step permutes the lines *)

Section GroupSteps.

Import Rand Shuffler.

Local Abbreviation bag l := (list_to_set_disj l : gmultiset (list N)).

Lemma returns_random : returns random (λ _, True).
Proof.
  unfold random. eapply returns_bind; [by apply returns_randbelow|].
  intros k _. by apply returns_ret.
Qed.

Lemma flat_shuffle_perm (names lines : list str) :
  returns (flat_shuffle names lines) (λ out, out ≡ₚ lines).
Proof.
  unfold flat_shuffle.
  set (targets := filter _ (enumerate lines)).
  destruct (selected_positions (λ p, opcode_in names p.2) lines) as [Hnd Hold].
  fold targets in Hnd, Hold.
  eapply returns_bind; [apply returns_shuffle|]. intros bucket Hb.
  cbv beta in Hb.
  destruct (store_each_bag (targets.*1) bucket (targets.*2) lines Hnd Hold)
    as (out & Hrun & Hbag).
  { by rewrite Hb, !length_fmap. }
  eapply returns_lift; [done|]. apply bag_Permutation.
  rewrite Hb in Hbag. multiset_solver.
Qed.

Lemma fallback_shuffle_perm (names lines : list str) :
  returns (fallback_shuffle names lines) (λ out, out ≡ₚ lines).
Proof.
  unfold fallback_shuffle.
  set (targets := filter _ (enumerate lines)).
  destruct (selected_positions (λ p, opcode_in names p.2) lines) as [Hnd Hold].
  fold targets in Hnd, Hold.
  eapply returns_bind.
  { apply returns_lift_eq. apply mapM_Some. exact Hold. }
  intros ? ->.
  eapply returns_bind; [apply returns_shuffle|]. intros bucket Hb.
  cbv beta in Hb.
  destruct (store_each_bag (targets.*1) bucket (targets.*2) lines Hnd Hold)
    as (out & Hrun & Hbag).
  { by rewrite Hb, !length_fmap. }
  eapply returns_lift; [done|]. apply bag_Permutation.
  rewrite Hb in Hbag. multiset_solver.
Qed.

Lemma insert_at_perm {A} (i : nat) (x : A) (l : list A) :
  insert_at i x l ≡ₚ x :: l.
Proof.
  unfold insert_at. rewrite <- (take_drop i l) at 3.
  by rewrite Permutation_middle.
Qed.

Lemma reorder_step_perm (g : group) (lines fallback : list str) (op : str) :
  returns (reorder_step g (lines, fallback) op) (λ st, st.1 ≡ₚ lines).
Proof.
  unfold reorder_step.
  eapply returns_bind; [apply returns_random|]. intros r _.
  destruct (Qle_bool r (reorder_prob g)); [|by apply returns_ret].
  destruct (opcode_index lines !! op) as [cur_idx|] eqn:E;
    [|by apply returns_ret].
  apply opcode_index_lookup in E as (line & Hline & _).
  eapply returns_bind.
  { apply returns_lift_eq. unfold pop. by rewrite Hline. }
  intros ? ->.
  set (anchors := anchors_of _ 0 (cca g) ++ anchors_of _ (-1) (ccb g)).
  eapply (returns_bind _ _ (λ _, True)).
  { destruct anchors eqn:Ea; [by apply returns_ret|].
    eapply returns_weaken; [by apply returns_choice | done]. }
  intros insert_at_ _. apply returns_ret. cbn [fst].
  rewrite insert_at_perm. symmetry. by apply delete_Permutation.
Qed.

Lemma slices_perm {A} (l block : list A) (p : Z) :
  slice_to l p ++ block ++ slice_from l p ≡ₚ block ++ l.
Proof.
  unfold slice_to, slice_from.
  rewrite Permutation_app_swap_app. by rewrite take_drop.
Qed.

Lemma relocate_step_perm (g : group) (lines block : list str) :
  NoDup block →
  returns (relocate_step g lines block) (λ out, out ≡ₚ lines).
Proof.
  intros Hnd. unfold relocate_step.
  set (block_indices := omap (λ op, opcode_index lines !! op) block).
  pose proof (block_indices_valid lines block) as Hvalid.
  pose proof (block_indices_NoDup lines block Hnd) as Hdistinct.
  fold block_indices in Hvalid, Hdistinct.
  destruct (mapM_lookup_total lines block_indices Hvalid)
    as (block_lines & Hblock & Hblock' & _).
  eapply returns_bind; [by apply returns_lift_eq|]. intros ? ->.
  (* the indices from the highest down *)
  set (sorted := merge_sort descending block_indices).
  assert (sorted ≡ₚ block_indices) as Hperm by apply merge_sort_Permutation.
  assert (StronglySorted (λ i j, (j < i)%nat) sorted) as Hsorted.
  { apply descending_strict; [by rewrite Hperm|].
    apply StronglySorted_merge_sort.
    - intros x y z. unfold descending. lia.
    - intros x y. unfold descending. lia. }
  destruct (mapM_lookup_total lines sorted) as (olds & _ & Holds & HF).
  { by rewrite Hperm. }
  destruct (pop_each_bag sorted olds lines Hsorted HF) as (rest & Hpop & Hbag).
  eapply returns_bind; [by apply returns_lift_eq|]. intros ? ->.
  set (anchors := anchors_of _ 1 (cca g) ++ anchors_of _ 0 (ccb g)).
  eapply (returns_bind _ _ (λ _, True)).
  { destruct anchors eqn:Ea.
    - unfold randint. eapply returns_bind; [apply returns_randbelow; lia|].
      intros. by apply returns_ret.
    - eapply returns_weaken; [by apply returns_choice | done]. }
  intros insert_at_ _. apply returns_ret.
  rewrite slices_perm. apply bag_Permutation.
  rewrite list_to_set_disj_app, Hbag. f_equal.
  apply (list_to_set_disj_perm (A:=list N)).
  rewrite Hblock', Holds. by rewrite Hperm.
Qed.

(** The body of the loop over the groups permutes the lines, for a group
    whose blocks name no opcode twice. *)
Lemma process_group_perm (g : group) (lines : list str) :
  Forall NoDup (relocate_blocks g) →
  returns (process_group lines g) (λ out, out ≡ₚ lines).
Proof.
  intros Hblocks. unfold process_group.
  eapply returns_bind; [apply flat_shuffle_perm|]. intros l1 H1. cbv beta in H1.
  eapply (returns_bind _ _ (λ st, st.1 ≡ₚ lines)).
  { apply (returns_for_each _ (λ st, st.1 ≡ₚ lines)); [|done].
    intros [l fb] op Hl _. eapply returns_weaken; [apply reorder_step_perm|].
    intros st Hst. cbn [fst] in *. by rewrite Hst. }
  intros [l2 fallback_shuffle_ops] H2. cbn [fst] in H2.
  eapply returns_bind; [apply fallback_shuffle_perm|]. intros l3 H3.
  cbv beta in H3.
  apply (returns_for_each _ (λ l, l ≡ₚ lines)); [|by rewrite H3].
  intros l block Hl Hin. eapply returns_weaken.
  { apply relocate_step_perm.
    exact (proj1 (list.Forall_forall _ _) Hblocks block Hin). }
  intros out Hout. cbv beta in Hout. by rewrite Hout.
Qed.

Lemma GROUPS_blocks : Forall (λ g, Forall NoDup (relocate_blocks g)) GROUPS.
Proof. repeat constructor; compute_done. Qed.

End GroupSteps.

(** ** The shuffler: names through the comment fix-up *)

Section FixupNames.

Import Shuffler.

Local Abbreviation newlines w := (Forall (λ c : N, c = 10%N) w).

Lemma skip_spaces_newlines (s w : str) :
  newlines w →
  skip_spaces (s ++ w)
  = match skip_spaces s with [] => [] | r => r ++ w end.
Proof.
  intros Hw. induction s as [|c s IH]; simpl.
  - induction Hw as [|c w -> _ IHw]; [done|]. simpl. exact IHw.
  - destruct (is_space c); [exact IH | done].
Qed.

Lemma starts_with_newlines (p s w : str) :
  10%N ∉ p → newlines w → starts_with p (s ++ w) = starts_with p s.
Proof.
  intros Hp Hw. revert s. induction p as [|c p IH]; intros s; [done|].
  apply not_elem_of_cons in Hp as [Hc Hp].
  destruct s as [|d s]; simpl.
  - destruct Hw as [|d w -> _]; [done|]. simpl.
    assert ((c =? 10)%N = false) as -> by (apply N.eqb_neq; congruence). done.
  - by rewrite IH.
Qed.

Lemma take_word_newlines (s w : str) :
  newlines w → take_word (s ++ w) = take_word s.
Proof.
  intros Hw. induction s as [|c s IH]; simpl.
  - by destruct Hw as [|d w -> _].
  - by rewrite IH.
Qed.

(** Newlines at the end of a line have no part in the name it defines. *)
Lemma extract_opcode_newlines (s w : str) :
  newlines w → extract_opcode (s ++ w) = extract_opcode s.
Proof.
  intros Hw. unfold extract_opcode, match_DEF.
  rewrite skip_spaces_newlines by done.
  destruct (skip_spaces s) as [|c r] eqn:Es; [done|].
  rewrite starts_with_newlines by (done || compute_done).
  destruct (starts_with (lit "DEF(") (c :: r)) eqn:Ed; [|done].
  apply starts_with_spec in Ed as [b Hb]. rewrite Hb, <- !app_assoc.
  change 4%nat with (length (lit "DEF(")). rewrite !drop_app_length.
  rewrite skip_spaces_newlines by done.
  destruct (skip_spaces b) as [|c' r'] eqn:Eb; [done|].
  by rewrite take_word_newlines.
Qed.

Lemma rstrip_nl_split (line : str) :
  ∃ w, newlines w ∧ line = rstrip_nl line ++ w.
Proof.
  induction line as [|c line (w & Hw & IH)]; [by exists []|].
  simpl. destruct (rstrip_nl line) as [|r0 r] eqn:E.
  - destruct (N.eqb_spec c 10) as [->|].
    + exists (10%N :: w). split; [by constructor|]. simpl in IH. by rewrite IH at 1.
    + exists w. split; [done|]. simpl in *. by rewrite IH at 1.
  - exists w. split; [done|]. simpl. by rewrite IH at 1.
Qed.

Lemma extract_opcode_emitted (line : str) :
  extract_opcode (rstrip_nl line ++ lit nl) = extract_opcode line.
Proof.
  destruct (rstrip_nl_split line) as (w & Hw & Hline).
  rewrite Hline at 2. rewrite !extract_opcode_newlines; [done..|].
  by repeat constructor.
Qed.

(** A line the pass emits defines a name only if it is the line read, which
    then defines that name. *)
Lemma fix_step_names (b : bool) (line x : str) (op : list N) :
  x ∈ (fix_step b line).1 → extract_opcode x = Some op →
  extract_opcode line = Some op.
Proof.
  rewrite fix_step_out. cbv zeta.
  destruct (_ && _ && _).
  - intros ->%list_elem_of_singleton. done.
  - intros [Hx|Hx]%elem_of_app.
    + destruct (_ && _); [|by apply elem_of_nil in Hx].
      apply list_elem_of_singleton in Hx as ->. done.
    + apply list_elem_of_singleton in Hx as ->.
      by rewrite extract_opcode_emitted.
Qed.

Lemma fix_loop_names (b : bool) (lines : list str) (x : str) (op : list N) :
  x ∈ (fix_loop b lines).1 → extract_opcode x = Some op →
  ∃ line, line ∈ lines ∧ extract_opcode line = Some op.
Proof.
  revert b. induction lines as [|line lines IH]; intros b; cbn [fix_loop].
  - by intros ?%elem_of_nil.
  - pose proof (fix_step_names b line x op) as Hstep.
    destruct (fix_step b line) as [out b1].
    specialize (IH b1). destruct (fix_loop b1 lines) as [fixed b2].
    cbn [fst] in *. intros [Hx|Hx]%elem_of_app Hop.
    + exists line. split; [left | by apply Hstep].
    + destruct (IH Hx Hop) as (l & Hl & Hlop). exists l. split; [by right | done].
Qed.

Lemma fix_loop_length (b : bool) (lines : list str) :
  (length lines ≤ length (fix_loop b lines).1)%nat.
Proof.
  revert b. induction lines as [|line lines IH]; intros b; cbn [fix_loop]; [done|].
  pose proof (fix_step_out b line) as Hout.
  destruct (fix_step b line) as [out b1].
  specialize (IH b1). destruct (fix_loop b1 lines) as [fixed b2].
  cbn [fst] in *. rewrite length_app. 
  assert (1 ≤ length out)%nat; [|simpl; lia].
  rewrite Hout. cbv zeta. destruct (_ && _ && _); [done|].
  rewrite length_app. simpl. lia.
Qed.

(** The pass never drops a line and never adds a name. *)
Lemma fixup_length_names (lines : list str) :
  (length lines ≤ length (fix_multiline_trailing_comments lines))%nat
  ∧ set_of_names (fix_multiline_trailing_comments lines) ⊆ set_of_names lines.
Proof.
  unfold fix_multiline_trailing_comments.
  pose proof (fix_loop_length false lines) as Hlen.
  pose proof (fix_loop_names false lines) as Hnames.
  destruct (fix_loop false lines) as [fixed inside]. cbn [fst] in *.
  assert (∀ x op, x ∈ (if inside then fixed ++ [lit (" */" +:+ nl)] else fixed) →
                  extract_opcode x = Some op →
                  ∃ line, line ∈ lines ∧ extract_opcode line = Some op) as Hn.
  { intros x op Hx Hop. destruct inside; [|by eapply Hnames].
    apply elem_of_app in Hx as [Hx|Hx]; [by eapply Hnames|].
    apply list_elem_of_singleton in Hx as ->. done. }
  split.
  - destruct inside; [|done]. rewrite length_app. simpl. lia.
  - intros op. unfold set_of_names. rewrite !elem_of_list_to_set.
    rewrite !list_elem_of_omap. intros (x & Hx & Hop).
    destruct (Hn x op Hx Hop) as (line & Hline & Hlop). eauto.
Qed.

End FixupNames.

(** ** The shuffler: the whole run *)

Section WholeRun.

Import Rand Shuffler.

(** C3, as the script does it.  On every table and every tape the loop over
    the groups (flat shuffles, constrained reorders, fallback shuffles and
    block relocations) returns a permutation of the lines: the set of names
    and the number of lines are those of the input.  The comment fix-up that
    follows never drops a line and never adds a name, so the lines written
    are at least as many as the lines read and define no other names. *)
Theorem groups_preserve_names_and_count (lines : list str) :
  returns (for_each process_group lines GROUPS)
    (λ out, out ≡ₚ lines
            ∧ set_of_names out = set_of_names lines
            ∧ length out = length lines)
  ∧ returns (run lines)
      (λ out, (length lines ≤ length out)%nat
              ∧ set_of_names out ⊆ set_of_names lines).
Proof.
  assert (returns (for_each process_group lines GROUPS) (λ out, out ≡ₚ lines))
    as Hloop.
  { apply (returns_for_each _ (λ l, l ≡ₚ lines)); [|done].
    intros l g Hl Hg. eapply returns_weaken.
    - apply process_group_perm.
      exact (proj1 (list.Forall_forall _ _) GROUPS_blocks g Hg).
    - intros out Hout. cbv beta in Hout. by rewrite Hout. }
  split.
  - eapply returns_weaken; [exact Hloop|]. intros out Hout.
    split_and!; [done| |by rewrite Hout].
    unfold set_of_names. by rewrite Hout.
  - unfold run. eapply returns_bind; [exact Hloop|]. intros out Hout.
    cbv beta in Hout. apply returns_ret.
    destruct (fixup_length_names out) as [Hlen Hnames].
    split; [by rewrite <- Hout|].
    replace (set_of_names lines) with (set_of_names out); [done|].
    unfold set_of_names. by rewrite Hout.
Qed.

(** The run on a table whose comment is closed on a definition line: the
    fix-up closes the comment before the directive and comments the
    definition out, so one line is added and the name is lost. *)
Lemma run_changes_count_and_names :
  fst <$> run stray_closer_table zero_tape
  = Some [lit ("/* n" +:+ nl); lit (" */" +:+ nl); lit ("#if 1" +:+ nl);
          lit ("/* DEF(x,1) */" +:+ nl)]
  ∧ ¬ (∀ out, fst <$> run stray_closer_table zero_tape = Some out →
         set_of_names out = set_of_names stray_closer_table
         ∧ length out = length stray_closer_table).
Proof.
  assert (fst <$> run stray_closer_table zero_tape
          = Some [lit ("/* n" +:+ nl); lit (" */" +:+ nl); lit ("#if 1" +:+ nl);
                  lit ("/* DEF(x,1) */" +:+ nl)]) as Hrun
    by (vm_compute; reflexivity).
  split; [done|]. intros Hclaim.
  destruct (Hclaim _ Hrun) as [_ Hlen]. vm_compute in Hlen. discriminate.
Qed.

End WholeRun.

(** ** hashlib: test vectors and digest sizes *)

Section Digests.

Import Hashlib.

Example sha256_abc :
  sha256 (ascii_bytes "abc")
  = fromhex "ba7816bf8f01cfea414140de5dae2223b00361a396177a9cb410ff61f20015ad".
Proof. vm_compute. reflexivity. Qed.

Example sha512_abc :
  sha512 (ascii_bytes "abc")
  = fromhex ("ddaf35a193617abacc417349ae20413112e6fa4e89a97ea20a9eeee64b55d39a"
             +:+ "2192992a274fc1a836ba3c23a3feebbd454d4423643ce80e2a9ac94fa54ca49f").
Proof. vm_compute. reflexivity. Qed.

(** Two blocks, and bytes of every value. *)
Example sha256_range_200 :
  sha256 (Z.of_nat <$> seq 0 200)
  = fromhex "1901da1c9f699b48f6b2636e65cbf73abf99d0441ef67f5c540a42f7051dec6f".
Proof. vm_compute. reflexivity. Qed.

Example sha512_range_200 :
  sha512 (Z.of_nat <$> seq 0 200)
  = fromhex ("986058e9895e2c2ab8f9e8cbdf801db12a44842a56a91d5a4e87b1fc98b29372"
             +:+ "2c4664142e42c3c551ff898646268cd92b84ed230b8c94bed7798d4f27cd7465").
Proof. vm_compute. reflexivity. Qed.

Lemma length_be_bytes (n : nat) (x : Z) : length (be_bytes n x) = n.
Proof.
  revert x. induction n as [|n IH]; intros x; [done|].
  simpl. rewrite length_app, IH. simpl. lia.
Qed.

Lemma length_digest (alg : sha2) (msg : list Z) :
  length (digest alg msg) = (8 * word_bytes alg)%nat.
Proof.
  unfold digest.
  destruct (foldl _ _ _) as [[[[[[[a b] c] d] e] f] g] h].
  cbn [fmap list_fmap concat]. rewrite !length_app, !length_be_bytes.
  simpl. lia.
Qed.

Lemma length_sha256 (msg : list Z) : length (sha256 msg) = 32%nat.
Proof. apply length_digest. Qed.

Lemma length_sha512 (msg : list Z) : length (sha512 msg) = 64%nat.
Proof. apply length_digest. Qed.

End Digests.

(** ** The deriver: every loop returns *)

Section DeriverLoops.

Import Rand Hashlib Deriver.

Local Opaque sha256 sha512.

Lemma raises_bind {A B} (m : rand A) (k : A → rand B) (P : A → Prop) :
  returns m P → (∀ a, P a → ∀ t, k a t = None) → ∀ t, bind m k t = None.
Proof.
  intros Hm Hk t. destruct (Hm t) as (a & t' & Hrun & Ha).
  unfold bind. rewrite Hrun. by apply Hk.
Qed.

Lemma raises_bind_l {A B} (m : rand A) (k : A → rand B) :
  (∀ t, m t = None) → ∀ t, bind m k t = None.
Proof. intros Hm t. unfold bind. by rewrite Hm. Qed.

Lemma py_mod_pos (i n : nat) :
  (0 < n)%nat → py_mod i n = Some (i mod n)%nat.
Proof. by destruct n; [lia|]. Qed.

(** With a key of at least one byte the mixing comprehension goes through
    and keeps the length of the state. *)
Lemma mix_bytes_total (rnd_noise key_bytes : list Z) (r : Z) (i : nat)
    (state : list Z) :
  rnd_noise ≠ [] → key_bytes ≠ [] →
  ∃ mix, mix_bytes rnd_noise key_bytes r i state = Some mix
         ∧ length mix = length state.
Proof.
  intros Hn Hk. revert i. induction state as [|b state IH]; intros i.
  - by exists [].
  - cbn [mix_bytes].
    assert (0 < length rnd_noise)%nat as Hln by (destruct rnd_noise; [done | simpl; lia]).
    assert (0 < length key_bytes)%nat as Hlk by (destruct key_bytes; [done | simpl; lia]).
    rewrite !py_mod_pos by done.
    destruct (lookup_lt_is_Some_2 rnd_noise (i mod length rnd_noise)) as [n ->];
      [by apply Nat.mod_upper_bound, Nat.neq_0_lt_0|].
    destruct (lookup_lt_is_Some_2 key_bytes (i mod length key_bytes)) as [k ->];
      [by apply Nat.mod_upper_bound, Nat.neq_0_lt_0|].
    destruct (IH (S i)) as (mix & -> & Hlen).
    eexists. split; [done|]. simpl. by rewrite Hlen.
Qed.

(** With an empty key it raises on the first byte: the index into the key
    is a remainder by zero. *)
Lemma mix_bytes_empty_key (rnd_noise : list Z) (r : Z) (i : nat) (b : Z)
    (state : list Z) :
  mix_bytes rnd_noise [] r i (b :: state) = None.
Proof. cbn [mix_bytes]. by destruct (py_mod i (length rnd_noise)). Qed.

Lemma returns_mix_rounds (key_bytes : list Z) (todo : nat) (r : Z)
    (state : list Z) :
  key_bytes ≠ [] →
  length state = 96%nat →
  returns (mix_rounds key_bytes todo r state) (λ st, length st = 96%nat).
Proof.
  intros Hk. revert r state. induction todo as [|todo IH]; intros r state Hlen.
  - by apply returns_ret.
  - cbn [mix_rounds].
    eapply returns_bind; [apply returns_token_bytes|]. intros rnd [Hrl _].
    destruct (mix_bytes_total rnd key_bytes r 0 state) as (mix & Hmix & _);
      [by destruct rnd | done |].
    eapply returns_bind; [by apply returns_lift_eq|]. intros ? ->.
    eapply returns_bind; [apply returns_token_bytes|]. intros t16 _.
    eapply returns_bind; [apply returns_token_bytes|]. intros t8 _.
    apply IH. by rewrite length_app, length_sha512, length_sha256.
Qed.

Lemma returns_scramble (todo : nat) (state : list Z) :
  state ≠ [] →
  returns (scramble todo state) (λ st, length st = length state).
Proof.
  revert state. induction todo as [|todo IH]; intros state Hne.
  - by apply returns_ret.
  - cbn [scramble].
    assert (0 < Z.of_nat (length state)) by (destruct state; [done | simpl; lia]).
    eapply returns_bind; [by apply returns_randbelow|]. intros i Hi.
    eapply returns_bind; [by apply returns_randbelow|]. intros j Hj.
    cbv beta in Hi, Hj.
    destruct (swap_in_range state (Z.to_nat i) (Z.to_nat j))
      as (state' & Hsw & _ & Hlen); [lia | lia |].
    eapply returns_bind; [by apply returns_lift_eq|]. intros ? ->.
    eapply returns_weaken.
    + apply IH. intros ->. by destruct state.
    + intros st Hst. cbv beta in Hst. congruence.
Qed.

(** The stretching loop ends within [fuel] turns when [64 * fuel] bytes
    suffice. *)
Lemma returns_stretch (fuel : nat) (state final : list Z) (out_len : Z) :
  out_len ≤ Z.of_nat (length final) + 64 * Z.of_nat fuel →
  returns (stretch fuel state final out_len)
    (λ f, out_len ≤ Z.of_nat (length f)).
Proof.
  revert final. induction fuel as [|fuel IH]; intros final Hfuel.
  - cbn [stretch]. destruct (Z.ltb_spec (Z.of_nat (length final)) out_len); [lia|].
    by apply returns_ret.
  - cbn [stretch]. destruct (Z.ltb_spec (Z.of_nat (length final)) out_len);
      [|by apply returns_ret].
    eapply returns_bind; [apply returns_token_bytes|]. intros t32 _.
    apply IH. rewrite length_app, length_sha512. lia.
Qed.

(** The generator holds a digest of 64 bytes at all times. *)
Lemma returns_prng_byte (p : prng) :
  length p.1 = 64%nat →
  returns (prng_byte p) (λ r, length r.2.1 = 64%nat).
Proof.
  destruct p as [prng_state prng_idx]. cbn [fst]. intros Hlen.
  unfold prng_byte.
  eapply (returns_bind _ _
            (λ q : prng, length q.1 = 64%nat ∧ (q.2 < length q.1)%nat)).
  { destruct (Nat.leb_spec (length prng_state) prng_idx).
    - eapply returns_bind; [apply returns_token_bytes|]. intros t32 _.
      apply returns_ret. cbn [fst snd]. rewrite length_sha512. lia.
    - by apply returns_ret. }
  intros [st idx] [Hst Hidx]. cbn [fst snd] in *.
  destruct (lookup_lt_is_Some_2 st idx Hidx) as [b Hb].
  eapply returns_bind; [by apply returns_lift_eq|]. intros ? ->.
  by apply returns_ret.
Qed.

(** A pass swaps positions in range only: it permutes the box. *)
Lemma returns_fisher_yates_pass (i : nat) (p : prng) (sbox : list Z) :
  length p.1 = 64%nat → (i < length sbox)%nat →
  returns (fisher_yates_pass i p sbox)
    (λ r, length r.1.1 = 64%nat ∧ r.2 ≡ₚ sbox).
Proof.
  revert p sbox. induction i as [|i IH]; intros p sbox Hp Hi.
  - by apply returns_ret.
  - cbn [fisher_yates_pass].
    eapply returns_bind; [by apply returns_prng_byte|].
    intros [b p'] Hp'. cbn [fst snd] in Hp'.
    pose proof (Z.mod_pos_bound b (Z.of_nat (S i) + 1)) as Hj.
    destruct (swap_in_range sbox (S i) (Z.to_nat (b mod (Z.of_nat (S i) + 1))))
      as (sbox' & Hsw & Hperm & Hlen); [done | lia |].
    eapply returns_bind; [by apply returns_lift_eq|]. intros ? ->.
    eapply returns_weaken; [apply IH; [done | lia]|].
    intros [p'' sbox''] [Hp'' Hs'']. cbn [fst snd] in *.
    split; [done|]. by rewrite Hs''.
Qed.

Lemma bytes_of_in_range (l : list Z) :
  Forall (λ b, 0 ≤ b < 256) l → bytes_of l = Some l.
Proof.
  intros Hl. unfold bytes_of.
  replace (forallb _ l) with true; [done|].
  symmetry. apply forallb_forall. intros b Hb%list_elem_of_In.
  pose proof (proj1 (list.Forall_forall _ _) Hl b Hb) as Hr. cbv beta in Hr.
  apply andb_true_iff. split; [apply Z.leb_le | apply Z.ltb_lt]; lia.
Qed.

Lemma identity_box_bytes : Forall (λ b, 0 ≤ b < 256) (Z.of_nat <$> seq 0 256).
Proof.
  apply list.Forall_forall. intros b (n & -> & Hn)%list_elem_of_fmap.
  apply elem_of_seq in Hn. lia.
Qed.

Lemma returns_sbox_rounds (todo : nat) (r : Z) (p : prng) (sbox : list Z) :
  length p.1 = 64%nat → sbox ≡ₚ Z.of_nat <$> seq 0 256 →
  0 ≤ r → r + Z.of_nat todo ≤ 256 →
  returns (sbox_rounds todo r p sbox)
    (λ res, res.2 ≡ₚ Z.of_nat <$> seq 0 256).
Proof.
  revert r p sbox. induction todo as [|todo IH]; intros r p sbox Hp Hs Hr Hr'.
  - by apply returns_ret.
  - cbn [sbox_rounds].
    eapply returns_bind.
    { apply returns_fisher_yates_pass; [done|].
      rewrite Hs, length_fmap, length_seq. lia. }
    intros [p' sbox'] [Hp' Hs']. cbn [fst snd] in *.
    eapply returns_bind.
    { apply returns_lift_eq. apply bytes_of_in_range.
      apply Forall_take. rewrite Hs', Hs. apply identity_box_bytes. }
    intros ? ->.
    eapply returns_bind.
    { apply returns_lift_eq. unfold to_byte.
      destruct (Z.leb_spec 0 r); [|lia]. destruct (Z.ltb_spec r 256); [|lia].
      done. }
    intros ? ->.
    apply IH; [cbn [fst]; apply length_sha512 | by rewrite Hs', Hs | lia | lia].
Qed.

(** With a key of at least one byte a derivation returns, on every tape: a
    blob of the length drawn, which is 64 to 159 bytes, a box that is a
    permutation of 0..255, after 5 to 12 passes. *)
Lemma returns_derive (key_bytes : list Z) :
  key_bytes ≠ [] →
  returns (derive key_bytes)
    (λ d, 64 ≤ Z.of_nat (length (final d)) < 160
          ∧ sbox d ≡ₚ Z.of_nat <$> seq 0 256
          ∧ 5 ≤ rounds d ≤ 12).
Proof.
  intros Hk. unfold derive.
  eapply returns_bind; [by apply returns_randbelow|]. intros n1 Hn1.
  eapply returns_bind; [by apply returns_randbelow|]. intros n2 Hn2.
  eapply returns_bind; [apply returns_token_bytes|]. intros salt _.
  eapply returns_bind; [by apply returns_randbelow|]. intros n3 Hn3.
  eapply returns_bind; [apply returns_token_bytes|]. intros noise _.
  eapply returns_bind; [by apply returns_randbelow|]. intros n4 Hn4.
  cbv beta in Hn1, Hn4.
  eapply returns_bind.
  { apply returns_mix_rounds; [done|].
    by rewrite length_app, length_sha256, length_sha512. }
  intros state Hstate. cbv beta in Hstate.
  eapply returns_bind.
  { apply returns_scramble. intros ->. done. }
  intros state' Hstate'. cbv beta in Hstate'.
  eapply returns_bind.
  { apply returns_stretch. simpl. lia. }
  intros final Hfinal. cbv beta in Hfinal.
  eapply returns_bind; [apply returns_token_bytes|]. intros t64 _.
  set (prng_state := sha512 _).
  destruct (lookup_lt_is_Some_2 prng_state 0) as [b0 Hb0].
  { unfold prng_state. rewrite length_sha512. lia. }
  eapply returns_bind; [by apply returns_lift_eq|]. intros ? ->.
  assert (0 ≤ Z.land b0 7 ≤ 7) as Hland.
  { pose proof (Z.land_nonneg b0 7). 
    assert (Z.land b0 7 = b0 mod 2 ^ 3) as ->.
    { change 7 with (Z.ones 3). apply Z.land_ones. lia. }
    pose proof (Z.mod_pos_bound b0 (2 ^ 3)). lia. }
  eapply returns_bind.
  { apply returns_sbox_rounds.
    - unfold prng_state. cbn [fst]. apply length_sha512.
    - done.
    - lia.
    - lia. }
  intros [p sbox] Hsbox. cbn [snd] in Hsbox.
  apply returns_ret. cbn [Deriver.final Deriver.sbox Deriver.rounds].
  split_and!; [| |done|lia|lia].
  - unfold slice_to. rewrite length_take, bound_in_range by lia. lia.
  - unfold slice_to. rewrite length_take, bound_in_range by lia. lia.
Qed.

(** With an empty key the first mixing round raises, on every tape. *)
Lemma derive_empty_key_raises (t : tape) : derive [] t = None.
Proof.
  revert t. unfold derive.
  eapply raises_bind; [by apply returns_randbelow|]. intros n1 _.
  eapply raises_bind; [by apply returns_randbelow|]. intros n2 _.
  eapply raises_bind; [apply returns_token_bytes|]. intros salt _.
  eapply raises_bind; [by apply returns_randbelow|]. intros n3 _.
  eapply raises_bind; [apply returns_token_bytes|]. intros noise _.
  eapply raises_bind; [by apply returns_randbelow|]. intros n4 Hn4.
  cbv beta in Hn4.
  set (state := sha256 _ ++ sha512 _).
  assert (length state = 96%nat) as Hlen
    by (unfold state; by rewrite length_app, length_sha256, length_sha512).
  destruct (Z.to_nat (n4 + 6)) as [|todo] eqn:Htodo; [lia|].
  destruct state as [|b state]; [done|].
  apply raises_bind_l. cbn [mix_rounds].
  eapply raises_bind; [apply returns_token_bytes|]. intros rnd _.
  apply raises_bind_l. intros t. by rewrite mix_bytes_empty_key.
Qed.

End DeriverLoops.

(** ** The deriver: the claims *)

Section DeriverClaims.

Import Rand Hashlib Deriver.

Lemma ascii_bytes_nonempty (key : string) :
  key ≠ EmptyString → ascii_bytes key ≠ [].
Proof. by destruct key. Qed.

(** [generate_stuff_h] returns on every tape, and what it writes comes from
    a derivation on a key of at least one byte. *)
Lemma returns_generate_stuff_h (key : option string)
    (quickjs_dir_exists confirmed : bool) (P : derivation → Prop) :
  (∀ key_bytes, key_bytes ≠ [] → returns (derive key_bytes) P) →
  returns (generate_stuff_h key quickjs_dir_exists confirmed)
    (λ o, ∀ d, o = Written d → P d).
Proof.
  intros Hderive. unfold generate_stuff_h.
  destruct key as [[|a key]|]; try by apply returns_ret.
  destruct quickjs_dir_exists; cbn [negb]; [|by apply returns_ret].
  destruct confirmed; cbn [negb]; [|by apply returns_ret].
  eapply returns_bind; [by apply Hderive, ascii_bytes_nonempty|].
  intros d Hd. apply returns_ret. by intros ? [= <-].
Qed.

Lemma swap_Some_perm {A} `{Countable A} (l l' : list A) (i j : nat) :
  swap l i j = Some l' → l' ≡ₚ l.
Proof.
  intros Hsw.
  destruct (l !! i) as [xi|] eqn:Hi; cycle 1.
  { unfold swap in Hsw. rewrite Hi in Hsw. by destruct (l !! j). }
  destruct (l !! j) as [xj|] eqn:Hj; cycle 1.
  { unfold swap in Hsw. by rewrite Hj in Hsw. }
  destruct (swap_in_range l i j) as (l'' & Hsw' & Hp & _);
    [by eapply lookup_lt_Some | by eapply lookup_lt_Some |].
  congruence.
Qed.

Lemma sorted_range256 (l : list Z) : l ≡ₚ range256 → sorted l = range256.
Proof.
  intros Hl. apply (Sorted_unique Z.le).
  - apply Sorted_merge_sort. intros x y. lia.
  - unfold range256. compute_done.
  - unfold sorted. by rewrite merge_sort_Permutation.
Qed.

(** C1. Whatever the passphrase and the draws, the box is a permutation of
    0..255: sorted, it is [0, 1, ..., 255].  Every swap that goes through
    permutes the list it is made on, so every swap of a Fisher-Yates pass
    keeps the box a permutation; every call of [generate_stuff_h] returns,
    and the box it writes, if it writes, is such a permutation; and on a key
    of at least one byte the derivation returns on every tape with such a
    box. *)
Theorem sbox_is_permutation :
  (∀ (box box' : list Z) (i j : nat), swap box i j = Some box' → box' ≡ₚ box)
  ∧ (∀ key quickjs_dir_exists confirmed,
      returns (generate_stuff_h key quickjs_dir_exists confirmed)
        (λ o, ∀ d, o = Written d →
                sbox d ≡ₚ range256 ∧ sorted (sbox d) = range256))
  ∧ (∀ key_bytes, key_bytes ≠ [] →
      returns (derive key_bytes)
        (λ d, sbox d ≡ₚ range256 ∧ sorted (sbox d) = range256)).
Proof.
  assert (∀ key_bytes, key_bytes ≠ [] →
      returns (derive key_bytes)
        (λ d, sbox d ≡ₚ range256 ∧ sorted (sbox d) = range256)) as Hderive.
  { intros key_bytes Hk. eapply returns_weaken; [by apply returns_derive|].
    intros d (_ & Hbox & _). split; [done | by apply sorted_range256]. }
  split_and!; [intros box box' i j; apply swap_Some_perm| |done].
  intros key dir confirmed. by apply returns_generate_stuff_h.
Qed.

(** The theorem at the passphrase "hunter2". *)
Lemma sbox_is_permutation_witness :
  returns (derive (ascii_bytes "hunter2"))
    (λ d, sbox d ≡ₚ range256 ∧ sorted (sbox d) = range256).
Proof. apply (proj2 (proj2 sbox_is_permutation)). discriminate. Defined.

(** C4. Whatever the passphrase and the draws, the blob is 64 to 159 bytes
    long: the stretching loop, which adds 64 bytes a turn, reaches the length
    drawn, and the slice cuts the blob to that length; every call of
    [generate_stuff_h] returns, and the blob it writes, if it writes, has
    such a length; and on a key of at least one byte the derivation returns
    on every tape with such a blob. *)
Theorem blob_length_bound :
  (∀ state out_len, 0 ≤ out_len →
     returns (stretch (Z.to_nat out_len) state [] out_len)
       (λ f, out_len ≤ Z.of_nat (length f)
             ∧ Z.of_nat (length (slice_to f out_len)) = out_len))
  ∧ (∀ key quickjs_dir_exists confirmed,
      returns (generate_stuff_h key quickjs_dir_exists confirmed)
        (λ o, ∀ d, o = Written d → 64 ≤ Z.of_nat (length (final d)) < 160))
  ∧ (∀ key_bytes, key_bytes ≠ [] →
      returns (derive key_bytes)
        (λ d, 64 ≤ Z.of_nat (length (final d)) < 160)).
Proof.
  assert (∀ key_bytes, key_bytes ≠ [] →
      returns (derive key_bytes)
        (λ d, 64 ≤ Z.of_nat (length (final d)) < 160)) as Hderive.
  { intros key_bytes Hk. eapply returns_weaken; [by apply returns_derive|].
    by intros d (Hlen & _). }
  split_and!; [| |done].
  - intros state out_len Hout.
    eapply returns_weaken; [apply returns_stretch; simpl; lia|].
    intros f Hf. cbv beta in Hf. split; [done|].
    unfold slice_to. rewrite length_take, bound_in_range by lia. lia.
  - intros key dir confirmed. by apply returns_generate_stuff_h.
Qed.

(** The theorem at the passphrase "hunter2". *)
Lemma blob_length_bound_witness :
  returns (derive (ascii_bytes "hunter2"))
    (λ d, 64 ≤ Z.of_nat (length (final d)) < 160).
Proof. apply (proj2 (proj2 blob_length_bound)). discriminate. Defined.

(** C7, with the bound the code has.  The number of Fisher-Yates passes is
    5 plus the three low bits of a digest byte: one of 5, 6, ..., 12, in
    every call that writes and in every derivation on a key of at least one
    byte. *)
Theorem sbox_rounds_bound :
  (∀ key quickjs_dir_exists confirmed,
     returns (generate_stuff_h key quickjs_dir_exists confirmed)
       (λ o, ∀ d, o = Written d → 5 ≤ rounds d ≤ 12))
  ∧ (∀ key_bytes, key_bytes ≠ [] →
      returns (derive key_bytes) (λ d, 5 ≤ rounds d ≤ 12)).
Proof.
  assert (∀ key_bytes, key_bytes ≠ [] →
      returns (derive key_bytes) (λ d, 5 ≤ rounds d ≤ 12)) as Hderive.
  { intros key_bytes Hk. eapply returns_weaken; [by apply returns_derive|].
    by intros d (_ & _ & Hrounds). }
  split; [|done].
  intros key dir confirmed. by apply returns_generate_stuff_h.
Qed.

(** The theorem at the passphrase "hunter2". *)
Lemma sbox_rounds_bound_witness :
  returns (derive (ascii_bytes "hunter2")) (λ d, 5 ≤ rounds d ≤ 12).
Proof. apply (proj2 sbox_rounds_bound). discriminate. Defined.

End DeriverClaims.

(** ** The deriver: two derivations carried out *)

Section DeriverRuns.

Import Rand Hashlib Deriver.

(** The passphrase "hunter2" on the tape of ones: the blob has 65 bytes and
    the sorted box is 0..255. *)
Example hunter2_on_ones :
  (λ r, match r.1 with
        | Written d => Some (length (final d), sorted (sbox d))
        | _ => None
        end)
    <$> generate_stuff_h (Some "hunter2"%string) true true ones_tape
  = Some (Some (65%nat, range256)).
Proof. vm_compute. reflexivity. Qed.

(** The passphrase "hunter2" on the tape of ones: the box is built in
    twelve passes. *)
Lemma twelve_passes :
  (λ r, match r.1 with Written d => Some (rounds d) | _ => None end)
    <$> generate_stuff_h (Some "hunter2"%string) true true ones_tape
  = Some (Some 12)
  ∧ ¬ (5 ≤ 12 < 12).
Proof. split; [vm_compute; reflexivity | lia]. Qed.

End DeriverRuns.

(** ** The patcher: brace matching *)

Section Braces.

Import Patcher.

Lemma excess_app (a b : str) : excess (a ++ b) = excess a + excess b.
Proof. induction a as [|c a IH]; simpl; lia. Qed.

Lemma excess_other (c : char) (s : str) :
  c ≠ 123%N → c ≠ 125%N → excess (c :: s) = excess s.
Proof.
  intros H1 H2. simpl.
  destruct (N.eqb_spec c 123); [done|]. destruct (N.eqb_spec c 125); [done|]. lia.
Qed.

(** The loop returns the offset of the first closing brace at which the depth
    comes back to zero, and [-1] when there is none. *)
Lemma scan_braces_spec (s : str) (i d r : Z) :
  scan_braces s i d = r → 0 ≤ i →
  (r ≠ -1 → ∃ body post, s = body ++ 125%N :: post
      ∧ Z.of_nat (length body) = r - i ∧ d + excess body = 1
      ∧ ∀ p q, body = p ++ 125%N :: q → d + excess p ≠ 1)
  ∧ (r = -1 → ∀ body post, s = body ++ 125%N :: post → d + excess body ≠ 1).
Proof.
  revert i d. induction s as [|c s IH]; intros i d; cbn [scan_braces].
  { intros <- _. split; [done|]. intros _ [|??] ?; done. }
  intros Hr Hi.
  destruct (N.eqb_spec c 123) as [->|H123].
  { destruct (IH _ _ Hr) as [IH1 IH2]; [lia|]. split.
    - intros Hne. destruct (IH1 Hne) as (body & post & -> & Hl & He & Hmin).
      exists (123%N :: body), post.
      split_and!; [done|simpl; lia|simpl; lia|].
      intros [|p0 p] q; [done|]. intros [= <- ->].
      specialize (Hmin p q eq_refl). simpl. lia.
    - intros Hm1 [|b0 body] post; [done|]. intros [= <- ->].
      specialize (IH2 Hm1 _ _ eq_refl). simpl. lia. }
  destruct (N.eqb_spec c 125) as [->|H125].
  { destruct (Z.eqb_spec (d - 1) 0) as [Hd|Hd].
    - subst r. split; [|lia]. intros _. exists [], s.
      split_and!; [done|simpl; lia|simpl; lia|]. intros [|??] ?; done.
    - destruct (IH _ _ Hr) as [IH1 IH2]; [lia|]. split.
      + intros Hne. destruct (IH1 Hne) as (body & post & -> & Hl & He & Hmin).
        exists (125%N :: body), post.
        split_and!; [done|simpl; lia|simpl; lia|].
        intros [|p0 p] q; [simpl; lia|]. intros [= <- ->].
        specialize (Hmin p q eq_refl). simpl. lia.
      + intros Hm1 [|b0 body] post; [simpl; lia|]. intros [= <- ->].
        specialize (IH2 Hm1 _ _ eq_refl). simpl. lia. }
  destruct (IH _ _ Hr) as [IH1 IH2]; [lia|]. split.
  - intros Hne. destruct (IH1 Hne) as (body & post & -> & Hl & He & Hmin).
    exists (c :: body), post.
    split_and!; [done|simpl; lia|by rewrite excess_other|].
    intros [|p0 p] q; [by intros [= -> _]|]. intros [= <- ->].
    specialize (Hmin p q eq_refl). by rewrite excess_other.
  - intros Hm1 [|b0 body] post; [by intros [= -> _]|]. intros [= <- ->].
    specialize (IH2 Hm1 _ _ eq_refl). by rewrite excess_other.
Qed.

(** A stretch closed by the first brace that brings the depth to zero is
    matched. *)
Lemma first_close_matched (body : str) :
  excess body = 0 → (∀ p q, body = p ++ 125%N :: q → excess p ≠ 0) →
  matched body.
Proof.
  intros He Hmin. split; [done|].
  induction p as [|x p IH] using rev_ind; intros q Hb; [simpl; lia|].
  rewrite <- app_assoc in Hb. specialize (IH _ Hb).
  rewrite excess_app. destruct (N.eq_dec x 125%N) as [->|H125].
  - specialize (Hmin _ _ Hb). simpl. lia.
  - destruct (N.eq_dec x 123%N) as [->|H123]; [simpl; lia|].
    rewrite excess_other by done. simpl. lia.
Qed.

(** A successful [find_matching_brace] splits the text at [open_pos + 1] and
    at the returned offset, around a matched stretch. *)
Lemma find_matching_brace_matched (text : str) (open_pos r : Z) :
  -1 ≤ open_pos → find_matching_brace text open_pos = r → r ≠ -1 →
  ∃ pre body post, text = pre ++ body ++ 125%N :: post
    ∧ Z.of_nat (length pre) = open_pos + 1
    ∧ Z.of_nat (length (pre ++ body)) = r
    ∧ matched body
    ∧ ∀ p q, body = p ++ 125%N :: q → ¬ matched p.
Proof.
  intros Ho Hr Hne. unfold find_matching_brace in Hr.
  set (n := Z.to_nat (open_pos + 1)) in *.
  destruct (decide (n ≤ length text)%nat) as [Hn|Hn]; cycle 1.
  { rewrite drop_ge in Hr by lia. simpl in Hr. congruence. }
  apply scan_braces_spec in Hr as [Hr _]; [|lia].
  destruct (Hr Hne) as (body & post & Hs & Hl & He & Hmin).
  exists (take n text), body, post. split_and!.
  - rewrite <- (take_drop n text) at 1. by rewrite Hs.
  - rewrite length_take. lia.
  - rewrite length_app, length_take. lia.
  - apply first_close_matched; [lia|]. intros p q Hp. specialize (Hmin p q Hp). lia.
  - intros p q Hp [Hm _]. specialize (Hmin p q Hp). lia.
Qed.

(** X1. [find_matching_brace text open_pos] returns the offset of the first
    closing brace after [open_pos] that closes a matched stretch of text
    starting right after [open_pos]; it returns [-1] exactly when no closing
    brace after [open_pos] does. *)
Theorem find_matching_brace_first_matched (text : str) (open_pos : Z) :
  -1 ≤ open_pos →
  let r := find_matching_brace text open_pos in
  (r ≠ -1 → ∃ pre body post, text = pre ++ body ++ 125%N :: post
      ∧ Z.of_nat (length pre) = open_pos + 1
      ∧ Z.of_nat (length (pre ++ body)) = r
      ∧ matched body
      ∧ ∀ p q, body = p ++ 125%N :: q → ¬ matched p)
  ∧ (r = -1 → ∀ body post,
       drop (Z.to_nat (open_pos + 1)) text = body ++ 125%N :: post →
       ¬ matched body).
Proof.
  intros Ho r. split.
  - intros Hne. by apply (find_matching_brace_matched text open_pos r).
  - intros Hr body post Hd [He _].
    pose proof (scan_braces_spec _ (open_pos + 1) 1 r eq_refl) as [_ H]; [lia|].
    specialize (H Hr _ _ Hd). lia.
Qed.

(** The theorem on a text with a nested pair of braces. *)
Lemma find_matching_brace_first_matched_witness :
  let text := lit "f { a { b } c } d" in
  let r := find_matching_brace text 2 in
  (r ≠ -1 → ∃ pre body post, text = pre ++ body ++ 125%N :: post
      ∧ Z.of_nat (length pre) = 2 + 1
      ∧ Z.of_nat (length (pre ++ body)) = r
      ∧ matched body
      ∧ ∀ p q, body = p ++ 125%N :: q → ¬ matched p)
  ∧ (r = -1 → ∀ body post,
       drop (Z.to_nat (2 + 1)) text = body ++ 125%N :: post →
       ¬ matched body).
Proof. apply (find_matching_brace_first_matched (lit "f { a { b } c } d") 2). lia. Defined.

End Braces.

(** ** The patcher: where the insertions go *)

Section Placement.

Import Patcher.

Lemma find_from_least (sub s : str) (k i : nat) :
  find_from sub s k = Some i →
  ∀ a b, s = a ++ sub ++ b → (i ≤ k + length a)%nat.
Proof.
  revert k. induction s as [|c s IH]; intros k; simpl.
  - destruct (starts_with sub []); [|done]. intros [= <-] ???. lia.
  - destruct (starts_with sub (c :: s)) eqn:E.
    + intros [= <-] ???. lia.
    + intros H [|a0 a] b Hab.
      * simpl in Hab.
        assert (starts_with sub (c :: s) = true)
          by (apply starts_with_spec; eauto).
        congruence.
      * injection Hab as -> ->. specialize (IH _ H _ _ eq_refl). simpl. lia.
Qed.

(** [find] from a non-negative start: the least offset of an occurrence from
    [start] on, [-1] when there is none. *)
Lemma find_spec (sub text : str) (start r : Z) :
  0 ≤ start → find sub text start = r →
  (r ≠ -1 → ∃ pre post, text = pre ++ sub ++ post
      ∧ Z.of_nat (length pre) = r ∧ start ≤ r
      ∧ ∀ a b, text = a ++ sub ++ b → start ≤ Z.of_nat (length a) →
               r ≤ Z.of_nat (length a))
  ∧ (r = -1 → sub ≠ [] → ¬ occurs sub (drop (Z.to_nat start) text)).
Proof.
  intros Hs. unfold find.
  destruct (Z.ltb_spec (Z.of_nat (length text)) start) as [Hlt|Hle].
  { intros <-. split; [done|]. intros _ Hne. rewrite drop_ge by lia.
    intros (a & b & H). symmetry in H. apply app_eq_nil in H as [_ H].
    by apply app_eq_nil in H as [H _]. }
  rewrite bound_in_range by lia. set (k := Z.to_nat start).
  destruct (find_from sub (drop k text) k) as [i|] eqn:E.
  - intros <-. split; [|lia]. intros _.
    pose proof (find_from_Some _ _ _ _ E) as [Hk [b Hb]].
    rewrite drop_drop in Hb. replace (k + (i - k))%nat with i in Hb by lia.
    rewrite length_drop in Hk.
    exists (take i text), b. split_and!.
    + by rewrite <- Hb, take_drop.
    + rewrite length_take. lia.
    + lia.
    + intros a b' Hab Ha.
      pose proof (find_from_least _ _ _ _ E (drop k a) b') as Hl.
      rewrite length_drop in Hl.
      assert (drop k text = drop k a ++ sub ++ b') as Hd.
      { rewrite Hab, drop_app_le by lia. done. }
      specialize (Hl Hd). lia.
  - intros <-. split; [done|]. intros _ _. by eapply find_from_None.
Qed.

Lemma occurs_char (c : char) (s : str) : occurs [c] s ↔ c ∈ s.
Proof.
  split.
  - intros (a & b & ->). apply elem_of_app. right. left.
  - intros (a & b & ->)%list_elem_of_split. by exists a, b.
Qed.

(** The search for an anchor [m] followed by the search, from the anchor on,
    for a character [c] the anchor does not hold. *)
Lemma anchor_then_char (m text : str) (c : char) (idx : Z) :
  c ∉ m → find m text 0 = idx → idx ≠ -1 →
  ∃ a rest, text = a ++ m ++ rest ∧ Z.of_nat (length a) = idx
    ∧ first_at m a text
    ∧ (find [c] text idx ≠ -1 → ∃ g post, rest = g ++ c :: post ∧ (c ∉ g)
         ∧ Z.of_nat (length (a ++ m ++ g)) = find [c] text idx)
    ∧ (find [c] text idx = -1 → c ∉ rest).
Proof.
  intros Hc Hidx Hne.
  destruct (find_spec m text 0 idx) as [Hf _]; [lia|done|].
  destruct (Hf Hne) as (a & rest & Ht & Hl & _ & Hleast).
  exists a, rest. split_and!; [done|done| | |].
  - intros a' b' Hab. specialize (Hleast a' b' Hab). lia.
  - intros Hr.
    destruct (find_spec [c] text idx _ ltac:(lia) eq_refl) as [Hg _].
    destruct (Hg Hr) as (pre & post & Ht' & Hl' & Hle & Hleast').
    assert (∃ k, pre = a ++ k ∧ m ++ rest = k ++ c :: post) as (k & -> & Hk).
    { rewrite Ht in Ht'. apply app_eq_inv in Ht' as [(k & -> & Hk)|(k & -> & Hk)].
      - destruct k as [|k0 k]; [|rewrite length_app in Hl; simpl in Hl; lia].
        exists []. rewrite !app_nil_r. split; [done|]. simpl in Hk. by rewrite <- Hk.
      - by exists k. }
    assert (∃ g, k = m ++ g ∧ rest = g ++ c :: post) as (g & -> & ->).
    { apply app_eq_inv in Hk as [(k' & -> & Hk')|(k' & -> & Hk')].
      - destruct k' as [|k0 k']; simpl in Hk'.
        + exists []. by rewrite !app_nil_r.
        + injection Hk' as <- _. destruct Hc. apply elem_of_app. right. left.
      - by exists k'. }
    exists g, post. split_and!; [done| |done].
    intros (u & v & ->)%list_elem_of_split.
    assert (text = (a ++ m ++ u) ++ [c] ++ (v ++ c :: post)) as Hx.
    { rewrite Ht. by rewrite <- !app_assoc. }
    specialize (Hleast' _ _ Hx).
    rewrite !length_app in *. simpl in *. lia.
  - intros Hr.
    destruct (find_spec [c] text idx _ ltac:(lia) eq_refl) as [_ Hg].
    specialize (Hg Hr ltac:(done)).
    rewrite Ht, <- Hl, Nat2Z.id, drop_app_length in Hg.
    intros Hin. apply Hg, occurs_char, elem_of_app. by right.
Qed.

(** X2. Where patch 1 puts the table entry.  When the entry is absent and the
    patch succeeds, the text holds the table marker (at [a], its first
    occurrence), then a stretch [g] without an opening brace, then an opening
    brace, a matched stretch [body] and the closing brace; the result is
    that text with the entry right before this closing brace, and nothing
    else changed. *)
Theorem patch_entry_placement (text t' : str) (w w' : fs) :
  ¬ occurs ENTRY_TO_ADD text →
  patch_entry text w = (inr t', w') →
  ∃ a g body post,
    text = a ++ anchor_literal EntryPatch ++ g
             ++ 123%N :: body ++ 125%N :: post
    ∧ t' = a ++ anchor_literal EntryPatch ++ g
             ++ 123%N :: body ++ ENTRY_TO_ADD ++ 125%N :: post
    ∧ first_at (anchor_literal EntryPatch) a text
    ∧ (123%N ∉ g) ∧ matched body.
Proof.
  intros HE%contains_false. unfold patch_entry. rewrite HE. cbn [negb].
  change (lit "static const JSCFunctionListEntry gumjs_script_entries[] =")
    with (anchor_literal EntryPatch).
  change (lit "{") with [123%N].
  set (m := anchor_literal EntryPatch).
  destruct (Z.eqb_spec (find m text 0) (-1)) as [|Hm]; [done|].
  destruct (Z.eqb_spec (find [123%N] text (find m text 0)) (-1)) as [|Ho]; [done|].
  set (ob := find [123%N] text (find m text 0)) in *.
  destruct (Z.eqb_spec (find_matching_brace text ob) (-1)) as [|Hc]; [done|].
  destruct (anchor_then_char m text 123%N _ ltac:(compute_done) eq_refl Hm)
    as (a & rest & Ht & Hl & Hfirst & Hyes & _).
  clearbody m.
  destruct (Hyes Ho) as (g & post' & -> & Hg & Hlen). fold ob in Hlen.
  destruct (find_matching_brace_matched text ob _ (find_lower_bound _ _ _) eq_refl Hc)
    as (pre & body & post & Ht' & Hpre & Hcb & Hmatched & _).
  assert (pre = a ++ m ++ g ++ [123%N] ∧ body ++ 125%N :: post = post')
    as [-> <-].
  { apply app_inj_1.
    - rewrite !length_app in *. simpl. lia.
    - rewrite <- Ht'. rewrite Ht. by rewrite <- !app_assoc. }
  rewrite <- Hcb. rewrite Ht' at 1 2.
  rewrite (app_assoc _ body), slice_to_app, slice_from_app.
  intros [<- <-]%ret_inv. exists a, g, body, post.
  split_and!; [done| |done|done|done].
  by rewrite <- !app_assoc.
Qed.

(** The theorem on a file on which the three patches apply. *)
Lemma patch_entry_placement_witness :
  let w := {| target_file := Some sample_unpatched |} in
  let t' := match (patch_entry sample_unpatched w).1 with
            | inr t => t
            | inl _ => []
            end in
  ∃ a g body post,
    sample_unpatched = a ++ anchor_literal EntryPatch ++ g
             ++ 123%N :: body ++ 125%N :: post
    ∧ t' = a ++ anchor_literal EntryPatch ++ g
             ++ 123%N :: body ++ ENTRY_TO_ADD ++ 125%N :: post
    ∧ first_at (anchor_literal EntryPatch) a sample_unpatched
    ∧ (123%N ∉ g) ∧ matched body.
Proof.
  intros w t'. apply (patch_entry_placement sample_unpatched t' w w).
  - apply contains_false. vm_compute. reflexivity.
  - vm_compute. reflexivity.
Defined.

(** X3. Where patch 2 puts the declaration.  When the declaration is absent
    and the patch succeeds, the text holds the declaration anchor (at [a], its
    first occurrence); the declaration goes right after the first newline
    that follows the anchor, and when no newline follows the anchor it goes
    to the very front of the file. *)
Theorem patch_declaration_placement (text t' : str) (w w' : fs) :
  ¬ occurs DECLARE_LINE text →
  patch_declaration text w = (inr t', w') →
  ∃ a rest,
    text = a ++ anchor_literal DeclarationPatch ++ rest
    ∧ first_at (anchor_literal DeclarationPatch) a text
    ∧ ((∃ g post, rest = g ++ 10%N :: post ∧ (10%N ∉ g)
          ∧ t' = a ++ anchor_literal DeclarationPatch ++ g ++ [10%N]
                   ++ DECLARE_LINE ++ post)
       ∨ ((10%N ∉ rest) ∧ t' = DECLARE_LINE ++ text)).
Proof.
  intros HD%contains_false. unfold patch_declaration. rewrite HD. cbn [negb].
  change (lit "GUMJS_DECLARE_FUNCTION (gumjs_script_unbind_weak)")
    with (anchor_literal DeclarationPatch).
  change (lit nl) with [10%N].
  set (m := anchor_literal DeclarationPatch).
  destruct (Z.eqb_spec (find m text 0) (-1)) as [|Hm]; [done|].
  destruct (anchor_then_char m text 10%N _ ltac:(compute_done) eq_refl Hm)
    as (a & rest & Ht & Hl & Hfirst & Hyes & Hno).
  clearbody m.
  destruct (Z.eq_dec (find [10%N] text (find m text 0)) (-1)) as [E|E].
  - rewrite E. change (-1 + 1) with 0.
    rewrite slice_to_0, slice_from_0. intros [<- <-]%ret_inv.
    exists a, rest. split_and!; [done|done|]. right. auto.
  - destruct (Hyes E) as (g & post & Hrest & Hg & Hlen). rewrite <- Hlen.
    replace (Z.of_nat (length (a ++ m ++ g)) + 1)
      with (Z.of_nat (length ((a ++ m ++ g) ++ [10%N])))
      by (rewrite (length_app _ [10%N]); simpl; lia).
    assert (text = ((a ++ m ++ g) ++ [10%N]) ++ post) as Ht'.
    { rewrite Ht, Hrest. by rewrite <- !app_assoc. }
    rewrite Ht' at 1 2. rewrite slice_to_app, slice_from_app.
    intros [<- <-]%ret_inv. exists a, rest. split_and!; [done|done|].
    left. exists g, post. split_and!; [done|done|].
    by rewrite <- !app_assoc.
Qed.

(** The theorem on a file on which the three patches apply. *)
Lemma patch_declaration_placement_witness :
  let w := {| target_file := Some sample_unpatched |} in
  let t' := match (patch_declaration sample_unpatched w).1 with
            | inr t => t
            | inl _ => []
            end in
  ∃ a rest,
    sample_unpatched = a ++ anchor_literal DeclarationPatch ++ rest
    ∧ first_at (anchor_literal DeclarationPatch) a sample_unpatched
    ∧ ((∃ g post, rest = g ++ 10%N :: post ∧ (10%N ∉ g)
          ∧ t' = a ++ anchor_literal DeclarationPatch ++ g ++ [10%N]
                   ++ DECLARE_LINE ++ post)
       ∨ ((10%N ∉ rest) ∧ t' = DECLARE_LINE ++ sample_unpatched)).
Proof.
  intros w t'. apply (patch_declaration_placement sample_unpatched t' w w).
  - apply contains_false. vm_compute. reflexivity.
  - vm_compute. reflexivity.
Defined.

(** X4. Where patch 3 puts the function.  When the function is absent and the
    patch succeeds, the text holds the function anchor (at [a], its first
    occurrence).  When an opening brace follows the anchor, the function,
    between two newlines and one, goes right after the brace that closes the
    matched stretch this opening brace starts.  The patch does not check that
    an opening brace follows: when none does, the scan starts at the front of
    the file and the function goes after the first closing brace that closes
    a matched stretch starting there. *)
Theorem patch_implementation_placement (impl text t' : str) (w w' : fs) :
  ¬ occurs (detection_literal ImplementationPatch) text →
  patch_implementation impl text w = (inr t', w') →
  ∃ a rest,
    text = a ++ anchor_literal ImplementationPatch ++ rest
    ∧ first_at (anchor_literal ImplementationPatch) a text
    ∧ ((∃ g body post,
          rest = g ++ 123%N :: body ++ 125%N :: post
          ∧ (123%N ∉ g) ∧ matched body
          ∧ t' = a ++ anchor_literal ImplementationPatch ++ g
                   ++ 123%N :: body ++ [125%N]
                   ++ lit (nl +:+ nl) ++ impl ++ lit nl ++ post)
       ∨ ((123%N ∉ rest)
          ∧ ∃ body post, text = body ++ 125%N :: post ∧ matched body
              ∧ t' = body ++ [125%N]
                       ++ lit (nl +:+ nl) ++ impl ++ lit nl ++ post)).
Proof.
  intros HI%contains_false. unfold patch_implementation.
  change (lit "GUMJS_DEFINE_FUNCTION (gumjs_script_load_bytecode)")
    with (detection_literal ImplementationPatch).
  rewrite HI. cbn [negb].
  change (lit "GUMJS_DEFINE_FUNCTION (gumjs_script_unbind_weak)")
    with (anchor_literal ImplementationPatch).
  change (lit "{") with [123%N].
  set (m := anchor_literal ImplementationPatch).
  set (x := lit (nl +:+ nl)). set (y := lit nl).
  destruct (Z.eqb_spec (find m text 0) (-1)) as [|Hm]; [done|].
  set (ob := find [123%N] text (find m text 0)) in *.
  destruct (Z.eqb_spec (find_matching_brace text ob) (-1)) as [|Hc]; [done|].
  destruct (anchor_then_char m text 123%N _ ltac:(compute_done) eq_refl Hm)
    as (a & rest & Ht & Hl & Hfirst & Hyes & Hno).
  clearbody m x y. fold ob in Hyes, Hno.
  destruct (find_matching_brace_matched text ob _ (find_lower_bound _ _ _) eq_refl Hc)
    as (pre & body & post & Ht' & Hpre & Hcb & Hmatched & _).
  assert (slice_to text (find_matching_brace text ob + 1) = pre ++ body ++ [125%N]
          ∧ slice_from text (find_matching_brace text ob + 1) = post)
    as [-> ->].
  { rewrite <- Hcb.
    replace (Z.of_nat (length (pre ++ body)) + 1)
      with (Z.of_nat (length ((pre ++ body) ++ [125%N])))
      by (rewrite (length_app _ [125%N]); simpl; lia).
    assert (text = ((pre ++ body) ++ [125%N]) ++ post) as ->.
    { rewrite Ht'. by rewrite <- !app_assoc. }
    rewrite slice_to_app, slice_from_app. by rewrite <- !app_assoc. }
  intros [<- <-]%ret_inv. exists a, rest. split_and!; [done|done|].
  destruct (Z.eq_dec ob (-1)) as [E|E].
  - right. split; [by apply Hno|]. exists body, post.
    rewrite E in Hpre. destruct pre; [|simpl in Hpre; lia].
    split_and!; [done|done|]. by rewrite <- !app_assoc.
  - left. destruct (Hyes E) as (g & post' & -> & Hg & Hlen).
    assert (pre = a ++ m ++ g ++ [123%N] ∧ body ++ 125%N :: post = post')
      as [-> <-].
    { apply app_inj_1.
      - rewrite !length_app in *. simpl. lia.
      - rewrite <- Ht'. rewrite Ht. by rewrite <- !app_assoc. }
    exists g, body, post. split_and!; [done|done|done|].
    by rewrite <- !app_assoc.
Qed.

(** The theorem on a file on which the three patches apply. *)
Lemma patch_implementation_placement_witness :
  let w := {| target_file := Some sample_unpatched |} in
  let impl := build_function FUNC_BODY_VARIANT_1 in
  let t' := match (patch_implementation impl sample_unpatched w).1 with
            | inr t => t
            | inl _ => []
            end in
  ∃ a rest,
    sample_unpatched = a ++ anchor_literal ImplementationPatch ++ rest
    ∧ first_at (anchor_literal ImplementationPatch) a sample_unpatched
    ∧ ((∃ g body post,
          rest = g ++ 123%N :: body ++ 125%N :: post
          ∧ (123%N ∉ g) ∧ matched body
          ∧ t' = a ++ anchor_literal ImplementationPatch ++ g
                   ++ 123%N :: body ++ [125%N]
                   ++ lit (nl +:+ nl) ++ impl ++ lit nl ++ post)
       ∨ ((123%N ∉ rest)
          ∧ ∃ body post, sample_unpatched = body ++ 125%N :: post
              ∧ matched body
              ∧ t' = body ++ [125%N]
                       ++ lit (nl +:+ nl) ++ impl ++ lit nl ++ post)).
Proof.
  intros w impl t'.
  apply (patch_implementation_placement impl sample_unpatched t' w w).
  - apply contains_false. vm_compute. reflexivity.
  - vm_compute. reflexivity.
Defined.

End Placement.

(** ** The patcher: what a successful run leaves *)

Section PatcherRuns.

Import Patcher.

Lemma patch_entry_inserted (text t' : str) (w w' : fs) :
  patch_entry text w = (inr t', w') → inserted ENTRY_TO_ADD text t'.
Proof.
  unfold patch_entry. destruct (contains ENTRY_TO_ADD text) eqn:E; cbn [negb].
  { intros [<- <-]%ret_inv. by left. }
  destruct (_ =? -1); [done|].
  set (open_brace := find (lit "{") text _).
  destruct (_ =? -1); [done|].
  destruct (Z.eqb_spec (find_matching_brace text open_brace) (-1)) as [|Hne]; [done|].
  destruct (find_matching_brace_found text open_brace _
              (find_lower_bound _ _ _) eq_refl Hne) as (pre & post & Ht & <-).
  rewrite Ht, slice_to_app, slice_from_app.
  intros [<- <-]%ret_inv. right. by exists pre, (125%N :: post).
Qed.

Lemma patch_declaration_inserted (text t' : str) (w w' : fs) :
  patch_declaration text w = (inr t', w') → inserted DECLARE_LINE text t'.
Proof.
  unfold patch_declaration. destruct (contains DECLARE_LINE text) eqn:E; cbn [negb].
  { intros [<- <-]%ret_inv. by left. }
  destruct (_ =? -1); [done|].
  set (r := find (lit nl) text _).
  destruct (Z.eq_dec r (-1)) as [->|Hne].
  - change (-1 + 1) with 0. rewrite slice_to_0, slice_from_0.
    intros [<- <-]%ret_inv. right. by exists [], text.
  - destruct (find_found _ _ _ r eq_refl Hne) as (pre & post & Ht & Hl).
    change (lit nl) with [10%N] in Ht. rewrite <- Hl.
    replace (Z.of_nat (length pre) + 1) with (Z.of_nat (length (pre ++ [10%N])))
      by (rewrite length_app; simpl; lia).
    rewrite Ht, (app_assoc pre), slice_to_app, slice_from_app.
    intros [<- <-]%ret_inv. right. by exists (pre ++ [10%N]), post.
Qed.

Lemma patch_implementation_inserted (impl text t' : str) (w w' : fs) :
  patch_implementation impl text w = (inr t', w') →
  inserted (lit (nl +:+ nl) ++ impl ++ lit nl) text t'.
Proof.
  unfold patch_implementation.
  destruct (contains _ text) eqn:E; cbn [negb].
  { intros [<- <-]%ret_inv. by left. }
  destruct (_ =? -1); [done|].
  set (open_brace := find (lit "{") text _).
  destruct (Z.eqb_spec (find_matching_brace text open_brace) (-1)) as [|Hne]; [done|].
  destruct (find_matching_brace_found text open_brace _
              (find_lower_bound _ _ _) eq_refl Hne) as (pre & post & Ht & <-).
  replace (Z.of_nat (length pre) + 1) with (Z.of_nat (length (pre ++ [125%N])))
    by (rewrite length_app; simpl; lia).
  rewrite Ht. change (pre ++ 125%N :: post) with (pre ++ [125%N] ++ post).
  rewrite (app_assoc pre), slice_to_app, slice_from_app.
  intros [<- <-]%ret_inv. right. exists (pre ++ [125%N]), post.
  split; [done|]. by rewrite <- !app_assoc.
Qed.

(** A successful run is three insertions in sequence. *)
Lemma main_inserts (argv : list str) (w w1 : fs) :
  main argv w = (inr tt, w1) →
  ∃ text t1 t2 t3 v,
    target_file w = Some text ∧ target_file w1 = Some t3
    ∧ detect_variant text w = (inr v, w)
    ∧ inserted ENTRY_TO_ADD text t1
    ∧ inserted DECLARE_LINE t1 t2
    ∧ inserted (inserted_function v) t2 t3.
Proof.
  intros (text & t1 & t2 & t3 & v & _ & Ht & Hv & H1 & H2 & H3 & ->)%main_success.
  exists text, t1, t2, t3, v. split_and!; [done|done|done| | |].
  - by eapply patch_entry_inserted.
  - by eapply patch_declaration_inserted.
  - apply patch_implementation_inserted in H3. by destruct v.
Qed.

Lemma inserted_sublist (x t t' : str) : inserted x t t' → t `sublist_of` t'.
Proof.
  intros [->|(pre & post & -> & ->)]; [done|].
  apply sublist_app; [done|]. by apply sublist_inserts_l.
Qed.

Lemma inserted_length (x t t' : str) :
  inserted x t t' → (length t' ≤ length t + length x)%nat.
Proof.
  intros [->|(pre & post & -> & ->)]; [lia|]. rewrite !length_app. lia.
Qed.

Lemma inserted_excess (x t t' : str) :
  excess x = 0 → inserted x t t' → excess t' = excess t.
Proof.
  intros Hx [->|(pre & post & -> & ->)]; [done|]. rewrite !excess_app. lia.
Qed.

Lemma universal_newlines_bounded (n : nat) (s : str) :
  (length s ≤ n)%nat → 13%N ∉ universal_newlines s.
Proof.
  revert s. induction n as [|n IH]; intros [|c s] Hn; simpl in *;
    try (by intros ?%elem_of_nil); [lia|].
  destruct (N.eqb_spec c 13) as [->|Hc].
  - intros [?|H]%elem_of_cons; [done|]. revert H.
    destruct s as [|c' s]; [by intros ?%elem_of_nil|].
    destruct (c' =? 10)%N; apply IH; simpl in *; lia.
  - intros [?|H]%elem_of_cons; [done|]. revert H. apply IH. lia.
Qed.

(** The text read holds no carriage return. *)
Lemma universal_newlines_no_cr (s : str) : 13%N ∉ universal_newlines s.
Proof. by apply (universal_newlines_bounded (length s)). Qed.

(** A content without carriage returns is read as it is. *)
Lemma universal_newlines_id (s : str) : 13%N ∉ s → universal_newlines s = s.
Proof.
  induction s as [|c s IH]; [done|]. intros [Hc Hs]%not_elem_of_cons.
  simpl. destruct (N.eqb_spec c 13) as [->|_]; [done|]. by rewrite IH.
Qed.

Lemma inserted_no_cr (x t t' : str) :
  13%N ∉ x → 13%N ∉ t → inserted x t t' → 13%N ∉ t'.
Proof.
  intros Hx Ht [->|(pre & post & -> & ->)]; [done|].
  rewrite !elem_of_app in *. tauto.
Qed.

Lemma inserted_function_no_cr (v : variant) : 13%N ∉ inserted_function v.
Proof. destruct v; apply (bool_decide_unpack _); by vm_compute. Qed.

(** X5. A successful run only inserts into the text it read.  The text read
    is the content of the file with its line ends turned into LF; it is a
    subsequence of the text written, so nothing of it is removed, replaced or
    reordered, and the text grows by at most the lengths of the entry, of the
    declaration and of the function of the detected variant.  The text
    written holds no carriage return: a content without carriage returns is
    itself a subsequence of the text written, while a content with CR LF line
    ends is not, the run having read it without them. *)
Theorem patcher_only_inserts (argv : list str) (raw : str) (w1 : fs) :
  main argv (file_of raw) = (inr tt, w1) →
  ∃ t v,
    target_file w1 = Some t
    ∧ detect_variant (universal_newlines raw) (file_of raw) = (inr v, file_of raw)
    ∧ universal_newlines raw `sublist_of` t
    ∧ (length t ≤ length (universal_newlines raw) + length ENTRY_TO_ADD
                  + length DECLARE_LINE + length (inserted_function v))%nat
    ∧ (13%N ∉ t)
    ∧ (13%N ∉ raw → raw `sublist_of` t)
    ∧ (13%N ∈ raw → ¬ raw `sublist_of` t).
Proof.
  intros (text & t1 & t2 & t3 & v & Ht & Ht3 & Hv & I1 & I2 & I3)%main_inserts.
  injection Ht as <-.
  assert (universal_newlines raw `sublist_of` t3) as Hsub.
  { etrans; [by eapply inserted_sublist|].
    etrans; by eapply inserted_sublist. }
  assert (13%N ∉ t3) as Hcr.
  { eapply inserted_no_cr; [apply inserted_function_no_cr| |done].
    eapply (inserted_no_cr DECLARE_LINE);
      [apply (bool_decide_unpack _); by vm_compute| |done].
    eapply (inserted_no_cr ENTRY_TO_ADD);
      [apply (bool_decide_unpack _); by vm_compute| |done].
    apply universal_newlines_no_cr. }
  exists t3, v. split_and!; [done|done|done| |done| |].
  - apply inserted_length in I1, I2, I3. lia.
  - intros Hraw. by rewrite <- (universal_newlines_id raw).
  - intros Hraw Hs. by apply Hcr, (elem_of_sublist raw).
Qed.

(** The theorem on a file with CR LF line ends on which the three patches
    apply. *)
Lemma patcher_only_inserts_witness :
  let argv := [lit "gum_quick_patcher.py"; lit "frida"] in
  let raw := crlf sample_unpatched in
  ∃ t v,
    target_file (main argv (file_of raw)).2 = Some t
    ∧ detect_variant (universal_newlines raw) (file_of raw) = (inr v, file_of raw)
    ∧ universal_newlines raw `sublist_of` t
    ∧ (length t ≤ length (universal_newlines raw) + length ENTRY_TO_ADD
                  + length DECLARE_LINE + length (inserted_function v))%nat
    ∧ (13%N ∉ t)
    ∧ (13%N ∉ raw → raw `sublist_of` t)
    ∧ (13%N ∈ raw → ¬ raw `sublist_of` t).
Proof.
  intros argv raw.
  apply (patcher_only_inserts argv raw (main argv (file_of raw)).2).
  vm_compute. reflexivity.
Defined.

Lemma excess_inserted_function (v : variant) : excess (inserted_function v) = 0.
Proof. by destruct v; vm_compute. Qed.

(** X6. A successful run keeps the balance of the braces: the file it writes
    has as many more opening than closing braces as the file it read, since
    each of the three inserted texts has as many of the ones as of the
    others. *)
Theorem patcher_keeps_brace_excess (argv : list str) (w w1 : fs) :
  main argv w = (inr tt, w1) →
  ∃ text t,
    target_file w = Some text ∧ target_file w1 = Some t
    ∧ excess t = excess text.
Proof.
  intros (text & t1 & t2 & t3 & v & Ht & Ht3 & Hv & I1 & I2 & I3)%main_inserts.
  exists text, t3. split_and!; [done|done|].
  apply inserted_excess in I1; [|by vm_compute].
  apply inserted_excess in I2; [|by vm_compute].
  apply inserted_excess in I3; [|apply excess_inserted_function].
  congruence.
Qed.

(** The theorem on a file on which the three patches apply. *)
Lemma patcher_keeps_brace_excess_witness :
  let argv := [lit "gum_quick_patcher.py"; lit "frida"] in
  let w := {| target_file := Some sample_unpatched |} in
  ∃ text t,
    target_file w = Some text ∧ target_file (main argv w).2 = Some t
    ∧ excess t = excess text.
Proof.
  intros argv w. apply (patcher_keeps_brace_excess argv w (main argv w).2).
  vm_compute. reflexivity.
Defined.

(** An occurrence of a string without the character [c] lies on one side of
    an occurrence of [c]. *)
Lemma occurs_split_absent (sub u v : str) (c : char) :
  c ∉ sub → occurs sub (u ++ c :: v) → occurs sub u ∨ occurs sub v.
Proof.
  intros Hc (a & b & Hab).
  apply app_eq_inv in Hab as [(k & -> & Hk)|(k & -> & Hk)].
  - left. apply app_eq_inv in Hk as [(k' & -> & Hk')|(k' & -> & Hk')].
    + destruct k' as [|k0 k']; simpl in Hk'.
      * exists a, []. by rewrite !app_nil_r.
      * injection Hk' as <- _. destruct Hc. apply elem_of_app. right. left.
    + by exists a, k'.
  - destruct k as [|k0 k]; simpl in Hk.
    + destruct sub as [|s0 sub]; simpl in Hk.
      * left. exists u, []. by rewrite app_nil_r.
      * injection Hk as <- _. destruct Hc. left.
    + injection Hk as <- ->. right. by exists k, b.
Qed.

(** An insertion of a text whose first and last characters are not in [sub]
    and whose inside does not hold [sub] creates no occurrence of [sub]. *)
Lemma inserted_no_new_occurrence (sub x t t' mid : str) (c1 c2 : char) :
  x = c1 :: mid ++ [c2] → c1 ∉ sub → c2 ∉ sub → ¬ occurs sub mid →
  inserted x t t' → occurs sub t' → occurs sub t.
Proof.
  intros -> H1 H2 Hmid [->|(pre & post & -> & ->)]; [done|].
  intros Ho. simpl in Ho.
  apply occurs_split_absent in Ho as [Ho|Ho]; [by apply occurs_app_r| |done].
  rewrite <- app_assoc in Ho. simpl in Ho.
  apply occurs_split_absent in Ho as [Ho|Ho]; [done|by apply occurs_app_l|done].
Qed.

Lemma unsplittable_take : unsplittable (lit "gum_es_asset_new_take").
Proof. split; compute_done. Qed.

(** None of the three inserted texts, for variant 1, creates an occurrence
    of the name that selects variant 2. *)
Lemma take_not_created (x t t' : str) :
  x = ENTRY_TO_ADD ∨ x = DECLARE_LINE ∨ x = inserted_function Variant1 →
  inserted x t t' →
  occurs (lit "gum_es_asset_new_take") t' →
  occurs (lit "gum_es_asset_new_take") t.
Proof.
  intros Hx.
  assert (∃ c1 c2, x = c1 :: removelast (tail x) ++ [c2]
            ∧ (c1 ∉ lit "gum_es_asset_new_take")
            ∧ (c2 ∉ lit "gum_es_asset_new_take")
            ∧ contains (lit "gum_es_asset_new_take") (removelast (tail x)) = false)
    as (c1 & c2 & Hsplit & H1 & H2 & Hmid).
  { destruct Hx as [->|[->| ->]].
    - exists 32%N, 10%N. split_and!; [by vm_compute|compute_done|compute_done|by vm_compute].
    - exists 71%N, 10%N. split_and!; [by vm_compute|compute_done|compute_done|by vm_compute].
    - exists 10%N, 10%N. split_and!; [by vm_compute|compute_done|compute_done|by vm_compute]. }
  apply contains_false in Hmid.
  by apply (inserted_no_new_occurrence _ x t t' (removelast (tail x)) c1 c2).
Qed.

(** X7. A successful run does not change the variant: on the file it wrote,
    the detection of the allocator variant gives what it gave on the file
    it read.  The inserted texts hold the name of the allocator the file
    already calls, and no insertion splits or creates an occurrence of the
    other one. *)
Theorem patcher_keeps_variant (argv : list str) (w w1 : fs) :
  main argv w = (inr tt, w1) →
  ∃ text t v,
    target_file w = Some text ∧ target_file w1 = Some t
    ∧ detect_variant text w = (inr v, w)
    ∧ detect_variant t w1 = (inr v, w1).
Proof.
  intros Hrun. pose proof Hrun as Hrun'.
  apply main_inserts in Hrun'
    as (text' & t1' & t2' & t3' & v' & Ht' & Ht3' & Hv' & I1 & I2 & I3).
  apply main_success in Hrun
    as (text & t1 & t2 & t3 & v & _ & Ht & Hv & H1 & H2 & H3 & ->).
  exists text, t3, v. split_and!; [done|done|done|].
  pose proof (detect_variant_ok _ _ _ _ Hv) as [_ Hnew].
  pose proof (patch_entry_ok _ _ _ _ H1) as (_ & A1 & _).
  pose proof (patch_declaration_ok _ _ _ _ H2) as (_ & A2 & _).
  pose proof (patch_implementation_ok _ _ _ _ _ (build_function_marker v) H3)
    as (_ & A3 & _).
  apply patch_entry_inserted in H1. apply patch_declaration_inserted in H2.
  apply patch_implementation_inserted in H3.
  assert (occurs (lit "gum_es_asset_new") t3) as Hnew3.
  { do 3 (eapply anchored_insertion_occurs;
            [apply unsplittable_marker | eassumption |]). done. }
  unfold detect_variant in Hv |- *.
  destruct (contains (lit "gum_es_asset_new_take") text) eqn:Etake.
  - apply ret_inv in Hv as [<- _]. apply contains_spec in Etake.
    assert (occurs (lit "gum_es_asset_new_take") t3) as Htake3.
    { do 3 (eapply anchored_insertion_occurs;
              [apply unsplittable_take | eassumption |]). done. }
    apply contains_spec in Htake3. by rewrite Htake3.
  - apply contains_spec in Hnew. rewrite Hnew in Hv.
    apply ret_inv in Hv as [<- _].
    assert (contains (lit "gum_es_asset_new_take") t3 = false) as ->.
    { apply contains_false. intros Ho. apply contains_false in Etake.
      apply Etake.
      eapply take_not_created; [|exact H1|]; [by left|].
      eapply take_not_created; [|exact H2|]; [by right; left|].
      eapply take_not_created; [|exact H3|]; [by right; right|]. done. }
    apply contains_spec in Hnew3. by rewrite Hnew3.
Qed.

(** The theorem on a file on which the three patches apply. *)
Lemma patcher_keeps_variant_witness :
  let argv := [lit "gum_quick_patcher.py"; lit "frida"] in
  let w := {| target_file := Some sample_unpatched |} in
  ∃ text t v,
    target_file w = Some text ∧ target_file (main argv w).2 = Some t
    ∧ detect_variant text w = (inr v, w)
    ∧ detect_variant t (main argv w).2 = (inr v, (main argv w).2).
Proof.
  intros argv w. apply (patcher_keeps_variant argv w (main argv w).2).
  vm_compute. reflexivity.
Defined.

End PatcherRuns.

(** ** The shuffler: what each step moves *)

Section ShufflerSteps.

Import Rand Shuffler.

Local Abbreviation bag l := (list_to_set_disj l : gmultiset (list N)).

Lemma enumerate_from_lookup {A} (k i : nat) (l : list A) (x : A) :
  l !! i = Some x → ((k + i)%nat, x) ∈ enumerate_from k l.
Proof.
  revert k i. induction l as [|y l IH]; intros k i; [done|].
  destruct i as [|i]; simpl.
  - intros [= ->]. rewrite Nat.add_0_r. left.
  - intros Hi. right. replace (k + S i)%nat with (S k + i)%nat by lia.
    by apply IH.
Qed.

(** Writing values at distinct positions: the other positions keep their
    values. *)
Lemma store_each_lookup {A} (ps : list nat) (vs : list A) (l l' : list A) :
  store_each (zip ps vs) l = Some l' → NoDup ps → length vs = length ps →
  length l' = length l
  ∧ (∀ i, i ∉ ps → l' !! i = l !! i)
  ∧ (∀ k p v, ps !! k = Some p → vs !! k = Some v → l' !! p = Some v).
Proof.
  revert vs l. induction ps as [|p ps IH]; intros vs l Hrun Hnd Hlen.
  - destruct vs; [|done]. injection Hrun as <-. split_and!; [done|done|].
    intros k p v Hk. by rewrite lookup_nil in Hk.
  - destruct vs as [|v vs]; [done|].
    apply list.NoDup_cons in Hnd as [Hnp Hnd].
    cbn [zip zip_with store_each] in Hrun. unfold store in Hrun.
    destruct (decide (p < length l)%nat) as [Hp|]; [|done].
    destruct (IH vs (<[p:=v]> l) Hrun Hnd) as (Hl & Hout & Hin);
      [simpl in Hlen; lia|].
    split_and!.
    + by rewrite Hl, length_insert.
    + intros i [Hip Hi]%not_elem_of_cons. rewrite Hout by done.
      by rewrite list_lookup_insert_ne.
    + intros [|k] p' v'; simpl.
      * intros [= <-] [= <-]. rewrite Hout by done.
        by rewrite list_lookup_insert_eq.
      * apply Hin.
Qed.

(** X8. The flat shuffle of a group moves only the lines of its names: on
    every tape it returns a table of the same length, a permutation of the
    input, in which every line that defines none of the names is at the
    position it had and every position of a line of the names holds a line
    of the names. *)
Theorem flat_shuffle_keeps_other_lines (names lines : list str) :
  returns (flat_shuffle names lines)
    (λ out, length out = length lines ∧ out ≡ₚ lines
      ∧ ∀ i line, lines !! i = Some line →
          ∃ line', out !! i = Some line'
            ∧ opcode_in names line' = opcode_in names line
            ∧ (opcode_in names line = false → line' = line)).
Proof.
  unfold flat_shuffle.
  set (targets := filter _ (enumerate lines)).
  destruct (selected_positions (λ p, opcode_in names p.2) lines) as [Hnd Hold].
  fold targets in Hnd, Hold.
  eapply returns_bind; [apply returns_shuffle|]. intros bucket Hb.
  cbv beta in Hb.
  assert (length bucket = length targets.*1) as Hlen
    by (by rewrite Hb, !length_fmap).
  destruct (store_each_bag (targets.*1) bucket (targets.*2) lines Hnd Hold Hlen)
    as (out & Hrun & Hbag).
  eapply returns_lift; [done|].
  destruct (store_each_lookup _ _ _ _ Hrun Hnd Hlen) as (Hl & Hout & Hin).
  split_and!; [done| |].
  { apply bag_Permutation. rewrite Hb in Hbag. multiset_solver. }
  intros i line Hi.
  destruct (opcode_in names line) eqn:Eop.
  - assert ((i, line) ∈ targets) as Ht.
    { apply list_elem_of_filter. split; [by apply Is_true_true|].
      apply (enumerate_from_lookup 0 i lines line Hi). }
    assert (i ∈ targets.*1) as (k & Hk)%list_elem_of_lookup_1.
    { apply list_elem_of_fmap. by exists (i, line). }
    destruct (lookup_lt_is_Some_2 bucket k) as [v Hv].
    { rewrite Hlen. by eapply lookup_lt_Some. }
    exists v. split_and!; [by eapply Hin| |done].
    assert (v ∈ targets.*2) as (q & -> & Hq)%list_elem_of_fmap.
    { rewrite <- Hb. by eapply list_elem_of_lookup_2. }
    apply list_elem_of_filter in Hq as [Hq _]. by apply Is_true_true.
  - exists line. split_and!; [|done|done]. rewrite Hout; [done|].
    intros (q & -> & Hq)%list_elem_of_fmap.
    apply list_elem_of_filter in Hq as [Hq Hq'].
    apply enumerate_from_elem in Hq' as [_ Hq'].
    rewrite Nat.sub_0_r in Hq'. apply Is_true_true in Hq. congruence.
Qed.

Lemma pop_each_sublist {A} (idxs : list nat) (l l' : list A) :
  pop_each idxs l = Some l' → l' `sublist_of` l.
Proof.
  revert l. induction idxs as [|i idxs IH]; intros l; simpl.
  - by intros [= ->].
  - unfold pop. destruct (l !! i); [|done]. intros Hl%IH.
    etrans; [done|]. apply sublist_delete.
Qed.

Lemma omap_omap {A B C} (f : A → option B) (g : B → option C) (l : list A) :
  omap g (omap f l) = omap (λ x, f x ≫= g) l.
Proof.
  induction l as [|x l IH]; [done|]. csimpl.
  destruct (f x) as [y|]; csimpl; [|done]. by rewrite IH.
Qed.

(** X9. The relocation of a block.  For a block that names no opcode twice,
    on every tape: the lines of the block's names that the table defines are
    taken out, the remaining lines keep their order, and the lines taken out
    are put back together, in the order of the block, at one point of the
    remaining lines; when the remaining lines hold an anchor of the group,
    the point is right after a line of ["cca"] or right before a line of
    ["ccb"]. *)
Theorem relocate_step_contiguous (g : group) (lines block : list str) :
  NoDup block →
  returns (relocate_step g lines block)
    (λ out, ∃ rest p,
       out = slice_to rest p ++ block_lines_of lines block ++ slice_from rest p
       ∧ rest `sublist_of` lines
       ∧ block_lines_of lines block ++ rest ≡ₚ lines
       ∧ (relocation_anchors g rest ≠ [] → p ∈ relocation_anchors g rest)).
Proof.
  intros Hnd. unfold relocate_step.
  set (block_indices := omap (λ op, opcode_index lines !! op) block).
  pose proof (block_indices_valid lines block) as Hvalid.
  pose proof (block_indices_NoDup lines block Hnd) as Hdistinct.
  fold block_indices in Hvalid, Hdistinct.
  destruct (mapM_lookup_total lines block_indices Hvalid)
    as (block_lines & Hblock & Hblock' & _).
  assert (block_lines = block_lines_of lines block) as Hbl.
  { rewrite Hblock'. unfold block_indices. by rewrite omap_omap. }
  eapply returns_bind; [by apply returns_lift_eq|]. intros ? ->.
  set (sorted := merge_sort descending block_indices).
  assert (sorted ≡ₚ block_indices) as Hperm by apply merge_sort_Permutation.
  assert (StronglySorted (λ i j, (j < i)%nat) sorted) as Hsorted.
  { apply descending_strict; [by rewrite Hperm|].
    apply StronglySorted_merge_sort.
    - intros x y z. unfold descending. lia.
    - intros x y. unfold descending. lia. }
  destruct (mapM_lookup_total lines sorted) as (olds & _ & Holds & HF).
  { by rewrite Hperm. }
  destruct (pop_each_bag sorted olds lines Hsorted HF) as (rest & Hpop & Hbag).
  eapply returns_bind; [by apply returns_lift_eq|]. intros ? ->.
  fold (relocation_anchors g rest).
  eapply (returns_bind _ _
            (λ p, relocation_anchors g rest ≠ [] → p ∈ relocation_anchors g rest)).
  { destruct (relocation_anchors g rest) eqn:Ea.
    - unfold randint. eapply returns_bind; [apply returns_randbelow; lia|].
      intros. by apply returns_ret.
    - eapply returns_weaken; [by apply returns_choice | done]. }
  intros p Hp. apply returns_ret. exists rest, p. rewrite <- Hbl.
  split_and!; [done|by eapply pop_each_sublist| |done].
  apply bag_Permutation. rewrite list_to_set_disj_app, Hbag. f_equal.
  apply (list_to_set_disj_perm (A:=list N)).
  rewrite Hblock', Holds. by rewrite Hperm.
Qed.

(** The theorem on a block of the short opcodes. *)
Lemma relocate_step_contiguous_witness :
  let lines := readlines (lit (unlines
    ["DEF(get_loc8, 2)"; "DEF(nop, 1)"; "DEF(set_loc8, 2)"; "DEF(goto8, 2)"])) in
  let block := [lit "get_loc8"; lit "put_loc8"; lit "set_loc8"] in
  let g := GROUP_SHORT_OPCODES in
  returns (relocate_step g lines block)
    (λ out, ∃ rest p,
       out = slice_to rest p ++ block_lines_of lines block ++ slice_from rest p
       ∧ rest `sublist_of` lines
       ∧ block_lines_of lines block ++ rest ≡ₚ lines
       ∧ (relocation_anchors g rest ≠ [] → p ∈ relocation_anchors g rest)).
Proof.
  intros lines block g. apply (relocate_step_contiguous g lines block).
  compute_done.
Defined.

End ShufflerSteps.

(** ** The shuffler: tables the groups or the fix-up leave alone *)

Section ShufflerSkips.

Import Rand Shuffler.

Lemma opcode_index_absent (lines : list str) (op : str) :
  (∀ line, line ∈ lines → extract_opcode line ≠ Some op) →
  opcode_index lines !! op = None.
Proof.
  intros H. destruct (opcode_index lines !! op) as [i|] eqn:E; [|done].
  apply opcode_index_lookup in E as (line & Hl & Hop).
  destruct (H line); [by eapply list_elem_of_lookup_2 | done].
Qed.

Lemma no_targets (names lines : list str) :
  (∀ line op, line ∈ lines → extract_opcode line = Some op → op ∉ names) →
  filter (λ p : nat * str, opcode_in names p.2) (enumerate lines) = [].
Proof.
  intros H. destruct (filter _ _) as [|p ps] eqn:E; [done|].
  assert (p ∈ filter (λ p : nat * str, opcode_in names p.2) (enumerate lines))
    as [Hp Hin]%list_elem_of_filter by (rewrite E; left).
  apply enumerate_from_elem in Hin as [_ Hin].
  unfold opcode_in in Hp. destruct (extract_opcode p.2) as [op|] eqn:Eop; [|done].
  apply bool_decide_unpack in Hp.
  destruct (H p.2 op); [by eapply list_elem_of_lookup_2 | done | done].
Qed.

Lemma flat_shuffle_absent (names lines : list str) :
  (∀ line op, line ∈ lines → extract_opcode line = Some op → op ∉ names) →
  returns (flat_shuffle names lines) (λ out, out = lines).
Proof.
  intros H. unfold flat_shuffle. rewrite no_targets by done.
  eapply returns_bind; [apply returns_shuffle|]. intros b Hb. cbv beta in Hb.
  apply Permutation_nil_r in Hb as ->. by apply returns_ret.
Qed.

Lemma fallback_shuffle_absent (names lines : list str) :
  (∀ line op, line ∈ lines → extract_opcode line = Some op → op ∉ names) →
  returns (fallback_shuffle names lines) (λ out, out = lines).
Proof.
  intros H. unfold fallback_shuffle. rewrite no_targets by done.
  eapply returns_bind; [by apply returns_lift_eq|]. intros ? ->.
  eapply returns_bind; [apply returns_shuffle|]. intros b Hb. cbv beta in Hb.
  apply Permutation_nil_r in Hb as ->. by apply returns_ret.
Qed.

Lemma reorder_step_absent (g : group) (lines fallback : list str) (op : str) :
  (∀ line, line ∈ lines → extract_opcode line ≠ Some op) →
  returns (reorder_step g (lines, fallback) op)
    (λ st, st.1 = lines ∧ ∀ x, x ∈ st.2 → x ∈ fallback ∨ x = op).
Proof.
  intros H. unfold reorder_step.
  eapply returns_bind; [apply returns_random|]. intros r _.
  destruct (Qle_bool r (reorder_prob g)).
  - rewrite opcode_index_absent by done. apply returns_ret. auto.
  - apply returns_ret. split; [done|]. intros x [?|Hx]%elem_of_app; [auto|].
    apply list_elem_of_singleton in Hx. auto.
Qed.

Lemma relocate_step_absent (g : group) (lines block : list str) :
  (∀ line op, line ∈ lines → extract_opcode line = Some op → op ∉ block) →
  returns (relocate_step g lines block) (λ out, out = lines).
Proof.
  intros H. unfold relocate_step.
  assert (omap (λ op, opcode_index lines !! op) block = []) as ->.
  { assert (∀ op, op ∈ block → opcode_index lines !! op = None) as Hnone.
    { intros op Hop. apply opcode_index_absent. intros line Hl Hx.
      by apply (H line op). }
    clear H. induction block as [|op block IH]; [done|]. csimpl.
    rewrite Hnone by left. apply IH. intros op' Hop'. apply Hnone. by right. }
  eapply returns_bind; [by apply returns_lift_eq|]. intros ? ->.
  eapply returns_bind; [by apply returns_lift_eq|]. intros ? ->.
  eapply (returns_bind _ _ (λ _, True)).
  { destruct (_ ++ _) eqn:Ea.
    - unfold randint. eapply returns_bind; [apply returns_randbelow; lia|].
      intros. by apply returns_ret.
    - eapply returns_weaken; [by apply returns_choice | done]. }
  intros p _. apply returns_ret. unfold slice_to, slice_from. simpl.
  apply take_drop.
Qed.

(** X10. A group none of whose names the table defines is skipped without a
    word: on every tape the body of the loop returns the table as it
    received it. *)
Theorem process_group_skips_absent_names (g : group) (lines : list str) :
  set_of_names lines ## list_to_set (names_of g) →
  returns (process_group lines g) (λ out, out = lines).
Proof.
  intros Hdisj.
  assert (∀ line op, line ∈ lines → extract_opcode line = Some op →
                     op ∉ names_of g) as H.
  { intros line op Hl Hop Hin. apply (Hdisj op).
    - apply elem_of_list_to_set, list_elem_of_omap. eauto.
    - by apply elem_of_list_to_set. }
  unfold names_of in H. unfold process_group.
  eapply returns_bind.
  { apply flat_shuffle_absent. intros line op Hl Hop Hin.
    apply (H line op Hl Hop). apply elem_of_app. by left. }
  intros ? ->.
  eapply (returns_bind _ _ (λ st, st.1 = lines ∧ ∀ x, x ∈ st.2 → x ∈ reorder_list g)).
  { apply (returns_for_each _ (λ st, st.1 = lines ∧ ∀ x, x ∈ st.2 → x ∈ reorder_list g)).
    - intros [l fb] op [Hl Hfb] Hop. cbn [fst snd] in Hl, Hfb. subst l.
      eapply returns_weaken.
      + apply reorder_step_absent. intros line Hline Hx.
        apply (H line op Hline Hx). apply elem_of_app. right.
        apply elem_of_app. by left.
      + intros st [Hst1 Hst2]. split; [done|]. intros x Hx.
        destruct (Hst2 x Hx) as [?| ->]; auto.
    - split; [done|]. intros x Hx. by apply elem_of_nil in Hx. }
  intros [l fb] [Hl Hfb]. cbn [fst snd] in Hl, Hfb. subst l.
  eapply returns_bind.
  { apply fallback_shuffle_absent. intros line op Hl Hop Hin.
    apply (H line op Hl Hop). apply elem_of_app. right.
    apply elem_of_app. left. by apply Hfb. }
  intros ? ->.
  apply (returns_for_each _ (λ l, l = lines)); [|done].
  intros l block -> Hblock. apply relocate_step_absent.
  intros line op Hl Hop Hin. apply (H line op Hl Hop).
  apply elem_of_app. right. apply elem_of_app. right.
  apply list_elem_of_In, in_concat. exists block.
  split; by apply list_elem_of_In.
Qed.

(** The theorem on a table without the names of the big-number group. *)
Lemma process_group_skips_absent_names_witness :
  let lines := readlines (lit (unlines ["DEF(add, 1)"; "DEF(sub, 1)"])) in
  returns (process_group lines GROUP_CONFIG_BIGNUM) (λ out, out = lines).
Proof.
  intros lines. apply (process_group_skips_absent_names GROUP_CONFIG_BIGNUM lines).
  compute_done.
Defined.

Lemma fix_step_closed (line : str) :
  closed_on_line line → fix_step false line = ([normalised line], false).
Proof.
  unfold closed_on_line, fix_step, normalised. cbv zeta.
  set (l := rstrip_nl line). intros H.
  destruct (contains (lit "*/") l) eqn:E; rewrite !H; cbn [andb negb orb];
    rewrite ?H, ?E; reflexivity.
Qed.

Lemma fix_loop_closed (lines : list str) :
  Forall closed_on_line lines →
  fix_loop false lines = (normalised <$> lines, false).
Proof.
  induction 1 as [|line lines Hline _ IH]; [done|].
  cbn [fix_loop]. by rewrite fix_step_closed, IH.
Qed.

(** The fix-up leaves alone a table in which every line that holds a comment
    token holds both. *)
Lemma fixup_keeps_closed_tables (lines : list str) :
  Forall closed_on_line lines →
  fix_multiline_trailing_comments lines = normalised <$> lines.
Proof.
  intros H. unfold fix_multiline_trailing_comments.
  by rewrite fix_loop_closed.
Qed.

Lemma groups_loop_perm (lines : list str) :
  returns (for_each process_group lines GROUPS) (λ out, out ≡ₚ lines).
Proof.
  apply (returns_for_each _ (λ l, l ≡ₚ lines)); [|done].
  intros l g Hl Hg. eapply returns_weaken.
  - apply process_group_perm.
    exact (proj1 (list.Forall_forall _ _) GROUPS_blocks g Hg).
  - intros out Hout. cbv beta in Hout. by rewrite Hout.
Qed.

(** X11. On a table in which every line that holds a comment token holds
    both, the whole script only reorders: on every tape, the lines written
    are a permutation of the lines read, each with its trailing newlines
    replaced by one. *)
Theorem run_permutes_closed_tables (lines : list str) :
  Forall closed_on_line lines →
  returns (run lines) (λ out, out ≡ₚ normalised <$> lines).
Proof.
  intros H. unfold run.
  eapply returns_bind; [apply groups_loop_perm|]. intros out Hout.
  cbv beta in Hout. apply returns_ret.
  rewrite fixup_keeps_closed_tables.
  - by rewrite Hout.
  - by rewrite Hout.
Qed.

(** The theorem on a table with a comment on one line. *)
Lemma run_permutes_closed_tables_witness :
  let lines := readlines (lit (unlines
    ["/* short opcodes */"; "DEF(push_0, 1) /* 0 */"; "#if 1"])) in
  returns (run lines) (λ out, out ≡ₚ normalised <$> lines).
Proof.
  intros lines. apply (run_permutes_closed_tables lines).
  repeat constructor.
Defined.

End ShufflerSkips.

(** ** frida_builder.py: the patch of meson.build *)

Section MesonPatch.

Import Patcher Setup.

Local Abbreviation DEP := (lit "quickjs_dep = dependency('quickjs'").
Local Abbreviation no_opening l := (contains DEP l = false).

Lemma skip_spaces_split (s : str) :
  ∃ a, s = a ++ Shuffler.skip_spaces s ∧ Forall (λ c, Shuffler.is_space c = true) a.
Proof.
  induction s as [|c s (a & Hs & Ha)]; [by exists []|]. simpl.
  destruct (Shuffler.is_space c) eqn:E.
  - exists (c :: a). split; [by rewrite Hs at 1 | by constructor].
  - by exists [].
Qed.

(** A stripped line is the line without white space at its two ends. *)
Lemma strip_split (s : str) :
  ∃ a b, s = a ++ strip s ++ b
    ∧ Forall (λ c, Shuffler.is_space c = true) (a ++ b).
Proof.
  unfold strip, rstrip, lstrip.
  destruct (skip_spaces_split s) as (a & Hs & Ha).
  destruct (skip_spaces_split (reverse (Shuffler.skip_spaces s))) as (b & Hr & Hb).
  exists a, (reverse b). split.
  - rewrite Hs at 1. f_equal.
    rewrite <- (reverse_involutive (Shuffler.skip_spaces s)) at 1.
    rewrite Hr at 1. by rewrite reverse_app.
  - apply Forall_app. split; [done|]. by apply Forall_reverse.
Qed.

(** A line that closes the block does not open one. *)
Lemma closing_line_no_opening (line : str) :
  closes_block line → no_opening line.
Proof.
  intros Hc. destruct (strip_split line) as (a & b & Hs & Hab).
  apply Forall_app in Hab as [Ha Hb].
  apply contains_false. intros (x & y & Ho).
  assert (113%N ∈ line) as Hq.
  { rewrite Ho. apply elem_of_app. right. apply elem_of_app. left. compute_done. }
  rewrite Hs, Hc in Hq.
  apply elem_of_app in Hq as [Hq|[Hq|Hq]%elem_of_app].
  - by apply (proj1 (list.Forall_forall _ _) Ha) in Hq.
  - revert Hq. compute_done.
  - by apply (proj1 (list.Forall_forall _ _) Hb) in Hq.
Qed.

Lemma replace_block_keep (pre rest acc : list str) (found : bool) :
  Forall (λ l, no_opening l) pre →
  replace_block (pre ++ rest) false found acc
  = replace_block rest false found (acc ++ pre).
Proof.
  intros H. revert acc. induction H as [|l pre Hl _ IH]; intros acc.
  - by rewrite app_nil_r.
  - cbn [app replace_block]. rewrite Hl. cbn [andb negb].
    rewrite IH. by rewrite <- app_assoc.
Qed.

Lemma replace_block_drop (body rest acc : list str) :
  Forall (λ l, ¬ closes_block l) body →
  replace_block (body ++ rest) true true acc = replace_block rest true true acc.
Proof.
  intros H. induction H as [|l body Hl _ IH]; [done|].
  cbn [app replace_block]. destruct (contains DEP l); [done|].
  rewrite bool_decide_false by done. cbn [andb negb]. done.
Qed.

Lemma replace_block_open (dep : str) (rest acc : list str) (skip found : bool) :
  contains DEP dep = true →
  replace_block (dep :: rest) skip found acc = replace_block rest true true acc.
Proof. intros H. cbn [replace_block]. by rewrite H. Qed.

Lemma replace_block_close (line : str) (rest acc : list str) (found : bool) :
  closes_block line →
  replace_block (line :: rest) true found acc
  = replace_block rest false found (acc ++ [QUICKJS_REPLACEMENT]).
Proof.
  intros H. cbn [replace_block]. rewrite closing_line_no_opening by done.
  by rewrite bool_decide_true by done.
Qed.

(** What a run does to a file that is there. *)
Lemma patch_meson_build_run (w : fs) (text : str) :
  target_file w = Some text →
  patch_meson_build w
  = if contains patched_marker text then (inr tt, w)
    else if (replace_block (splitlines text) false false []).2
    then (inr tt,
          {| target_file :=
               Some (join (lit nl)
                       (replace_block (splitlines text) false false []).1
                     ++ lit nl) |})
    else (inl "Failed to find QuickJS dependency block", w).
Proof.
  destruct w as [file]. cbn [target_file]. intros ->.
  unfold patch_meson_build, is_meson_already_patched.
  unfold bind, exists_file, read_text, ret.
  cbn [negb default from_option target_file]. unfold id.
  fold patched_marker.
  destruct (contains patched_marker text); [done|].
  cbn [negb default from_option target_file]. unfold id.
  destruct (replace_block (splitlines text) false false []) as [new_lines []];
    done.
Qed.

(** X12. The replacement of the dependency block.  On a file without the
    marker whose lines are: lines that do not open the block, a line that
    opens it, lines that do not close it, a line that closes it, and lines
    that do not open it, the run writes the first lines, the replacement
    text in place of the block, and the last lines, joined by newlines. *)
Theorem patch_meson_build_replaces_block
    (w : fs) (text dep closing : str) (pre body post : list str) :
  target_file w = Some text →
  contains patched_marker text = false →
  splitlines text = pre ++ [dep] ++ body ++ [closing] ++ post →
  Forall (λ l, contains dependency_opening l = false) (pre ++ post) →
  contains dependency_opening dep = true →
  Forall (λ l, ¬ closes_block l) body →
  closes_block closing →
  patch_meson_build w
  = (inr tt,
     {| target_file :=
          Some (join (lit nl) (pre ++ [QUICKJS_REPLACEMENT] ++ post)
                ++ lit nl) |}).
Proof.
  intros Hw Hm Hl [Hpre Hpost]%Forall_app Hdep Hbody Hclose.
  rewrite (patch_meson_build_run w text Hw), Hm, Hl.
  assert (replace_block (pre ++ [dep] ++ body ++ [closing] ++ post)
            false false []
          = (pre ++ [QUICKJS_REPLACEMENT] ++ post, true)) as ->; [|done].
  rewrite replace_block_keep by done. cbn [app].
  rewrite replace_block_open by done.
  rewrite replace_block_drop by done. cbn [app].
  rewrite replace_block_close by done.
  rewrite <- (app_nil_r post) at 1.
  rewrite replace_block_keep by done. cbn [replace_block].
  by rewrite <- !app_assoc.
Qed.

(** The theorem on a small file. *)
Lemma patch_meson_build_replaces_block_witness :
  patch_meson_build {| target_file := Some sample_meson |}
  = (inr tt,
     {| target_file :=
          Some (join (lit nl)
                  ([lit "a = 1"] ++ [QUICKJS_REPLACEMENT] ++ [lit "b = 3"])
                ++ lit nl) |}).
Proof.
  apply (patch_meson_build_replaces_block _ sample_meson
           (lit "  quickjs_dep = dependency('quickjs', required: false)")
           (lit "  endif") [lit "a = 1"] [lit "  x = 2"] [lit "b = 3"]).
  - reflexivity.
  - vm_compute. reflexivity.
  - vm_compute. reflexivity.
  - repeat constructor.
  - vm_compute. reflexivity.
  - constructor; [|constructor]. intros H. vm_compute in H. discriminate.
  - vm_compute. reflexivity.
Defined.

(** X13. A dependency block that is opened and never closed.  On a file
    without the marker whose lines are: lines that do not open the block, a
    line that opens it, and lines none of which closes it, the run reports
    no error and writes the first lines only: the file loses everything from
    the opening line on, and receives no replacement. *)
Theorem patch_meson_build_unclosed_block
    (w : fs) (text dep : str) (pre rest : list str) :
  target_file w = Some text →
  contains patched_marker text = false →
  splitlines text = pre ++ [dep] ++ rest →
  Forall (λ l, contains dependency_opening l = false) pre →
  contains dependency_opening dep = true →
  Forall (λ l, ¬ closes_block l) rest →
  patch_meson_build w
  = (inr tt, {| target_file := Some (join (lit nl) pre ++ lit nl) |}).
Proof.
  intros Hw Hm Hl Hpre Hdep Hrest.
  rewrite (patch_meson_build_run w text Hw), Hm, Hl.
  assert (replace_block (pre ++ [dep] ++ rest) false false [] = (pre, true))
    as ->; [|done].
  rewrite replace_block_keep by done. cbn [app].
  rewrite replace_block_open by done.
  rewrite <- (app_nil_r rest).
  by rewrite replace_block_drop by done.
Qed.

(** The theorem on a small file. *)
Lemma patch_meson_build_unclosed_block_witness :
  patch_meson_build {| target_file := Some sample_meson_unclosed |}
  = (inr tt, {| target_file := Some (join (lit nl) [lit "a = 1"] ++ lit nl) |}).
Proof.
  apply (patch_meson_build_unclosed_block _ sample_meson_unclosed
           (lit "  quickjs_dep = dependency('quickjs', required: false)")
           [lit "a = 1"] [lit "  x = 2"; lit "b = 3"]).
  - reflexivity.
  - vm_compute. reflexivity.
  - vm_compute. reflexivity.
  - repeat constructor.
  - vm_compute. reflexivity.
  - repeat (constructor; [intros H; vm_compute in H; discriminate|]).
    constructor.
Defined.

Lemma replace_block_not_found (lines acc : list str) (skip found : bool) :
  Forall (λ l, no_opening l) lines →
  (replace_block lines skip found acc).2 = found.
Proof.
  intros H. revert skip acc. induction H as [|l lines Hl _ IH]; intros skip acc;
    [done|].
  cbn [replace_block]. rewrite Hl.
  destruct (skip && _); [apply IH|]. destruct (negb skip); apply IH.
Qed.

(** A line the loop keeps is the replacement or a line read that does not
    open the block. *)
Lemma replace_block_elems (lines acc : list str) (skip found : bool) (x : str) :
  x ∈ (replace_block lines skip found acc).1 →
  x ∈ acc ∨ x = QUICKJS_REPLACEMENT ∨ (x ∈ lines ∧ no_opening x).
Proof.
  revert skip found acc. induction lines as [|l lines IH]; intros skip found acc;
    [by left|].
  cbn [replace_block]. destruct (contains DEP l) eqn:El.
  { intros [?|[?|[? ?]]]%IH; [by left|by right; left|].
    right. right. split; [by right|done]. }
  destruct (skip && _).
  { intros [Hx|[?|[? ?]]]%IH; [|by right; left|].
    - apply elem_of_app in Hx as [?|Hx]; [by left|].
      apply list_elem_of_singleton in Hx. by right; left.
    - right. right. split; [by right|done]. }
  destruct (negb skip).
  - intros [Hx|[?|[? ?]]]%IH; [|by right; left|].
    + apply elem_of_app in Hx as [?|Hx]; [by left|].
      apply list_elem_of_singleton in Hx as ->.
      right. right. split; [left|done].
    + right. right. split; [by right|done].
  - intros [?|[?|[? ?]]]%IH; [by left|by right; left|].
    right. right. split; [by right|done].
Qed.

Lemma occurs_join_elem (sep x : str) (parts : list str) :
  x ∈ parts → occurs x (join sep parts).
Proof.
  induction parts as [|p rest IH]; [by intros ?%elem_of_nil|].
  intros [->|Hx]%elem_of_cons.
  - destruct rest; [by exists [], [] ; rewrite app_nil_r|].
    cbn [join]. apply (occurs_middle _ []).
  - destruct rest as [|q rest]; [by apply elem_of_nil in Hx|].
    change (join sep (p :: q :: rest)) with (p ++ sep ++ join sep (q :: rest)).
    do 2 apply occurs_app_l. by apply IH.
Qed.

Lemma occurs_nil (sub : str) : occurs sub [] → sub = [].
Proof.
  intros (a & b & H). symmetry in H. apply app_eq_nil in H as [_ H].
  by apply app_eq_nil in H as [H _].
Qed.

(** An occurrence, in lines joined and ended by newlines, of a string
    without a newline lies in one of the lines. *)
Lemma occurs_join_inv (sub : str) (parts : list str) :
  10%N ∉ sub → sub ≠ [] → occurs sub (join (lit nl) parts ++ lit nl) →
  ∃ p, p ∈ parts ∧ occurs sub p.
Proof.
  intros Hn Hne. change (lit nl) with [10%N].
  induction parts as [|p rest IH].
  - intros Ho. apply (occurs_split_absent sub [] [] 10%N Hn) in Ho as [Ho|Ho];
      by apply occurs_nil in Ho.
  - destruct rest as [|q rest].
    + cbn [join]. intros [Ho|Ho]%occurs_split_absent; [|by apply occurs_nil in Ho|done].
      exists p. split; [left|done].
    + change (join [10%N] (p :: q :: rest)) with (p ++ [10%N] ++ join [10%N] (q :: rest)).
      rewrite <- !app_assoc. cbn [app].
      intros [Ho|Ho]%occurs_split_absent; [| |done].
      * exists p. split; [left|done].
      * destruct (IH Ho) as (p' & Hp' & Hop'). exists p'. split; [by right|done].
Qed.

(** A line of [splitlines] is a stretch of the text. *)
Lemma splitlines_from_occurs (n : nat) (cur text l : str) :
  (length text ≤ n)%nat →
  l ∈ splitlines_from cur text → occurs l (cur ++ text).
Proof.
  revert cur text. induction n as [|n IH]; intros cur text Hn.
  - destruct text; [|simpl in Hn; lia]. cbn [splitlines_from].
    destruct cur; [by intros ?%elem_of_nil|].
    intros ->%list_elem_of_singleton. exists [], []. by rewrite !app_nil_r.
  - destruct text as [|c text].
    { cbn [splitlines_from]. destruct cur; [by intros ?%elem_of_nil|].
      intros ->%list_elem_of_singleton. exists [], []. by rewrite !app_nil_r. }
    simpl in Hn. cbn [splitlines_from]. destruct (is_linebreak c).
    + intros [->|Hl]%elem_of_cons; [by exists [], (c :: text)|].
      destruct text as [|d text]; [by apply elem_of_nil in Hl|].
      simpl in Hn.
      destruct ((c =? 13) && (d =? 10))%N.
      * apply (IH []) in Hl; [|lia]. cbn [app] in Hl.
        apply occurs_app_l. apply (occurs_app_l _ _ [c; d]) in Hl. exact Hl.
      * apply (IH []) in Hl; [|simpl; lia]. cbn [app] in Hl.
        apply occurs_app_l. apply (occurs_app_l _ _ [c]) in Hl. exact Hl.
    + intros Hl. apply IH in Hl; [|lia]. by rewrite <- app_assoc in Hl.
Qed.

Lemma splitlines_occurs (text l : str) : l ∈ splitlines text → occurs l text.
Proof. apply (splitlines_from_occurs (length text) []). lia. Qed.

(** A text that does not hold the opening of the block has no line that
    holds it. *)
Lemma splitlines_no_opening (text : str) :
  ¬ occurs DEP text → Forall (λ l, no_opening l) (splitlines text).
Proof.
  intros H. apply list.Forall_forall. intros l Hl%splitlines_occurs.
  apply contains_false. intros Ho. apply H. by eapply occurs_trans.
Qed.

(** X14. A file without the marker and without the opening of the dependency
    block is left as it is: the run stops with the message that the block
    was not found, and writes nothing. *)
Theorem patch_meson_build_missing_block (w : fs) (text : str) :
  target_file w = Some text →
  ¬ occurs patched_marker text →
  ¬ occurs dependency_opening text →
  patch_meson_build w = (inl "Failed to find QuickJS dependency block", w).
Proof.
  intros Hw Hm%contains_false Hd.
  rewrite (patch_meson_build_run w text Hw), Hm.
  by rewrite replace_block_not_found by by apply splitlines_no_opening.
Qed.

(** The theorem on a file of two lines. *)
Lemma patch_meson_build_missing_block_witness :
  let w := {| target_file := Some (lit (unlines ["a = 1"; "b = 2"])) |} in
  patch_meson_build w = (inl "Failed to find QuickJS dependency block", w).
Proof.
  intros w.
  apply (patch_meson_build_missing_block w (lit (unlines ["a = 1"; "b = 2"]))).
  - reflexivity.
  - apply contains_false. vm_compute. reflexivity.
  - apply contains_false. vm_compute. reflexivity.
Defined.

(** X15. The patch of [meson.build] is idempotent: on every file system, a
    second run leaves the file as the first run left it.  After a run that
    put the replacement in, the second run finds the marker and skips; after
    a run that wrote a file without the replacement (a block never closed),
    the second run finds no opening line and stops; after a run that
    stopped or skipped, the file is the original one. *)
Theorem patch_meson_build_idempotent (w : fs) :
  (patch_meson_build (patch_meson_build w).2).2 = (patch_meson_build w).2.
Proof.
  destruct (target_file w) as [text|] eqn:Hw; cycle 1.
  { assert (patch_meson_build w = (inl "Meson build file not found", w)) as ->.
    { destruct w as [file]. cbn [target_file] in Hw. by subst file. }
    cbn [snd].
    destruct w as [file]. cbn [target_file] in Hw. by subst file. }
  rewrite (patch_meson_build_run w text Hw).
  destruct (contains patched_marker text) eqn:Hm.
  { cbn [snd]. by rewrite (patch_meson_build_run w text Hw), Hm. }
  pose proof (replace_block_elems (splitlines text) [] false false) as Helems.
  destruct (replace_block (splitlines text) false false [])
    as [new_lines found] eqn:Hrb.
  cbn [fst snd] in *. destruct found; cycle 1.
  { cbn [snd]. by rewrite (patch_meson_build_run w text Hw), Hm, Hrb. }
  cbn [snd]. set (text' := join (lit nl) new_lines ++ lit nl).
  rewrite (patch_meson_build_run {| target_file := Some text' |} text' eq_refl).
  destruct (contains patched_marker text') eqn:Hm'; [done|].
  apply contains_false in Hm'.
  assert (Forall (λ l, no_opening l) new_lines) as Hclean.
  { apply list.Forall_forall. intros x Hx.
    destruct (Helems x Hx) as [?%elem_of_nil|[->|[_ ?]]]; [done| |done].
    destruct Hm'. apply occurs_app_r.
    eapply occurs_trans; [|by apply occurs_join_elem].
    apply contains_spec. by vm_compute. }
  rewrite replace_block_not_found; [done|].
  apply splitlines_no_opening. intros Ho.
  apply occurs_join_inv in Ho as (p & Hp & Hop); [|compute_done|done].
  apply contains_spec in Hop.
  pose proof (proj1 (list.Forall_forall _ _) Hclean p Hp). congruence.
Qed.

Lemma components_from_occurs (cur name c : str) :
  c ∈ components_from cur name → occurs c (cur ++ name).
Proof.
  revert cur. induction name as [|x name IH]; intros cur; cbn [components_from].
  - intros ->%list_elem_of_singleton. exists [], []. by rewrite !app_nil_r.
  - destruct (x =? 47)%N.
    + intros [->|Hc%IH]%elem_of_cons; [by exists [], (x :: name)|].
      cbn [app] in Hc. apply occurs_app_l. by apply (occurs_app_l _ _ [x]) in Hc.
    + intros Hc%IH. by rewrite <- app_assoc in Hc.
Qed.

(** X16. The filter of the extraction lets through no member whose name is
    an absolute path or has a component [..]: a name it keeps, which it
    keeps unchanged, does not start with a slash and none of the stretches
    between its slashes is [..]. *)
Theorem safe_filter_sound (name kept : str) :
  safe_filter name = Some kept →
  kept = name ∧ head name ≠ Some 47%N ∧ lit ".." ∉ components name.
Proof.
  unfold safe_filter.
  destruct (starts_with (lit "/") name) eqn:Hs; [done|].
  destruct (contains (lit "..") name) eqn:Hc; [done|].
  intros [= <-]. split_and!; [done| |].
  - destruct name as [|c name]; [done|]. cbn [head]. intros [= ->]. done.
  - intros Hin%components_from_occurs. apply contains_false in Hc. done.
Qed.

(** The theorem on the name of a member. *)
Lemma safe_filter_sound_witness :
  lit "quickjs/libregexp.c" = lit "quickjs/libregexp.c"
  ∧ head (lit "quickjs/libregexp.c") ≠ Some 47%N
  ∧ lit ".." ∉ components (lit "quickjs/libregexp.c").
Proof.
  apply (safe_filter_sound (lit "quickjs/libregexp.c") (lit "quickjs/libregexp.c")).
  reflexivity.
Defined.

End MesonPatch.

(** ** frida_builder.py: validation of the configuration *)

Section Configuration.

Import Config.

Lemma require_keys_cons (prefix k : string) (t : pytype)
    (keys : list (string * pytype)) (d : list (string * json)) :
  require_keys prefix ((k, t) :: keys) (Done (JDict d))
  = match member k d with
    | Some x =>
        if isinstance x t then require_keys prefix keys (Done (JDict d))
        else Died (prefix +:+ k)
    | None => Died (prefix +:+ k)
    end.
Proof.
  cbn [require_keys bind py_in py_item].
  destruct (member k d) as [x|]; [|done].
  rewrite bool_decide_true by eauto. cbn [negb bind].
  by destruct (isinstance x t).
Qed.

Lemma allow_keys_cons (prefix k : string) (t : pytype)
    (keys : list (string * pytype)) (d : list (string * json)) :
  allow_keys prefix ((k, t) :: keys) (Done (JDict d))
  = match member k d with
    | Some x =>
        if isinstance x t then allow_keys prefix keys (Done (JDict d))
        else Died (prefix +:+ k)
    | None => allow_keys prefix keys (Done (JDict d))
    end.
Proof.
  cbn [allow_keys bind py_in py_item].
  destruct (member k d) as [x|].
  - rewrite bool_decide_true by eauto. cbn [negb bind].
    by destruct (isinstance x t).
  - rewrite bool_decide_false by (by intros [? ?]). done.
Qed.

(** The validation of an object, member by member. *)
Lemma validate_config_dict (d : list (string * json)) :
  validate_config (JDict d)
  = match member "frida_version" d with
    | Some (JStr _) =>
      match member "compile" d with
      | Some (JDict c) =>
        match member "output_dir" d with
        | Some (JStr _) =>
          match member "options" d with
          | Some (JDict o) =>
            let* _ := require_keys "Missing or invalid compile." COMPILE_KEYS
                        (Done (JDict c)) in
            let* _ := require_keys "Missing or invalid options." OPTION_KEYS
                        (Done (JDict o)) in
            match member "atoms" d with
            | None => Done tt
            | Some (JDict a) =>
                allow_keys "Invalid atoms." ATOM_KEYS (Done (JDict a))
            | Some _ => Died "atoms must be a dictionary"
            end
          | _ => Died "Missing or invalid config key: options"
          end
        | _ => Died "Missing or invalid config key: output_dir"
        end
      | _ => Died "Missing or invalid config key: compile"
      end
    | _ => Died "Missing or invalid config key: frida_version"
    end.
Proof.
  unfold validate_config, REQUIRED_KEYS.
  rewrite !require_keys_cons.
  destruct (member "frida_version" d) as [[]|]; try reflexivity.
  destruct (member "compile" d) as [[]|] eqn:Ec; try reflexivity.
  destruct (member "output_dir" d) as [[]|]; try reflexivity.
  destruct (member "options" d) as [[]|] eqn:Eo; try reflexivity.
  cbn [isinstance require_keys bind py_item py_in]. rewrite Ec, Eo.
  destruct (require_keys _ COMPILE_KEYS _); try reflexivity.
  destruct (require_keys _ OPTION_KEYS _); try reflexivity.
  destruct (member "atoms" d) as [[]|] eqn:Ea;
    rewrite ?bool_decide_true by eauto;
    rewrite ?bool_decide_false by (by intros [? ?]);
    try reflexivity.
Qed.

Lemma holds_bool_member (d : list (string * json)) (k : string) :
  holds_bool d k ↔ ∃ x, member k d = Some x ∧ isinstance x Tbool = true.
Proof.
  split.
  - intros [b Hb]. by exists (JBool b).
  - intros (x & Hx & Hi). destruct x; try done. by eexists.
Qed.

Lemma require_bool (prefix k : string) (keys : list (string * pytype))
    (d : list (string * json)) :
  require_keys prefix ((k, Tbool) :: keys) (Done (JDict d)) = Done tt →
  holds_bool d k ∧ require_keys prefix keys (Done (JDict d)) = Done tt.
Proof.
  rewrite require_keys_cons. destruct (member k d) as [[]|] eqn:E; try done.
  intros H. split; [by eexists|done].
Qed.

Lemma validate_config_well_formed (cfg : json) :
  validate_config cfg = Done tt → well_formed cfg.
Proof.
  destruct cfg as [| | | |s|l|d]; try done.
  { unfold validate_config. cbn [REQUIRED_KEYS require_keys bind py_in].
    by destruct (contains _ _). }
  { unfold validate_config. cbn [REQUIRED_KEYS require_keys bind py_in].
    by destruct (existsb _ _). }
  rewrite validate_config_dict.
  destruct (member "frida_version" d) as [[]|] eqn:Ev; try done.
  destruct (member "compile" d) as [[| | | | | |c]|] eqn:Ec; try done.
  destruct (member "output_dir" d) as [[]|] eqn:Ed; try done.
  destruct (member "options" d) as [[| | | | | |o]|] eqn:Eo; try done.
  destruct (require_keys _ COMPILE_KEYS _) as [[]| |] eqn:E1; try done.
  destruct (require_keys _ OPTION_KEYS _) as [[]| |] eqn:E2; try done.
  cbn [bind]. intros Ha.
  unfold COMPILE_KEYS in E1.
  apply require_bool in E1 as [H1 E1]. apply require_bool in E1 as [H2 E1].
  apply require_bool in E1 as [H3 E1]. apply require_bool in E1 as [H4 E1].
  apply require_bool in E1 as [H5 _].
  apply require_bool in E2 as [H6 _].
  exists d, c, o. split_and!; try done; [by eexists..|].
  destruct (member "atoms" d) as [[| | | | | |a]|] eqn:Eat; try done; [|by left].
  right. exists a. split; [done|].
  unfold ATOM_KEYS in Ha. rewrite allow_keys_cons in Ha.
  destruct (member "custom_encryption_key" a) as [[]|] eqn:Ek; try done;
    [|by left].
  right. by eexists.
Qed.

Lemma well_formed_validate (cfg : json) :
  well_formed cfg → validate_config cfg = Done tt.
Proof.
  intros (d & c & o & -> & [v Hv] & [dir Hdir] & Hc & [b1 H1] & [b2 H2]
          & [b3 H3] & [b4 H4] & [b5 H5] & Ho & [b6 H6] & Ha).
  rewrite validate_config_dict, Hv, Hc, Hdir, Ho.
  unfold COMPILE_KEYS, OPTION_KEYS. rewrite !require_keys_cons.
  rewrite H1, H2, H3, H4, H5, H6. cbn [isinstance require_keys bind].
  destruct Ha as [->|(a & -> & Hk)]; [done|].
  unfold ATOM_KEYS. rewrite allow_keys_cons.
  by destruct Hk as [->|[s ->]].
Qed.

(** X17. The configurations that pass the validation are the well-formed
    ones: a JSON object with the version and the output directory as
    strings, the five components and the option on V8 as truth values (a
    number is none), and atoms, when there are any, that are an object whose
    passphrase, when there is one, is a string. *)
Theorem validate_config_accepts (cfg : json) :
  validate_config cfg = Done tt ↔ well_formed cfg.
Proof.
  split; [apply validate_config_well_formed | apply well_formed_validate].
Qed.

Lemma require_keys_no_exception (prefix : string)
    (keys : list (string * pytype)) (d : list (string * json)) (exc : string) :
  require_keys prefix keys (Done (JDict d)) ≠ Raised exc.
Proof.
  induction keys as [|[k t] keys IH]; [done|].
  rewrite require_keys_cons. destruct (member k d) as [x|]; [|done].
  by destruct (isinstance x t).
Qed.

Lemma allow_keys_no_exception (prefix : string)
    (keys : list (string * pytype)) (d : list (string * json)) (exc : string) :
  allow_keys prefix keys (Done (JDict d)) ≠ Raised exc.
Proof.
  induction keys as [|[k t] keys IH]; [done|].
  rewrite allow_keys_cons. destruct (member k d) as [x|]; [|done].
  by destruct (isinstance x t).
Qed.

(** X18. On a JSON object the validation raises no exception: whatever the
    members are, it returns or it stops in [die] with a message.  (On a JSON
    value that is not an object it can raise: the string ["frida_version"]
    passes the membership test and fails the subscript.) *)
Theorem validate_config_no_exception (d : list (string * json)) :
  (validate_config (JDict d) = Done tt
   ∨ ∃ msg, validate_config (JDict d) = Died msg)
  ∧ validate_config (JStr (lit "frida_version")) = Raised "TypeError".
Proof.
  split; [|by vm_compute].
  destruct (validate_config (JDict d)) as [[]|msg|exc] eqn:E;
    [by left|by right; eexists|].
  exfalso. revert E. rewrite validate_config_dict.
  destruct (member "frida_version" d) as [[]|]; try done.
  destruct (member "compile" d) as [[]|]; try done.
  destruct (member "output_dir" d) as [[]|]; try done.
  destruct (member "options" d) as [[]|]; try done.
  destruct (require_keys _ COMPILE_KEYS _) as [[]| |] eqn:E1; try done;
    [|by apply require_keys_no_exception in E1].
  destruct (require_keys _ OPTION_KEYS _) as [[]| |] eqn:E2; try done;
    [|by apply require_keys_no_exception in E2].
  cbn [bind].
  destruct (member "atoms" d) as [[]|]; try done.
  apply allow_keys_no_exception.
Qed.

(** X19. The validation reads five members of the configuration and nothing
    else: two objects that agree on the version, the components, the output
    directory, the options and the atoms get the same verdict, whatever
    their other members are.  The members that switch on the shuffle of the
    opcodes or the custom compilers are not validated. *)
Theorem validate_config_reads_five_members (d1 d2 : list (string * json)) :
  (∀ k, k ∈ validated_keys → member k d1 = member k d2) →
  validate_config (JDict d1) = validate_config (JDict d2).
Proof.
  intros H. rewrite !validate_config_dict.
  rewrite (H "frida_version"), (H "compile"), (H "output_dir"),
    (H "options"), (H "atoms") by compute_done.
  done.
Qed.

(** The theorem on a configuration that passes the validation, with and
    without its member on the shuffle of the opcodes. *)
Lemma validate_config_reads_five_members_witness :
  validate_config (JDict sample_members)
  = validate_config (JDict (without "shuffle_opcodes" sample_members)).
Proof.
  apply (validate_config_reads_five_members sample_members
           (without "shuffle_opcodes" sample_members)).
  intros k Hk. unfold validated_keys in Hk.
  repeat (apply elem_of_cons in Hk as [->|Hk]; [reflexivity|]).
  by apply elem_of_nil in Hk.
Defined.

(** X20. The flags of the build for a configuration that passed the
    validation.  The making of the flags raises no exception, and the flags
    are: the two fixed ones, then the flag of each of the five components
    that is set to true, in the order of the source, then the five fixed
    ones, then the pair that disables V8 when the option is set to true and
    the pair that enables it when not. *)
Theorem configure_flags_of_valid_config (cfg : json) :
  validate_config cfg = Done tt →
  ∃ d c o,
    cfg = JDict d
    ∧ member "compile" d = Some (JDict c)
    ∧ member "options" d = Some (JDict o)
    ∧ configure_flags cfg
      = Done (["./configure"; "--host=android-arm64"]
              ++ (filter (λ p, is_on c p.1) ENABLE_FLAGS).*2
              ++ ["--"; "-Dfrida-gum:devkits=gum,gumjs";
                  "-Dfrida-core:devkits=core";
                  "-Dfrida-gumjs:quickjs=enabled";
                  "-Dfrida-gum:quickjs=enabled"]
              ++ if is_on o "disable_v8"
                 then ["-Dfrida-gum:v8=disabled"; "-Dfrida-gumjs:v8=disabled"]
                 else ["-Dfrida-gum:v8=enabled"; "-Dfrida-gumjs:v8=enabled"]).
Proof.
  intros (d & c & o & -> & _ & _ & Hc & [b1 H1] & [b2 H2]
          & [b3 H3] & [b4 H4] & [b5 H5] & Ho & [b6 H6] & _)%validate_config_well_formed.
  exists d, c, o. split_and!; [done|done|done|].
  unfold configure_flags, ENABLE_FLAGS.
  cbn [add_enabled bind py_item py_get]. rewrite Hc, Ho.
  cbn [bind py_get]. rewrite H1, H2, H3, H4, H5, H6.
  unfold is_on. cbn [filter list_filter fst snd]. rewrite H1, H2, H3, H4, H5, H6.
  by destruct b1, b2, b3, b4, b5, b6.
Qed.

(** The theorem on a configuration that passes the validation. *)
Lemma configure_flags_of_valid_config_witness :
  ∃ d c o,
    sample_config = JDict d
    ∧ member "compile" d = Some (JDict c)
    ∧ member "options" d = Some (JDict o)
    ∧ configure_flags sample_config
      = Done (["./configure"; "--host=android-arm64"]
              ++ (filter (λ p, is_on c p.1) ENABLE_FLAGS).*2
              ++ ["--"; "-Dfrida-gum:devkits=gum,gumjs";
                  "-Dfrida-core:devkits=core";
                  "-Dfrida-gumjs:quickjs=enabled";
                  "-Dfrida-gum:quickjs=enabled"]
              ++ if is_on o "disable_v8"
                 then ["-Dfrida-gum:v8=disabled"; "-Dfrida-gumjs:v8=disabled"]
                 else ["-Dfrida-gum:v8=enabled"; "-Dfrida-gumjs:v8=enabled"]).
Proof.
  apply (configure_flags_of_valid_config sample_config). reflexivity.
Defined.

End Configuration.

(** ** frida_builder.py: the header of generate_stuff_h *)

Section Header.

Import Rand Hashlib Deriver Stuff.

Lemma all_chars_replace_dot (v : str) :
  all_chars is_name_char (replace_char 46 95 v)
  = all_chars (λ c, is_name_char c || (c =? 46)%N) v.
Proof.
  induction v as [|c v IH]; [done|]. unfold all_chars, replace_char in *.
  cbn [fmap list_fmap forallb]. rewrite IH.
  destruct (N.eqb_spec c 46) as [->|]; [done|].
  by rewrite orb_false_r.
Qed.

(** X21. The guard of the header is a name of the preprocessor exactly when
    the version is made of letters, digits, underscores and dots: the dots
    are the only characters that are replaced, so a version with a hyphen or
    a plus sign gives a guard that is not a name. *)
Theorem header_guard_is_name (frida_version : str) :
  all_chars is_name_char (header_guard frida_version)
  = all_chars (λ c, is_name_char c || (c =? 46)%N) frida_version.
Proof.
  unfold header_guard, all_chars. rewrite !forallb_app.
  fold (all_chars is_name_char (replace_char 46 95 frida_version)).
  rewrite all_chars_replace_dot.
  change (forallb is_name_char (lit "FRIDA_")) with true.
  change (forallb is_name_char (lit "_STUFF_H")) with true.
  by rewrite andb_true_r.
Qed.

Lemma is_byte_range256 (b : Z) : is_byte b → b ∈ range256.
Proof.
  intros Hb. unfold range256. apply list_elem_of_fmap.
  exists (Z.to_nat b). split; [unfold is_byte in Hb; lia|].
  apply elem_of_seq. unfold is_byte in Hb. lia.
Qed.

(** An entry is [0x] and two digits that read back as the byte. *)
Lemma format_byte_reads_back (b : Z) :
  is_byte b →
  ∃ a c, format_byte b = String "0" (String "x" (String a (String c EmptyString)))
    ∧ is_hex a = true ∧ is_hex c = true
    ∧ 16 * hex_digit a + hex_digit c = b.
Proof.
  intros Hb%is_byte_range256.
  set (a := λ b : Z, hex_char (b / 16)). set (c := λ b : Z, hex_char (b mod 16)).
  set (check := λ b : Z,
    String.eqb (format_byte b)
      (String "0" (String "x" (String (a b) (String (c b) EmptyString))))
    && is_hex (a b) && is_hex (c b)
    && (16 * hex_digit (a b) + hex_digit (c b) =? b)).
  assert (forallb check range256 = true) as Hall by (by vm_compute).
  rewrite forallb_forall in Hall. apply list_elem_of_In in Hb.
  specialize (Hall b Hb). unfold check in Hall.
  apply andb_true_iff in Hall as [[[Hf%String.eqb_eq Ha]%andb_true_iff Hc]%andb_true_iff Hv%Z.eqb_eq].
  by exists (a b), (c b).
Qed.

Lemma read_entries_cons (a c : ascii) (rest : string) :
  rest ≠ EmptyString →
  read_entries (String "0" (String "x" (String a (String c (", " +:+ rest)))))
  = if is_hex a && is_hex c
    then cons (16 * hex_digit a + hex_digit c) <$> read_entries rest
    else None.
Proof. intros H. by destruct rest. Qed.

Lemma read_entries_bytes_list (l : list Z) :
  Forall is_byte l → read_entries (bytes_list l) = Some l.
Proof.
  induction 1 as [|b l Hb _ IH]; [done|].
  destruct (format_byte_reads_back b Hb) as (a & c & Hf & Ha & Hc & Hv).
  unfold bytes_list in *. cbn [fmap list_fmap String.concat].
  destruct l as [|b' l].
  - cbn [fmap list_fmap]. rewrite Hf. cbn [read_entries]. rewrite Ha, Hc, Hv. done.
  - cbn [fmap list_fmap] in *. rewrite Hf.
    assert (String.concat ", " (format_byte b' :: (format_byte <$> l))
            ≠ EmptyString) as Hne.
    { destruct (format_byte <$> l); cbn [String.concat]; by unfold format_byte. }
    set (rest := String.concat ", " (format_byte b' :: (format_byte <$> l))) in *.
    change (read_entries (String "0" (String "x" (String a (String c (", " +:+ rest)))))
            = Some (b :: b' :: l)).
    rewrite read_entries_cons by done. by rewrite Ha, Hc, Hv, IH.
Qed.

Lemma ensures_ret {A} (a : A) (P : A → Prop) : P a → ensures (ret a) P.
Proof. intros Ha t a' t' [= <- _]. done. Qed.

Lemma ensures_bind {A B} (m : rand A) (k : A → rand B)
    (P : A → Prop) (Q : B → Prop) :
  ensures m P → (∀ a, P a → ensures (k a) Q) → ensures (bind m k) Q.
Proof.
  intros Hm Hk t b t'. unfold bind.
  destruct (m t) as [[a t1]|] eqn:E; [|done].
  intros Hrun. eapply Hk; [|done]. by eapply Hm.
Qed.

Lemma ensures_any {A} (m : rand A) : ensures m (λ _, True).
Proof. done. Qed.

Lemma returns_ensures {A} (m : rand A) (P Q : A → Prop) :
  returns m P → ensures m Q → returns m (λ a, P a ∧ Q a).
Proof.
  intros Hr He t. destruct (Hr t) as (a & t' & Hrun & Ha).
  exists a, t'. split; [done|]. split; [done|]. by eapply He.
Qed.

Lemma be_bytes_bytes (n : nat) (x : Z) : Forall is_byte (be_bytes n x).
Proof.
  revert x. induction n as [|n IH]; intros x; [constructor|].
  cbn [be_bytes]. apply Forall_app. split; [apply IH|].
  constructor; [|constructor]. apply Z.mod_pos_bound. lia.
Qed.

Lemma digest_bytes (alg : sha2) (msg : list Z) : Forall is_byte (digest alg msg).
Proof.
  unfold digest.
  destruct (foldl _ _ _) as [[[[[[[a b] c] d] e] f] g] h].
  cbn [fmap list_fmap concat].
  repeat (apply Forall_app; split; [apply be_bytes_bytes|]). constructor.
Qed.

Lemma stretch_bytes (fuel : nat) (state final : list Z) (out_len : Z) :
  Forall is_byte final →
  ensures (stretch fuel state final out_len) (Forall is_byte).
Proof.
  revert final. induction fuel as [|fuel IH]; intros final Hf; cbn [stretch].
  - destruct (_ <? _); [done|]. by apply ensures_ret.
  - destruct (_ <? _); [|by apply ensures_ret].
    eapply ensures_bind; [apply ensures_any|]. intros t32 _.
    apply IH. apply Forall_app. split; [done|]. apply digest_bytes.
Qed.

Lemma derive_final_bytes (key_bytes : list Z) :
  ensures (derive key_bytes) (λ d, Forall is_byte (final d)).
Proof.
  unfold derive.
  do 6 (eapply ensures_bind; [apply ensures_any|]; intros ? _).
  eapply ensures_bind; [apply ensures_any|]. intros state _.
  eapply ensures_bind; [apply ensures_any|]. intros state' _.
  eapply ensures_bind; [by apply stretch_bytes|]. intros f Hf.
  do 2 (eapply ensures_bind; [apply ensures_any|]; intros ? _).
  eapply ensures_bind; [apply ensures_any|]. intros [p box] _.
  apply ensures_ret. cbn [Deriver.final].
  unfold slice_to. by apply Forall_take.
Qed.

(** X22. The two lists of the header read back as what was derived.  For a
    passphrase of at least one byte and on every tape, the blob and the
    substitution box are lists of bytes, each entry is written as [0x] and
    two digits, and reading the entries of the two lists of the header gives
    the blob and the box again: nothing is lost or merged in the
    formatting. *)
Theorem header_lists_read_back (key_bytes : list Z) :
  key_bytes ≠ [] →
  returns (derive key_bytes)
    (λ d, Forall is_byte (final d) ∧ Forall is_byte (sbox d)
          ∧ read_entries (bytes_list (final d)) = Some (final d)
          ∧ read_entries (bytes_list (sbox d)) = Some (sbox d)).
Proof.
  intros Hk. eapply returns_weaken.
  { apply returns_ensures; [by apply returns_derive|apply derive_final_bytes]. }
  intros d [(_ & Hbox & _) Hfinal]. cbv beta in Hfinal.
  assert (Forall is_byte (sbox d)) as Hsbox.
  { rewrite Hbox. apply list.Forall_forall.
    intros b (n & -> & Hn%elem_of_seq)%list_elem_of_fmap. unfold is_byte. lia. }
  split_and!; [done|done|by apply read_entries_bytes_list..].
Qed.

(** The theorem on a passphrase. *)
Lemma header_lists_read_back_witness :
  returns (derive (ascii_bytes "hunter2"))
    (λ d, Forall is_byte (final d) ∧ Forall is_byte (sbox d)
          ∧ read_entries (bytes_list (final d)) = Some (final d)
          ∧ read_entries (bytes_list (sbox d)) = Some (sbox d)).
Proof. apply (header_lists_read_back (ascii_bytes "hunter2")). done. Defined.

End Header.

(** ** frida_builder.py: generate_stuff_h on the configuration *)

Section StuffOfConfig.

Import Config.

Lemma encode_char_is_Some (c : char) :
  is_Some (encode_char c) ↔ (c < 55296 ∨ 57343 < c < 1114112)%N.
Proof.
  unfold encode_char. cbv zeta.
  destruct (Z.ltb_spec (Z.of_N c) 128), (Z.ltb_spec (Z.of_N c) 2048),
    (Z.leb_spec 55296 (Z.of_N c)), (Z.leb_spec (Z.of_N c) 57343),
    (Z.ltb_spec (Z.of_N c) 65536), (Z.ltb_spec (Z.of_N c) 1114112);
    cbn [andb]; try lia;
    (split; [intros Hs; try lia; by destruct Hs as [? [=]]
            |intros Hs; try (by eexists); lia]).
Qed.

(** The strings that [encode] takes are the ones without a surrogate. *)
Lemma encode_is_Some (s : str) : is_Some (encode s) ↔ encodable s.
Proof.
  unfold encodable. induction s as [|c s IH]; [split; [constructor|by eexists]|].
  rewrite list.Forall_cons. cbv beta.
  rewrite <- IH, <- encode_char_is_Some. cbn [encode].
  destruct (encode_char c), (encode s); split;
    try (by intros [? [=]]); try (by intros [[? [=]] _]);
    try (by intros [_ [? [=]]]); intros _; by repeat (split || eexists).
Qed.

Lemma encodable_app (a b : str) :
  encodable (a ++ b) ↔ encodable a ∧ encodable b.
Proof. apply Forall_app. Qed.

Lemma encodable_lit (k : string) : encodable (lit k).
Proof.
  unfold encodable, lit. apply list.Forall_forall.
  intros c (a & <- & _)%list_elem_of_In%in_map_iff. left.
  pose proof (N_ascii_bounded a). lia.
Qed.

Lemma encodable_replace_char (v : str) :
  encodable (Stuff.replace_char 46 95 v) ↔ encodable v.
Proof.
  unfold encodable, Stuff.replace_char. rewrite Forall_fmap.
  apply Forall_iff. intros c. cbn.
  destruct (N.eqb_spec c 46) as [->|]; [lia|done].
Qed.

(** The header is encoded exactly when the version is: the rest of its text
    is ASCII. *)
Lemma encodable_header (version : str) (dv : Deriver.derivation) :
  encodable (Stuff.header version dv) ↔ encodable version.
Proof.
  unfold Stuff.header, Stuff.content, Stuff.header_guard.
  rewrite !encodable_app, encodable_replace_char.
  split; [by intros (_ & (_ & Hv & _) & _)|].
  intros Hv. repeat split; (done || apply encodable_lit).
Qed.

Lemma encode_nonempty (s : str) (bs : list Z) :
  encode s = Some bs → s ≠ [] → bs ≠ [].
Proof.
  destruct s as [|c s]; [done|]. intros H _. cbn [encode] in H.
  destruct (encode_char c) as [cs|] eqn:Ec; [|done].
  destruct (encode s); [|done]. injection H as <-.
  assert (cs ≠ []); [|by destruct cs].
  revert Ec. unfold encode_char. cbv zeta.
  repeat case_match; by intros [= <-].
Qed.

Lemma passphrase_inv (d : list (string * json)) (key : str) :
  passphrase (JDict d) = Some key →
  ∃ a, member "atoms" d = Some (JDict a)
       ∧ member "custom_encryption_key" a = Some (JStr key).
Proof.
  unfold passphrase. destruct (member "atoms" d) as [[]|]; try done.
  destruct (member "custom_encryption_key" _) as [[]|] eqn:E; try done.
  intros [= ->]. by eexists.
Qed.

(** The call on a configuration with a passphrase and a version. *)
Lemma generate_stuff_h_run (d : list (string * json)) (key version : str)
    (quickjs_dir_exists confirmed : bool) (t : Rand.tape) :
  passphrase (JDict d) = Some key →
  member "frida_version" d = Some (JStr version) →
  Stuff.generate_stuff_h (JDict d) quickjs_dir_exists confirmed t
  = match key with
    | [] => Some (Stuff.Skipped, t)
    | _ =>
        if negb quickjs_dir_exists
        then Some (Stuff.Died "QuickJS directory not found", t)
        else if negb confirmed then Some (Stuff.Skipped, t)
        else
          match encode key, encode version with
          | Some key_bytes, Some _ =>
              (λ r, (Stuff.Written (Stuff.header version r.1), r.2))
                <$> Deriver.derive key_bytes t
          | _, _ => None
          end
    end.
Proof.
  intros (a & Ha & Hk)%passphrase_inv Hv. unfold Stuff.generate_stuff_h.
  cbn [py_get py_item Stuff.eval]. rewrite Ha, Hv.
  unfold Rand.bind at 1. cbn [Rand.ret py_get Stuff.eval]. rewrite Hk.
  unfold Rand.bind at 1. cbn [Rand.ret truthy].
  destruct key as [|c key]; [done|]. cbn [negb].
  destruct quickjs_dir_exists; [|done]. destruct confirmed; [|done].
  cbn [negb]. unfold Rand.bind at 1, Rand.lift at 1.
  destruct (encode (c :: key)) as [key_bytes|]; [|done].
  change (Rand.ret key_bytes t) with (Some (key_bytes, t)). cbv iota beta.
  unfold Rand.bind at 1.
  destruct (Deriver.derive key_bytes t) as [[dv t']|]; [|by destruct (encode version)].
  unfold Rand.bind, Rand.ret, Rand.lift. cbn [Stuff.eval Rand.ret fmap option_fmap option_map fst snd].
  pose proof (encodable_header version dv) as He.
  rewrite <- !encode_is_Some in He.
  destruct (encode (Stuff.header version dv)), (encode version); try done.
  - exfalso. by destruct (proj1 He (mk_is_Some _ _ eq_refl)).
  - exfalso. by destruct (proj2 He (mk_is_Some _ _ eq_refl)).
Qed.

(** A configuration whose atoms are not an object makes the call raise. *)
Example generate_stuff_h_raises (t : Rand.tape) :
  Stuff.generate_stuff_h (JDict [("atoms", JList [])]) true true t = None.
Proof. reflexivity. Qed.

(** A passphrase that is a lone surrogate, which the validation lets
    through, makes the call raise. *)
Example surrogate_passphrase_raises :
  validate_config (JDict (members_with [55296%N])) = Done tt
  ∧ Stuff.generate_stuff_h (JDict (members_with [55296%N])) true true zero_tape
    = None.
Proof. split; reflexivity. Qed.

(** C5, as the function is guarded.  For every passphrase of at least one
    character that UTF-8 encodes, and a version that it encodes, once the
    directory is there and the user confirms, the call returns on every tape
    with a header written, for a derivation with a blob and a box of 256
    entries.  The empty passphrase is turned away on entry and nothing is
    derived (the derivation itself would raise on it); a passphrase with a
    lone surrogate makes the call raise when it is encoded. *)
Theorem deriver_total_on_encodable (d : list (string * json))
    (key version : str) :
  passphrase (JDict d) = Some key →
  member "frida_version" d = Some (JStr version) →
  key ≠ [] → encodable key → encodable version →
  returns (Stuff.generate_stuff_h (JDict d) true true)
    (λ o, ∃ dv, o = Stuff.Written (Stuff.header version dv)
                ∧ length (Deriver.sbox dv) = 256%nat
                ∧ 64 ≤ Z.of_nat (length (Deriver.final dv)) < 160)
  ∧ (∀ d0 quickjs_dir_exists confirmed t,
       passphrase (JDict d0) = Some [] →
       Stuff.generate_stuff_h (JDict d0) quickjs_dir_exists confirmed t
       = Some (Stuff.Skipped, t))
  ∧ (∀ d0 key0 t,
       passphrase (JDict d0) = Some key0 → key0 ≠ [] → ¬ encodable key0 →
       Stuff.generate_stuff_h (JDict d0) true true t = None)
  ∧ (∀ t, Deriver.derive [] t = None).
Proof.
  intros Hp Hv Hkey Hek Hev. split_and!.
  - intros t. rewrite (generate_stuff_h_run d key version) by done.
    destruct key as [|c key]; [done|]. cbn [negb].
    apply encode_is_Some in Hek as [key_bytes Hek], Hev as [vb Hev].
    rewrite Hek, Hev.
    destruct (returns_derive key_bytes) with (t := t)
      as (dv & t' & -> & Hlen & Hbox & _); [by eapply encode_nonempty|].
    eexists _, t'. split; [done|]. exists dv.
    split_and!; [done| |lia..].
    by rewrite Hbox, length_fmap, length_seq.
  - intros d0 dir conf t Hp0. unfold Stuff.generate_stuff_h.
    apply passphrase_inv in Hp0 as (a & Ha & Hk).
    cbn [py_get Stuff.eval]. rewrite Ha.
    unfold Rand.bind at 1. cbn [Rand.ret py_get Stuff.eval]. by rewrite Hk.
  - intros d0 key0 t Hp0 Hne He. unfold Stuff.generate_stuff_h.
    apply passphrase_inv in Hp0 as (a & Ha & Hk).
    cbn [py_get Stuff.eval]. rewrite Ha.
    unfold Rand.bind at 1. cbn [Rand.ret py_get Stuff.eval]. rewrite Hk.
    unfold Rand.bind at 1. cbn [Rand.ret truthy].
    destruct key0 as [|c key0]; [done|]. cbn [negb].
    unfold Rand.bind at 1, Rand.lift at 1.
    destruct (encode (c :: key0)) eqn:E; [|done].
    exfalso. apply He, encode_is_Some. by eexists.
  - apply derive_empty_key_raises.
Qed.

(** The empty passphrase yields neither a blob nor a box. *)
Lemma empty_passphrase_is_skipped :
  Stuff.generate_stuff_h (config_of (lit "16.5.9") []) true true zero_tape
  = Some (Stuff.Skipped, zero_tape)
  ∧ Deriver.derive [] zero_tape = None.
Proof. split; [done | apply derive_empty_key_raises]. Qed.

(** The theorem at the passphrase "hunter2". *)
Lemma deriver_total_on_encodable_witness :
  returns (Stuff.generate_stuff_h (JDict sample_members) true true)
    (λ o, ∃ dv, o = Stuff.Written (Stuff.header (lit "16.5.9") dv)
                ∧ length (Deriver.sbox dv) = 256%nat
                ∧ 64 ≤ Z.of_nat (length (Deriver.final dv)) < 160)
  ∧ (∀ d0 quickjs_dir_exists confirmed t,
       passphrase (JDict d0) = Some [] →
       Stuff.generate_stuff_h (JDict d0) quickjs_dir_exists confirmed t
       = Some (Stuff.Skipped, t))
  ∧ (∀ d0 key0 t,
       passphrase (JDict d0) = Some key0 → key0 ≠ [] → ¬ encodable key0 →
       Stuff.generate_stuff_h (JDict d0) true true t = None)
  ∧ (∀ t, Deriver.derive [] t = None).
Proof.
  apply (deriver_total_on_encodable sample_members (lit "hunter2") (lit "16.5.9"));
    [reflexivity|reflexivity|discriminate|..];
    apply (bool_decide_unpack _); vm_compute; reflexivity.
Defined.

(** X23. [generate_stuff_h] on a configuration that passed the validation.
    The call does nothing without a passphrase, with an empty one or without
    the consent of the user, and stops in [die] without the QuickJS
    directory.  Otherwise it encodes the passphrase, derives from its bytes
    and writes the header of the derivation under the guard of the version.
    It raises an exception exactly when it comes to the encoding and the
    passphrase or the version holds a lone surrogate, which the validation
    lets through. *)
Theorem generate_stuff_h_of_valid_config
    (cfg : json) (quickjs_dir_exists confirmed : bool) :
  validate_config cfg = Done tt →
  ∃ d version,
    cfg = JDict d ∧ member "frida_version" d = Some (JStr version)
    ∧ (∀ t, Stuff.generate_stuff_h cfg quickjs_dir_exists confirmed t
            = match passphrase cfg with
              | None | Some [] => Some (Stuff.Skipped, t)
              | Some key =>
                  if negb quickjs_dir_exists
                  then Some (Stuff.Died "QuickJS directory not found", t)
                  else if negb confirmed then Some (Stuff.Skipped, t)
                  else
                    match encode key, encode version with
                    | Some key_bytes, Some _ =>
                        (λ r, (Stuff.Written (Stuff.header version r.1), r.2))
                          <$> Deriver.derive key_bytes t
                    | _, _ => None
                    end
              end)
    ∧ (∀ t, Stuff.generate_stuff_h cfg quickjs_dir_exists confirmed t = None
            ↔ ∃ key, passphrase cfg = Some key ∧ key ≠ []
                     ∧ quickjs_dir_exists = true ∧ confirmed = true
                     ∧ ¬ (encodable key ∧ encodable version)).
Proof.
  intros (d & c & o & -> & [version Hv] & _ & _ & _ & _ & _ & _ & _ & _ & _ & Ha)
    %validate_config_well_formed.
  exists d, version. split; [done|]. split; [done|].
  assert (∀ t, Stuff.generate_stuff_h (JDict d) quickjs_dir_exists confirmed t
            = match passphrase (JDict d) with
              | None | Some [] => Some (Stuff.Skipped, t)
              | Some key =>
                  if negb quickjs_dir_exists
                  then Some (Stuff.Died "QuickJS directory not found", t)
                  else if negb confirmed then Some (Stuff.Skipped, t)
                  else
                    match encode key, encode version with
                    | Some key_bytes, Some _ =>
                        (λ r, (Stuff.Written (Stuff.header version r.1), r.2))
                          <$> Deriver.derive key_bytes t
                    | _, _ => None
                    end
              end) as Heq.
  { intros t. destruct (passphrase (JDict d)) as [key|] eqn:Hp.
    { rewrite (generate_stuff_h_run d key version) by done. by destruct key. }
    revert Hp. unfold Stuff.generate_stuff_h, passphrase.
    cbn [py_get py_item Stuff.eval].
    destruct Ha as [->|(a & -> & Hk)]; [done|].
    unfold Rand.bind at 1. cbn [Rand.ret py_get Stuff.eval].
    by destruct Hk as [->|[s ->]]. }
  split; [done|]. intros t. rewrite Heq.
  destruct (passphrase (JDict d)) as [[|c0 key]|] eqn:Hp.
  - split; [done|]. by intros (key & [= <-] & ? & _).
  - destruct quickjs_dir_exists; cbn [negb];
      [|split; [done|by intros (? & _ & _ & ? & _)]].
    destruct confirmed; cbn [negb];
      [|split; [done|by intros (? & _ & _ & _ & ? & _)]].
    destruct (encode (c0 :: key)) as [key_bytes|] eqn:Ek; cycle 1.
    { split; [|done]. intros _. exists (c0 :: key).
      split_and!; [done..|]. intros [[? He]%encode_is_Some _]. congruence. }
    destruct (encode version) as [vb|] eqn:Ev; cycle 1.
    { split; [|done]. intros _. exists (c0 :: key).
      split_and!; [done..|]. intros [_ [? He]%encode_is_Some]. congruence. }
    destruct (returns_derive key_bytes) with (t := t)
      as (dv & t' & -> & _); [by eapply encode_nonempty|].
    split; [done|]. intros (key' & [= <-] & _ & _ & _ & He). exfalso.
    apply He. split; apply encode_is_Some; by eexists.
  - split; [done|]. by intros (key & [=] & _).
Qed.

(** The theorem on a configuration that passes the validation. *)
Lemma generate_stuff_h_of_valid_config_witness :
  ∃ d version,
    sample_config = JDict d ∧ member "frida_version" d = Some (JStr version)
    ∧ (∀ t, Stuff.generate_stuff_h sample_config true true t
            = match passphrase sample_config with
              | None | Some [] => Some (Stuff.Skipped, t)
              | Some key =>
                  if negb true
                  then Some (Stuff.Died "QuickJS directory not found", t)
                  else if negb true then Some (Stuff.Skipped, t)
                  else
                    match encode key, encode version with
                    | Some key_bytes, Some _ =>
                        (λ r, (Stuff.Written (Stuff.header version r.1), r.2))
                          <$> Deriver.derive key_bytes t
                    | _, _ => None
                    end
              end)
    ∧ (∀ t, Stuff.generate_stuff_h sample_config true true t = None
            ↔ ∃ key, passphrase sample_config = Some key ∧ key ≠ []
                     ∧ true = true ∧ true = true
                     ∧ ¬ (encodable key ∧ encodable version)).
Proof.
  apply (generate_stuff_h_of_valid_config sample_config true true). reflexivity.
Defined.

End StuffOfConfig.

(** ** The shuffler: the index of the names *)

Section Lines.

Import Shuffler.

Lemma enumerate_from_app {A} (k : nat) (l1 l2 : list A) :
  enumerate_from k (l1 ++ l2)
  = enumerate_from k l1 ++ enumerate_from (k + length l1) l2.
Proof.
  revert k. induction l1 as [|x l1 IH]; intros k; simpl.
  - by rewrite Nat.add_0_r.
  - rewrite IH. do 3 f_equal. lia.
Qed.

Lemma opcode_index_snoc (lines : list str) (l : str) :
  opcode_index (lines ++ [l])
  = match extract_opcode l with
    | Some op => <[op := length lines]> (opcode_index lines)
    | None => opcode_index lines
    end.
Proof.
  unfold opcode_index, enumerate. rewrite enumerate_from_app, foldl_app. done.
Qed.

(** X25. The index of the names points at the last definition of a name:
    it gives [i] for a name exactly when line [i] defines the name and no
    later line does.  Of two lines that define one name, the shuffler moves
    the second only. *)
Theorem opcode_index_last_definition (lines : list str) (op : str) (i : nat) :
  opcode_index lines !! op = Some i
  ↔ (∃ line, lines !! i = Some line ∧ extract_opcode line = Some op)
    ∧ ∀ j line, (i < j)%nat → lines !! j = Some line →
                extract_opcode line ≠ Some op.
Proof.
  revert i. induction lines as [|l lines IH] using rev_ind; intros i.
  { unfold opcode_index. cbn [enumerate enumerate_from foldl].
    rewrite lookup_empty. split; [done|]. by intros [(line & H & _) _]. }
  rewrite opcode_index_snoc.
  assert (extract_opcode l = Some op
          ∨ opcode_index (lines ++ [l]) !! op = opcode_index lines !! op
            ∧ extract_opcode l ≠ Some op) as [Hl|[Heq Hl]].
  { rewrite opcode_index_snoc.
    destruct (extract_opcode l) as [op'|] eqn:E; [|by right].
    destruct (decide (op' = op)) as [->|Hne]; [by left|].
    right. rewrite lookup_insert_ne by done. split; [done|congruence]. }
  - rewrite Hl, lookup_insert_eq. split.
    + intros [= <-]. split.
      * exists l. by rewrite list_lookup_middle.
      * intros j line Hj Hline. apply lookup_lt_Some in Hline.
        rewrite length_app in Hline. simpl in Hline. lia.
    + intros [(line & Hi & _) Hlast].
      pose proof (lookup_lt_Some _ _ _ Hi) as Hlt.
      rewrite length_app in Hlt. simpl in Hlt.
      destruct (decide (i = length lines)) as [->|]; [done|].
      destruct (Hlast (length lines) l); [lia| |done].
      by rewrite list_lookup_middle.
  - rewrite opcode_index_snoc in Heq. rewrite Heq, IH. split.
    + intros [(line & Hi & Hop) Hlast]. split.
      * exists line. split; [|done]. by apply lookup_app_l_Some.
      * intros j line' Hj Hline'.
        apply lookup_snoc_Some in Hline' as [[_ ?]|[_ <-]]; [eauto|done].
    + intros [(line & Hi & Hop) Hlast].
      apply lookup_snoc_Some in Hi as [[Hlt Hi]|[_ <-]]; [|done].
      split; [eauto|]. intros j line' Hj Hline'.
      apply (Hlast j line' Hj). by apply lookup_app_l_Some.
Qed.

End Lines.

(** ** The shuffler: definition lines and the size of the fix-up *)

Section DefinitionLines.

Import Shuffler.

Local Abbreviation spaces w := (Forall (λ c : N, is_space c = true) w).
Local Abbreviation word w := (Forall (λ c : N, is_word c = true) w).

Lemma word_not_space (c : char) : is_word c = true → is_space c = false.
Proof.
  unfold is_word, is_space. intros H. apply not_true_is_false. revert H.
  rewrite !orb_true_iff, !andb_true_iff, !N.leb_le, !N.eqb_eq. lia.
Qed.

Lemma skip_spaces_spaces (ws s : str) :
  spaces ws → skip_spaces (ws ++ s) = skip_spaces s.
Proof. induction 1 as [|c ws Hc _ IH]; [done|]. simpl. by rewrite Hc. Qed.

Lemma take_word_split (s : str) :
  ∃ rest, s = take_word s ++ rest ∧ word (take_word s)
          ∧ ∀ c, head rest = Some c → is_word c = false.
Proof.
  induction s as [|c s (rest & Hs & Hw & Hr)].
  - exists []. by split_and!.
  - simpl. destruct (is_word c) eqn:E.
    + exists rest. split_and!; [by rewrite Hs at 1|by constructor|done].
    + exists (c :: s). split_and!; [done|constructor|]. by intros ? [= <-].
Qed.

Lemma take_word_app (op rest : str) :
  word op → (∀ c, head rest = Some c → is_word c = false) →
  take_word (op ++ rest) = op.
Proof.
  intros Hop Hrest. induction Hop as [|c op Hc _ IH].
  - destruct rest as [|c rest]; [done|]. simpl. by rewrite (Hrest c).
  - simpl. by rewrite Hc, IH.
Qed.

(** X26. The lines that define a name.  [extract_opcode] gives a name for a
    line exactly when the line is: white space, then [DEF(], then white
    space, then the name, a longest non-empty stretch of letters, digits and
    underscores.  A line that starts with anything else, a comment opening
    for instance, defines nothing. *)
Theorem extract_opcode_matches (line op : str) :
  extract_opcode line = Some op
  ↔ ∃ ws1 ws2 rest,
      line = ws1 ++ lit "DEF(" ++ ws2 ++ op ++ rest
      ∧ spaces (ws1 ++ ws2)
      ∧ op ≠ [] ∧ word op
      ∧ ∀ c, head rest = Some c → is_word c = false.
Proof.
  unfold extract_opcode, match_DEF. split.
  - destruct (skip_spaces_split line) as (ws1 & Hline & Hws1).
    destruct (starts_with (lit "DEF(") (skip_spaces line)) eqn:Hd; [|done].
    apply starts_with_spec in Hd as [r Hr]. rewrite Hr in *.
    change 4%nat with (length (lit "DEF(")). rewrite drop_app_length.
    destruct (skip_spaces_split r) as (ws2 & Hr' & Hws2).
    destruct (take_word_split (skip_spaces r)) as (rest & Hs & Hw & Hrest).
    destruct (take_word (skip_spaces r)) as [|c w] eqn:E; [done|].
    intros [= <-]. exists ws1, ws2, rest.
    split_and!; [|by apply Forall_app|done|done|done].
    rewrite Hline at 1. do 2 f_equal. rewrite Hr' at 1. f_equal.
    by rewrite <- Hs.
  - intros (ws1 & ws2 & rest & -> & [Hws1 Hws2]%Forall_app & Hne & Hw & Hrest).
    rewrite skip_spaces_spaces by done.
    change (skip_spaces (lit "DEF(" ++ ws2 ++ op ++ rest))
      with (lit "DEF(" ++ ws2 ++ op ++ rest).
    assert (starts_with (lit "DEF(") (lit "DEF(" ++ ws2 ++ op ++ rest) = true)
      as -> by (apply starts_with_spec; eauto).
    change 4%nat with (length (lit "DEF(")). rewrite drop_app_length.
    rewrite skip_spaces_spaces by done.
    assert (skip_spaces (op ++ rest) = op ++ rest) as ->.
    { destruct Hw as [|c op Hc Hw]; [done|]. simpl.
      by rewrite (word_not_space c Hc). }
    rewrite take_word_app by done. by destruct op.
Qed.

Lemma fix_step_length (b : bool) (line : str) :
  (length (fix_step b line).1 ≤ if b then 2 else 1)%nat.
Proof.
  rewrite fix_step_out. cbv zeta.
  destruct (_ && _ && _); [destruct b; simpl; lia|].
  destruct b; cbn [andb]; [|simpl; lia].
  destruct (_ || _); simpl; lia.
Qed.

Lemma fix_loop_size (b : bool) (lines : list str) :
  (length (fix_loop b lines).1 + (if (fix_loop b lines).2 then 1 else 0)
   ≤ 2 * length lines + if b then 1 else 0)%nat.
Proof.
  revert b. induction lines as [|line lines IH]; intros b; cbn [fix_loop].
  - destruct b; simpl; lia.
  - pose proof (fix_step_length b line) as Hstep.
    destruct (fix_step b line) as [out b1]. specialize (IH b1).
    destruct (fix_loop b1 lines) as [fixed b2]. cbn [fst snd length] in *.
    rewrite length_app. destruct b, b1, b2; lia.
Qed.

Lemma fix_step_ends (b : bool) (line : str) :
  Forall (λ l : str, ∃ x, l = x ++ lit nl) (fix_step b line).1.
Proof.
  rewrite fix_step_out. cbv zeta.
  destruct (_ && _ && _); [repeat constructor; by eexists|].
  apply Forall_app. split; [|repeat constructor; by eexists].
  destruct (_ && _); [|constructor].
  repeat constructor. by exists (lit " */").
Qed.

(** X27. The size of what the fix-up returns: at most twice as many lines as
    it received, and each of them ends with a newline, the last line of a
    file that does not end with one included. *)
Theorem fixup_output_size (lines : list str) :
  (length (fix_multiline_trailing_comments lines) ≤ 2 * length lines)%nat
  ∧ Forall (λ l : str, ∃ x, l = x ++ lit nl)
      (fix_multiline_trailing_comments lines).
Proof.
  unfold fix_multiline_trailing_comments. split.
  - pose proof (fix_loop_size false lines) as H.
    destruct (fix_loop false lines) as [fixed []]; cbn [fst snd] in H;
      rewrite ?length_app; simpl; lia.
  - assert (∀ b, Forall (λ l : str, ∃ x, l = x ++ lit nl) (fix_loop b lines).1)
      as H.
    { induction lines as [|line lines IH]; intros b; cbn [fix_loop];
        [constructor|].
      pose proof (fix_step_ends b line) as Hstep.
      destruct (fix_step b line) as [out b1]. specialize (IH b1).
      destruct (fix_loop b1 lines) as [fixed b2]. cbn [fst] in *.
      by apply Forall_app. }
    specialize (H false). destruct (fix_loop false lines) as [fixed []];
      cbn [fst] in H; [|done].
    apply Forall_app. split; [done|]. repeat constructor. by exists (lit " */").
Qed.

End DefinitionLines.
